(** * Paragraph: the Editor.js paragraph block with alignment tunes

    A shallow embedding of the [Paragraph] class.  The class is glue between
    the host editor and one DOM element, so the embedding has three layers:

    - the JavaScript values the class handles (strings, [undefined], [NaN])
      with the operators it applies to them ([||], [===], [+], [trim]);
    - a small document: a heap of elements addressed by node number, holding
      the properties the class reads and writes and the exceptions the DOM
      raises on them, together with the queue of callbacks handed to
      [requestAnimationFrame];
    - the methods of the class, written in a state-and-exception monad, one
      definition per method, under the method's own name. *)

From Stdlib Require Import NArith String Ascii.
From stdpp Require Import base numbers option list.

Local Open Scope N_scope.

(** ** Strings

    A JavaScript string is a sequence of UTF-16 code units. *)

Definition jsstring := list N.

Definition lit (s : string) : jsstring :=
  List.map N_of_ascii (list_ascii_of_string s).

Definition empty_string : jsstring := [].

(** WhiteSpace and LineTerminator code points of ECMAScript, the characters
    [String.prototype.trim] strips. *)
Definition is_white_space (c : N) : bool :=
  (c =? 0x0009) || (c =? 0x000B) || (c =? 0x000C) || (c =? 0x0020) ||
  (c =? 0x00A0) || (c =? 0xFEFF) || (c =? 0x1680) ||
  ((0x2000 <=? c) && (c <=? 0x200A)) ||
  (c =? 0x202F) || (c =? 0x205F) || (c =? 0x3000).

Definition is_line_terminator (c : N) : bool :=
  (c =? 0x000A) || (c =? 0x000D) || (c =? 0x2028) || (c =? 0x2029).

Definition is_trimmed (c : N) : bool :=
  is_white_space c || is_line_terminator c.

Fixpoint trim_start (s : jsstring) : jsstring :=
  match s with
  | [] => []
  | c :: r => if is_trimmed c then trim_start r else s
  end.

Definition trim_end (s : jsstring) : jsstring :=
  rev (trim_start (rev s)).

Definition trim (s : jsstring) : jsstring :=
  trim_end (trim_start s).

(** ASCII white space of the DOM standard: no class token may contain it. *)
Definition is_ascii_whitespace (c : N) : bool :=
  (c =? 0x0009) || (c =? 0x000A) || (c =? 0x000C) || (c =? 0x000D) || (c =? 0x0020).

(** ASCII upper case: [tagName] reports the name of an HTML element so. *)
Definition ascii_uppercase (s : jsstring) : jsstring :=
  (fun c => if (0x0061 <=? c) && (c <=? 0x007A) then c - 0x0020 else c) <$> s.

(** ** Values

    The fields of the data and configuration objects are strings when the
    host supplies them and [undefined] when it leaves them out; [NaN] is what
    [+] makes of two [undefined] operands, so the type is closed under every
    operator the class applies. *)

Inductive value :=
| VUndefined
| VNaN
| VStr (s : jsstring).

#[global] Instance value_eq_dec : EqDecision value.
Proof. solve_decision. Defined.

(** ToBoolean *)
Definition truthy (v : value) : bool :=
  match v with
  | VStr (_ :: _) => true
  | _ => false
  end.

(** ToString *)
Definition ToString (v : value) : jsstring :=
  match v with
  | VUndefined => lit "undefined"
  | VNaN => lit "NaN"
  | VStr s => s
  end.

(** [a || b] *)
Definition js_or (a b : value) : value :=
  if truthy a then a else b.

(** [a === b]; [NaN] is not equal to itself. *)
Definition strict_eq (a b : value) : bool :=
  match a, b with
  | VUndefined, VUndefined => true
  | VStr s, VStr t => bool_decide (s = t)
  | _, _ => false
  end.

(** [a + b]: concatenation as soon as one operand is a string, numeric
    addition (of two non-numbers, hence [NaN]) otherwise. *)
Definition js_add (a b : value) : value :=
  match a, b with
  | VStr s, _ => VStr (s ++ ToString b)
  | _, VStr t => VStr (ToString a ++ t)
  | _, _ => VNaN
  end.

(** ** Completions *)

(** [TypeError] is the language's; [SyntaxError] and
    [InvalidCharacterError] are the DOM exceptions of a token list. *)
Inductive exn := TypeError | SyntaxError | InvalidCharacterError.

#[global] Instance exn_eq_dec : EqDecision exn.
Proof. solve_decision. Defined.

Inductive completion (A : Type) :=
| Normal (a : A)
| Throw (e : exn).
Arguments Normal {A} a.
Arguments Throw {A} e.

Definition is_normal {A} (c : completion A) : bool :=
  match c with Normal _ => true | Throw _ => false end.

(** ** Data and configuration objects

    A field that is left out reads as [VUndefined] (for [preserveBlank],
    which is a boolean when present, as [None]). *)

Record ParagraphData := mkData {
  text : value;
  alignment : value
}.

#[global] Instance ParagraphData_eq_dec : EqDecision ParagraphData.
Proof. solve_decision. Defined.

(** [{}] *)
Definition empty_object : ParagraphData := mkData VUndefined VUndefined.

Record ParagraphConfig := mkConfig {
  placeholder : value;
  preserveBlank : option bool;
  defaultAlignment : value
}.

(** What the class uses of the editor's api object. *)
Record Api := mkApi {
  styles_block : value;
  styles_settingsButtonActive : value;
  i18n_t : value -> value
}.

(** [event.detail.data] of a paste event: the pasted element's markup and
    its inline [style.textAlign], which the DOM always reports as a string. *)
Record PasteEvent := mkPaste {
  paste_innerHTML : jsstring;
  paste_textAlign : jsstring
}.

(** ** Static getters *)

Module Static.
Definition DEFAULT_PLACEHOLDER : value := VStr empty_string.
Definition ALIGNMENTS : list jsstring :=
  [lit "left"; lit "center"; lit "right"; lit "justify"].
Definition DEFAULT_ALIGNMENT : value := VStr (lit "left").
Definition isReadOnlySupported : bool := true.
Definition pasteConfig_tags : list jsstring := [lit "p"].
End Static.

(** ** The document

    Elements live in a heap; a node is an index into it.  Elements are never
    removed, so a node stays valid once created.  An element records the
    properties the class touches.  Listeners are the two functions the class
    ever registers, in defunctionalised form.

    The children of an element are kept in order.  Children that came from
    markup (an assignment of [innerHTML], an edit of the user) are kept as
    the markup they serialise to; a child that was appended is kept as the
    node it is, because it stays live.  [innerHTML] is not a field: it is
    read off the children, see [innerHTML] below. *)

Abbreviation node := nat (only parsing).

Inductive listener :=
| OnKeyUp                                        (* this.onKeyUp *)
| TuneClick (index : nat) (elements : list node) (* the click arrow of renderSettings *).

#[global] Instance listener_eq_dec : EqDecision listener.
Proof. solve_decision. Defined.

Inductive event_type := keyup | click.

#[global] Instance event_type_eq_dec : EqDecision event_type.
Proof. solve_decision. Defined.

Inductive child :=
| Parsed (markup : jsstring)   (* children parsed from markup, as they serialise *)
| Appended (n : node)          (* an element appended with appendChild *).

#[global] Instance child_eq_dec : EqDecision child.
Proof. solve_decision. Defined.

Record Element := mkElement {
  tagName : jsstring;
  classList : list jsstring;
  contentEditable : option bool;          (* None: never assigned ("inherit") *)
  dataset_placeholder : option jsstring;
  children : list child;
  listeners : list (event_type * listener)
}.

(** A new element, which [tagName] names [tag]. *)
Definition new_element (tag : jsstring) : Element :=
  mkElement tag [] None None [] [].

Definition with_classList (l : list jsstring) (e : Element) : Element :=
  mkElement (tagName e) l (contentEditable e) (dataset_placeholder e)
            (children e) (listeners e).
Definition with_contentEditable (b : bool) (e : Element) : Element :=
  mkElement (tagName e) (classList e) (Some b) (dataset_placeholder e)
            (children e) (listeners e).
Definition with_placeholder (p : jsstring) (e : Element) : Element :=
  mkElement (tagName e) (classList e) (contentEditable e) (Some p)
            (children e) (listeners e).
Definition with_children (c : list child) (e : Element) : Element :=
  mkElement (tagName e) (classList e) (contentEditable e) (dataset_placeholder e)
            c (listeners e).
(** The element once its children are those of markup that serialises to
    [h]: whatever children it had are gone. *)
Definition with_innerHTML (h : jsstring) (e : Element) : Element :=
  with_children [Parsed h] e.
Definition with_listeners (l : list (event_type * listener)) (e : Element) : Element :=
  mkElement (tagName e) (classList e) (contentEditable e) (dataset_placeholder e)
            (children e) l.

(** The check [DOMTokenList] makes of a token before [add] and [toggle] do
    anything: the empty token is a [SyntaxError], a token with ASCII white
    space an [InvalidCharacterError]. *)
Definition token_error (t : jsstring) : option exn :=
  match t with
  | [] => Some SyntaxError
  | _ => if existsb is_ascii_whitespace t then Some InvalidCharacterError else None
  end.

(** The first error among the tokens, in the order of the arguments. *)
Fixpoint tokens_error (ts : list jsstring) : option exn :=
  match ts with
  | [] => None
  | t :: r =>
      match token_error t with
      | Some e => Some e
      | None => tokens_error r
      end
  end.

(** [classList.add(token)] of a valid token: a token list has no
    duplicates. *)
Definition add_token (t : jsstring) (l : list jsstring) : list jsstring :=
  if bool_decide (t ∈ l) then l else l ++ [t].

(** [classList.toggle(token, force)] of a valid token *)
Definition toggle_token (t : jsstring) (force : bool) (l : list jsstring) : list jsstring :=
  if force then add_token t l else filter (fun x => x ≠ t) l.

(** [addEventListener]: registering the same function twice has no effect. *)
Definition add_listener (ty : event_type) (f : listener)
    (l : list (event_type * listener)) : list (event_type * listener) :=
  if bool_decide ((ty, f) ∈ l) then l else l ++ [(ty, f)].

(** ** The instance and its world *)

Record CSS := mkCSS {
  css_block : value;
  css_wrapper : value;
  css_settingsButtonActive : value;
  css_alignment : list (jsstring * jsstring)
}.

(** What reading a property of a plain object gives: a value of the
    object's own, or a member it inherits from [Object.prototype], which is
    a built-in function or, under [__proto__], the prototype itself. *)
Inductive property :=
| PValue (v : value)
| PFunction (name : jsstring)
| PPrototype.

(** The methods of [Object.prototype], by property name, with the name of
    the function. *)
Definition Object_prototype_methods : list (jsstring * jsstring) :=
  [(lit "constructor", lit "Object");
   (lit "hasOwnProperty", lit "hasOwnProperty");
   (lit "isPrototypeOf", lit "isPrototypeOf");
   (lit "propertyIsEnumerable", lit "propertyIsEnumerable");
   (lit "toLocaleString", lit "toLocaleString");
   (lit "toString", lit "toString");
   (lit "valueOf", lit "valueOf");
   (lit "__defineGetter__", lit "__defineGetter__");
   (lit "__defineSetter__", lit "__defineSetter__");
   (lit "__lookupGetter__", lit "__lookupGetter__");
   (lit "__lookupSetter__", lit "__lookupSetter__")].

(** A property the object does not have itself. *)
Definition inherited (key : jsstring) : property :=
  if bool_decide (key = lit "__proto__") then PPrototype
  else match list_find (fun kv => kv.1 = key) Object_prototype_methods with
       | Some (_, (_, f)) => PFunction f
       | None => PValue VUndefined
       end.

(** The string a property becomes where a string is expected.  The source
    text of a built-in function is the engine's own; this is the common one,
    and every engine's has white space between [native] and [code]. *)
Definition property_string (p : property) : jsstring :=
  match p with
  | PValue v => ToString v
  | PFunction f => lit "function " ++ f ++ lit "() { [native code] }"
  | PPrototype => lit "[object Object]"
  end.

(** [obj[key]] on the [alignment] table of [_CSS], a plain object with four
    properties of its own. *)
Definition lookup_class (table : list (jsstring * jsstring)) (key : value) : property :=
  match list_find (fun kv => kv.1 = ToString key) table with
  | Some (_, (_, c)) => PValue (VStr c)
  | None => inherited (ToString key)
  end.

Record Tune := mkTune { name : jsstring; icon : jsstring }.

Record State := mkState {
  (* fields of [this] *)
  api : Api;
  readOnly : bool;
  config : ParagraphConfig;
  _CSS : CSS;
  _placeholder : value;
  _data : ParagraphData;
  _tunesButtons : list Tune;
  _element : option node;
  _preserveBlank : bool;
  (* the page *)
  document : list Element;
  animationFrames : nat      (* hydrate callbacks waiting for the next frame *)
}.

Definition with_data (d : ParagraphData) (s : State) : State :=
  mkState (api s) (readOnly s) (config s) (_CSS s) (_placeholder s) d
          (_tunesButtons s) (_element s) (_preserveBlank s)
          (document s) (animationFrames s).
Definition with_element (n : option node) (s : State) : State :=
  mkState (api s) (readOnly s) (config s) (_CSS s) (_placeholder s) (_data s)
          (_tunesButtons s) n (_preserveBlank s)
          (document s) (animationFrames s).
Definition with_document (d : list Element) (s : State) : State :=
  mkState (api s) (readOnly s) (config s) (_CSS s) (_placeholder s) (_data s)
          (_tunesButtons s) (_element s) (_preserveBlank s)
          d (animationFrames s).
Definition with_animationFrames (k : nat) (s : State) : State :=
  mkState (api s) (readOnly s) (config s) (_CSS s) (_placeholder s) (_data s)
          (_tunesButtons s) (_element s) (_preserveBlank s)
          (document s) k.

(** ** The monad: state that survives an exception *)

Definition JS (A : Type) : Type := State -> State * completion A.

Definition ret {A} (a : A) : JS A := fun s => (s, Normal a).
Definition throw {A} (e : exn) : JS A := fun s => (s, Throw e).
Definition bind {A B} (m : JS A) (k : A -> JS B) : JS B :=
  fun s => match m s with
           | (s', Normal a) => k a s'
           | (s', Throw e) => (s', Throw e)
           end.
Definition gets {A} (f : State -> A) : JS A := fun s => (s, Normal (f s)).
Definition modify (f : State -> State) : JS unit := fun s => (f s, Normal tt).

Notation "x <- m ;; k" := (bind m (fun x => k))
  (at level 100, m at next level, right associativity).
Notation "m ;;; k" := (bind m (fun _ => k))
  (at level 100, right associativity).

(** [forEach]: the callback runs on each item with its index; an exception
    ends the loop. *)
Fixpoint forEach_from {A} (i : nat) (f : A -> nat -> JS unit) (l : list A) : JS unit :=
  match l with
  | [] => ret tt
  | x :: r => f x i ;;; forEach_from (S i) f r
  end.
Definition forEach {A} (f : A -> nat -> JS unit) (l : list A) : JS unit :=
  forEach_from 0 f l.

(** [map] with an effectful callback *)
Fixpoint mapM {A B} (f : A -> JS B) (l : list A) : JS (list B) :=
  match l with
  | [] => ret []
  | x :: r => y <- f x ;; ys <- mapM f r ;; ret (y :: ys)
  end.

(** Reading a property of an object that may be [undefined]. *)
Definition prop {O A} (f : O -> A) (o : option O) : JS A :=
  match o with
  | Some x => ret (f x)
  | None => throw TypeError
  end.

(** Callbacks the browser runs one after the other (animation-frame
    callbacks, the listeners of an event): an exception in one is reported
    and the next one still runs.  The completion is the first exception, if
    any. *)
Fixpoint run_all (ms : list (JS unit)) : JS unit :=
  match ms with
  | [] => ret tt
  | m :: r => fun s =>
      let (s1, c1) := m s in
      let (s2, c2) := run_all r s1 in
      (s2, match c1 with Throw e => Throw e | Normal _ => c2 end)
  end.

(** ** The class *)

Section Paragraph.

(** The browser parses what is assigned to [innerHTML] and serialises the
    tree when [innerHTML] is read: [serialize s] is what reads back after
    [s] was assigned, and [outerHTML d n] is the serialisation of the
    element at node [n] of the document [d], tag, attributes and content.
    [textContent_of h] is the [textContent] of an element whose markup
    serialises to [h]. *)
Variable outerHTML : list Element -> node -> jsstring.
Variable serialize : jsstring -> jsstring.
Variable textContent_of : jsstring -> jsstring.

(** [require('./tune-<name>-icon.svg').default]: the markup of the icon
    files, which the bundler loads as raw strings. *)
Variable tune_icon : jsstring -> jsstring.

(** *** Document primitives *)

(** [document.createElement(tag)] in an HTML document *)
Definition createElement (tag : jsstring) : JS node :=
  fun s => (with_document (document s ++ [new_element (ascii_uppercase tag)]) s,
            Normal (length (document s))).

(** Following a reference that may be [null]. *)
Definition deref (r : option node) : JS Element :=
  fun s => match r with
           | Some n => match document s !! n with
                       | Some e => (s, Normal e)
                       | None => (s, Throw TypeError)
                       end
           | None => (s, Throw TypeError)
           end.

Definition update (r : option node) (f : Element -> Element) : JS unit :=
  e <- deref r ;;
  modify (fun s => with_document (alter f (default 0%nat r) (document s)) s).

(** What [innerHTML] reads on the element [e] of the document [d]: the
    serialisation of its children, one after the other. *)
Definition innerHTML (d : list Element) (e : Element) : jsstring :=
  concat ((fun c => match c with
                    | Parsed h => h
                    | Appended n => outerHTML d n
                    end) <$> children e).

(** [r.innerHTML] *)
Definition read_innerHTML (r : option node) : JS jsstring :=
  e <- deref r ;;
  gets (fun s => innerHTML (document s) e).

(** [r.innerHTML = v] *)
Definition set_innerHTML (r : option node) (v : value) : JS unit :=
  update r (with_innerHTML (serialize (ToString v))).

(** [r.classList.add(tokens)]: the arguments have been converted to
    strings; the tokens are all checked before any is added. *)
Definition classList_add (r : option node) (tokens : list jsstring) : JS unit :=
  deref r ;;;
  match tokens_error tokens with
  | Some e => throw e
  | None =>
      update r (fun e =>
        with_classList (foldl (fun l t => add_token t l) (classList e) tokens) e)
  end.

(** [r.classList.toggle(token, force)] *)
Definition classList_toggle (r : option node) (token : jsstring) (force : bool) : JS unit :=
  deref r ;;;
  match token_error token with
  | Some e => throw e
  | None => update r (fun e => with_classList (toggle_token token force (classList e)) e)
  end.

Definition addEventListener (r : option node) (ty : event_type) (f : listener) : JS unit :=
  update r (fun e => with_listeners (add_listener ty f (listeners e)) e).

(** [r.appendChild(child)] of a child that has no parent yet, which the
    new elements of the class are. *)
Definition appendChild (r : option node) (child : node) : JS unit :=
  update r (fun e => with_children (children e ++ [Appended child]) e).

(** *** Accessors *)

(** [get data()] *)
Definition get_data : JS ParagraphData :=
  el <- gets _element ;;
  match el with
  | Some _ =>
      h <- read_innerHTML el ;;
      modify (fun s => with_data (mkData (VStr h) (alignment (_data s))) s)
  | None => ret tt
  end ;;;
  gets _data.

(** [hydrate()]: the write to the view is left to the next frame. *)
Definition hydrate : JS unit :=
  modify (fun s => with_animationFrames (S (animationFrames s)) s).

(** The arrow function [hydrate] hands to [requestAnimationFrame]. *)
Definition hydrate_callback : JS unit :=
  el <- gets _element ;;
  d <- gets _data ;;
  set_innerHTML el (js_or (text d) (VStr empty_string)).

(** [set data(data)] *)
Definition set_data (data : option ParagraphData) : JS unit :=
  modify (with_data (default empty_object data)) ;;;
  el <- gets _element ;;
  match el with
  | Some _ => hydrate
  | None => ret tt
  end.

(** An assignment [this.data.alignment = v]: the getter runs, then the
    field of the object it returned, which is [this._data], is written. *)
Definition assign_alignment (v : value) : JS unit :=
  d <- get_data ;;
  modify (fun s => with_data (mkData (text (_data s)) v) s).

(** *** Construction *)

Definition constructor (data : option ParagraphData) (config : option ParagraphConfig)
    (api : Api) (readOnly : bool) : completion State :=
  match config with
  | None => Throw TypeError                       (* config.placeholder *)
  | Some c =>
    match data with
    | None => Throw TypeError                     (* data.text *)
    | Some d =>
      (* Binding [onKeyUp] to [this] leaves no trace in the state: the
         listener [OnKeyUp] always runs on the instance. *)
      let this :=
        mkState api readOnly c
          (mkCSS (styles_block api) (VStr (lit "ce-paragraph"))
                 (styles_settingsButtonActive api)
                 [(lit "left", lit "ce-paragraph--left");
                  (lit "center", lit "ce-paragraph--center");
                  (lit "right", lit "ce-paragraph--right");
                  (lit "justify", lit "ce-paragraph--justify")])
          (if truthy (placeholder c) then placeholder c else Static.DEFAULT_PLACEHOLDER)
          (mkData (js_or (text d) (VStr empty_string))
                  (js_or (js_or (alignment d) (defaultAlignment c)) Static.DEFAULT_ALIGNMENT))
          [mkTune (lit "left") (tune_icon (lit "left"));
           mkTune (lit "center") (tune_icon (lit "center"));
           mkTune (lit "right") (tune_icon (lit "right"));
           mkTune (lit "justify") (tune_icon (lit "justify"))]
          None
          (match preserveBlank c with Some b => b | None => false end)
          [] 0%nat in
      (* this.data = data; *)
      match set_data data this with
      | (s, Normal _) => Normal s
      | (_, Throw e) => Throw e
      end
    end
  end.

(** *** Methods *)

Definition onKeyUp (code : jsstring) : JS unit :=
  if bool_decide (code ≠ lit "Backspace") && bool_decide (code ≠ lit "Delete")
  then ret tt
  else
    el <- gets _element ;;
    h <- read_innerHTML el ;;
    if bool_decide (textContent_of h = empty_string)
    then set_innerHTML el (VStr empty_string)
    else ret tt.

Definition drawView : JS node :=
  div <- createElement (lit "DIV") ;;
  css <- gets _CSS ;;
  d <- gets _data ;;
  classList_add (Some div)
    [ToString (css_wrapper css); ToString (css_block css);
     property_string (lookup_class (css_alignment css) (alignment d))] ;;;
  update (Some div) (with_contentEditable false) ;;;
  a <- gets api ;;
  p <- gets _placeholder ;;
  update (Some div) (with_placeholder (ToString (i18n_t a p))) ;;;
  ro <- gets readOnly ;;
  (if negb ro
   then update (Some div) (with_contentEditable true) ;;;
        addEventListener (Some div) keyup OnKeyUp
   else ret tt) ;;;
  ret div.

Definition render : JS (option node) :=
  el <- gets _element ;;
  match el with
  | None => div <- drawView ;; modify (with_element (Some div))
  | Some _ => ret tt
  end ;;;
  hydrate ;;;
  gets _element.

Definition merge (data : option ParagraphData) : JS unit :=
  d1 <- get_data ;;
  t2 <- prop text data ;;
  d2 <- get_data ;;
  set_data (Some (mkData (js_add (text d1) t2) (alignment d2))).

(** [v.trim()]: only a string has the method. *)
Definition call_trim (v : value) : JS jsstring :=
  match v with
  | VStr s => ret (trim s)
  | _ => throw TypeError
  end.

Definition validate (savedData : option ParagraphData) : JS bool :=
  t <- prop text savedData ;;
  trimmed <- call_trim t ;;
  pb <- gets _preserveBlank ;;
  if bool_decide (trimmed = empty_string) && negb pb
  then ret false
  else ret true.

Definition _toggleTune (tune : value) : JS unit :=
  d <- get_data ;;
  if strict_eq (alignment d) tune
  then c <- gets config ;; assign_alignment (defaultAlignment c)
  else assign_alignment tune.

(** The arrow function [renderSettings] registers on the button number
    [index]; [elements] are the buttons it closes over. *)
Definition tune_click (index : nat) (elements : list node) : JS unit :=
  tunes <- gets _tunesButtons ;;
  clicked <- prop name (tunes !! index) ;;
  _toggleTune (VStr clicked) ;;;
  forEach (fun el i =>
    tunes <- gets _tunesButtons ;;
    nm <- prop name (tunes !! i) ;;
    css <- gets _CSS ;;
    d <- get_data ;;
    classList_toggle (Some el) (ToString (css_settingsButtonActive css))
                     (strict_eq (VStr nm) (alignment d)) ;;;
    view <- gets _element ;;
    deref view ;;;
    d' <- get_data ;;
    classList_toggle view (property_string (lookup_class (css_alignment css) (VStr nm)))
                     (strict_eq (VStr nm) (alignment d'))) elements.

Definition renderSettings : JS node :=
  wrapper <- createElement (lit "div") ;;
  tunes <- gets _tunesButtons ;;
  elements <- mapM (fun tune =>
    button <- createElement (lit "div") ;;
    classList_add (Some button) [lit "cdx-settings-button"] ;;;
    set_innerHTML (Some button) (VStr (icon tune)) ;;;
    css <- gets _CSS ;;
    d <- get_data ;;
    c <- gets config ;;
    classList_toggle (Some button) (ToString (css_settingsButtonActive css))
      (strict_eq (VStr (name tune)) (js_or (alignment d) (defaultAlignment c))) ;;;
    appendChild (Some wrapper) button ;;;
    ret button) tunes ;;
  forEach (fun element index =>
    addEventListener (Some element) click (TuneClick index elements)) elements ;;;
  ret wrapper.

Definition save (toolsContent : option node) : JS ParagraphData :=
  h <- read_innerHTML toolsContent ;;
  d <- get_data ;;
  ret (mkData (VStr h) (alignment d)).

Definition onPaste (event : PasteEvent) : JS unit :=
  c <- gets config ;;
  set_data (Some (mkData
    (VStr (paste_innerHTML event))
    (js_or (js_or (VStr (paste_textAlign event)) (defaultAlignment c))
           Static.DEFAULT_ALIGNMENT))).

(** *** What the browser does *)

Definition call (f : listener) (code : jsstring) : JS unit :=
  match f with
  | OnKeyUp => onKeyUp code
  | TuneClick index elements => tune_click index elements
  end.

(** An event of type [ty] on [target]; [code] is the key of a key event. *)
Definition dispatchEvent (target : node) (ty : event_type) (code : jsstring) : JS unit :=
  e <- deref (Some target) ;;
  run_all ((fun l => call l.2 code) <$> filter (fun l => l.1 = ty) (listeners e)).

(** The next frame: every waiting callback runs. *)
Definition animationFrame : JS unit :=
  k <- gets animationFrames ;;
  modify (with_animationFrames 0) ;;;
  run_all (replicate k hydrate_callback).

(** The user edits the view, when it is editable; [html] is the markup
    the edit leaves. *)
Definition userEdit (html : jsstring) : JS unit :=
  el <- gets _element ;;
  match el with
  | None => ret tt
  | Some _ =>
      e <- deref el ;;
      if bool_decide (contentEditable e = Some true)
      then update el (with_innerHTML html)
      else ret tt
  end.

(** *** Histories of an instance *)

Inductive op :=
| Render
| Save (toolsContent : option node)
| Validate (savedData : option ParagraphData)
| Merge (data : option ParagraphData)
| OnPaste (event : PasteEvent)
| RenderSettings
| SetData (data : option ParagraphData)
| Event (target : node) (ty : event_type) (code : jsstring)
| AnimationFrame
| UserEdit (html : jsstring).

Definition step (o : op) : JS unit :=
  match o with
  | Render => render ;;; ret tt
  | Save toolsContent => save toolsContent ;;; ret tt
  | Validate savedData => validate savedData ;;; ret tt
  | Merge data => merge data
  | OnPaste event => onPaste event
  | RenderSettings => renderSettings ;;; ret tt
  | SetData data => set_data data
  | Event target ty code => dispatchEvent target ty code
  | AnimationFrame => animationFrame
  | UserEdit html => userEdit html
  end.

(** The state after a history; an operation that throws leaves the state
    it reached. *)
Definition run (ops : list op) (s : State) : State :=
  foldl (fun s o => (step o s).1) s ops.

End Paragraph.

(** ** Vocabulary of the properties *)

(** One of the four values of [ALIGNMENTS]. *)
Definition is_alignment (v : value) : bool :=
  match v with
  | VStr s => bool_decide (s ∈ Static.ALIGNMENTS)
  | _ => false
  end.

Definition is_string (v : value) : bool :=
  match v with
  | VStr _ => true
  | _ => false
  end.

(** The text the data getter reports: the markup of the view once there is
    one, the stored text before. *)
Definition current_text (outerHTML : list Element -> node -> jsstring)
    (s : State) : value :=
  match _element s with
  | Some n =>
      match document s !! n with
      | Some e => VStr (innerHTML outerHTML (document s) e)
      | None => text (_data s)
      end
  | None => text (_data s)
  end.

(** The class tokens [drawView] gives the view, and the class token of the
    active settings button. *)
Definition view_tokens (s : State) : list jsstring :=
  [ToString (css_wrapper (_CSS s)); ToString (css_block (_CSS s));
   property_string (lookup_class (css_alignment (_CSS s)) (alignment (_data s)))].

Definition active_token (s : State) : jsstring :=
  ToString (css_settingsButtonActive (_CSS s)).

(** [render] can return: the view exists, or [drawView] can build it. *)
Definition can_render (s : State) : bool :=
  bool_decide (is_Some (_element s)) ||
  bool_decide (tokens_error (view_tokens s) = None).

(** What the constructor fixes for the life of the instance. *)
Definition constants (s : State) :=
  (api s, readOnly s, config s, _CSS s, _placeholder s, _tunesButtons s, _preserveBlank s).

(** The part of the instance that only a few methods write. *)
Definition core (s : State) :=
  (constants s, alignment (_data s), _element s).

(** A computation that leaves [core] alone, whether it returns or throws. *)
Definition quiet {A} (m : JS A) : Prop :=
  forall s, core (m s).1 = core s.

(** A predicate that a computation maintains, whether it returns or throws. *)
Definition maintains {A} (P : State -> Prop) (m : JS A) : Prop :=
  forall s, P s -> P (m s).1.

(** [hoare P m Q E]: from a state in [P], [m] ends in [Q] when it returns
    and in [E] when it throws. *)
Definition hoare {A} (P : State -> Prop) (m : JS A)
    (Q : A -> State -> Prop) (E : State -> Prop) : Prop :=
  forall s, P s ->
    match m s with
    | (s', Normal a) => Q a s'
    | (s', Throw _) => E s'
    end.

(** What a registered listener needs to run: [onKeyUp] sits on the view of
    an editable instance; a tune click knows its own button among those it
    closes over, one per tune, all of them in the document, and the class of
    the active button is a token. *)
Definition listener_ok (s : State) (m : node) (l : event_type * listener) : Prop :=
  match l.2 with
  | OnKeyUp => l.1 = keyup /\ _element s = Some m /\ readOnly s = false
  | TuneClick index elements =>
      l.1 = click /\
      (index < length elements)%nat /\
      (length elements <= length (_tunesButtons s))%nat /\
      Forall (fun b => (b < length (document s))%nat) elements /\
      token_error (active_token s) = None
  end.

(** Well-formed worlds: the view is in the document, editable exactly when
    the instance is not read-only, and then carries the key listener; frames
    are only awaited once there is a view; every listener can run; the class
    of every tune is a token. *)
Record wf (s : State) : Prop := mkWf {
  wf_view : forall n, _element s = Some n ->
    exists e, document s !! n = Some e /\
              contentEditable e = Some (negb (readOnly s)) /\
              (readOnly s = false -> (keyup, OnKeyUp) ∈ listeners e);
  wf_frames : animationFrames s <> 0%nat -> is_Some (_element s);
  wf_listeners : forall m e l,
    document s !! m = Some e -> l ∈ listeners e -> listener_ok s m l;
  wf_classes :
    Forall (fun t => token_error (property_string
                       (lookup_class (css_alignment (_CSS s)) (VStr (name t)))) = None)
           (_tunesButtons s)
}.

(** Operations that give the alignment no value outside [ALIGNMENTS]: a
    paste whose inline style is empty or one of the four, a data object whose
    alignment is one of the four. *)
Definition aligned_op (o : op) : bool :=
  match o with
  | OnPaste event =>
      bool_decide (paste_textAlign event = empty_string) ||
      is_alignment (VStr (paste_textAlign event))
  | SetData data =>
      match data with
      | Some d => is_alignment (alignment d)
      | None => false
      end
  | _ => true
  end.

(** Normal operation: the host saves an element of the document, validates
    what [save] produced (an object whose text is a string), merges the data
    of another block (an object), and events hit elements of the document
    once the block is rendered; it asks for the view when the view exists or
    its classes are tokens, and for the settings when the class of the
    active button is a token. *)
Definition normal_op (s : State) (o : op) : bool :=
  match o with
  | Render => can_render s
  | RenderSettings => bool_decide (token_error (active_token s) = None)
  | Save toolsContent =>
      match toolsContent with
      | Some n => bool_decide (n < length (document s))%nat
      | None => false
      end
  | Validate savedData =>
      match savedData with
      | Some d => is_string (text d)
      | None => false
      end
  | Merge data => bool_decide (is_Some data)
  | Event target _ _ =>
      bool_decide (is_Some (_element s)) &&
      bool_decide (target < length (document s))%nat
  | _ => true
  end.

Section Histories.

Variable outerHTML : list Element -> node -> jsstring.
Variable serialize : jsstring -> jsstring.
Variable textContent_of : jsstring -> jsstring.

(** Every operation of the history is normal in the state it meets. *)
Fixpoint normal_history (ops : list op) (s : State) : bool :=
  match ops with
  | [] => true
  | o :: r =>
      normal_op s o && normal_history r (step outerHTML serialize textContent_of o s).1
  end.

(** Some operation of the history throws. *)
Fixpoint raises (ops : list op) (s : State) : bool :=
  match ops with
  | [] => false
  | o :: r =>
      negb (is_normal (step outerHTML serialize textContent_of o s).2) ||
      raises r (step outerHTML serialize textContent_of o s).1
  end.

End Histories.

(** An update of an element that touches neither its editability nor its
    listeners. *)
Definition cosmetic (f : Element -> Element) : Prop :=
  forall e, contentEditable (f e) = contentEditable e /\ listeners (f e) = listeners e.

(** [extends s s']: from [s] to [s'] the instance kept its constants and its
    view, frames are only awaited if they were or if there is a view, old
    elements kept their editability and listeners, and new elements have no
    listeners. *)
Record extends (s s' : State) : Prop := mkExtends {
  ext_constants : constants s' = constants s;
  ext_element : _element s' = _element s;
  ext_frames : animationFrames s' <> 0%nat ->
               animationFrames s <> 0%nat \/ is_Some (_element s);
  ext_length : (length (document s) <= length (document s'))%nat;
  ext_old : forall n e, document s !! n = Some e ->
    exists e', document s' !! n = Some e' /\
               contentEditable e' = contentEditable e /\
               listeners e' = listeners e;
  ext_new : forall n e', document s' !! n = Some e' ->
    (length (document s) <= n)%nat -> listeners e' = []
}.

(** A computation that only extends the world, whether it returns or
    throws. *)
Definition gentle {A} (m : JS A) : Prop :=
  forall s, extends s (m s).1.

(** A predicate that survives extensions. *)
Definition steady (P : State -> Prop) : Prop :=
  forall s s', extends s s' -> P s -> P s'.

(** Alignment and the tables it is chosen from are all within
    [ALIGNMENTS]. *)
Definition aligned (s : State) : Prop :=
  is_alignment (alignment (_data s)) = true /\
  is_alignment (defaultAlignment (config s)) = true /\
  Forall (fun t => is_alignment (VStr (name t)) = true) (_tunesButtons s).

(** ** Vocabulary of the further properties *)

(** Operations that may write the alignment: a paste, an assignment of the
    data, a click. *)
Definition writes_alignment (o : op) : bool :=
  match o with
  | OnPaste _ | SetData _ | Event _ click _ => true
  | _ => false
  end.

Section Callbacks.

Variable outerHTML : list Element -> node -> jsstring.
Variable serialize : jsstring -> jsstring.

(** The callback of [elements.forEach] in the click listener of
    [renderSettings]: it marks the button [el] of the tune number [i] and
    the view. *)
Definition mark_tune (el : node) (i : nat) : JS unit :=
  tunes <- gets _tunesButtons ;;
  nm <- prop name (tunes !! i) ;;
  css <- gets _CSS ;;
  d <- get_data outerHTML ;;
  classList_toggle (Some el) (ToString (css_settingsButtonActive css))
                   (strict_eq (VStr nm) (alignment d)) ;;;
  view <- gets _element ;;
  deref view ;;;
  d' <- get_data outerHTML ;;
  classList_toggle view (property_string (lookup_class (css_alignment css) (VStr nm)))
                   (strict_eq (VStr nm) (alignment d')).

(** The callback [renderSettings] maps over the tunes: one button, its icon,
    its active mark, appended to the wrapper. *)
Definition settings_button (wrapper : node) (tune : Tune) : JS node :=
  button <- createElement (lit "div") ;;
  classList_add (Some button) [lit "cdx-settings-button"] ;;;
  set_innerHTML serialize (Some button) (VStr (icon tune)) ;;;
  css <- gets _CSS ;;
  d <- get_data outerHTML ;;
  c <- gets config ;;
  classList_toggle (Some button) (ToString (css_settingsButtonActive css))
    (strict_eq (VStr (name tune)) (js_or (alignment d) (defaultAlignment c))) ;;;
  appendChild (Some wrapper) button ;;;
  ret button.

End Callbacks.

(** ** Sample inputs *)

Module Sample.
(** The styles Editor.js hands to its tools, and a dictionary that
    translates nothing. *)
Definition api : Api :=
  mkApi (VStr (lit "cdx-block")) (VStr (lit "cdx-settings-button--active"))
        (fun v => v).
(** A browser that reads markup back as it was written, and that writes
    an element as its tag in brackets. *)
Definition verbatim (h : jsstring) : jsstring := h.
Definition outer (d : list Element) (n : node) : jsstring :=
  match d !! n with
  | Some e => lit "<" ++ tagName e ++ lit ">"
  | None => empty_string
  end.
Definition icons (tune : jsstring) : jsstring := lit "<svg/>".
(** [{}] as configuration *)
Definition no_config : ParagraphConfig := mkConfig VUndefined None VUndefined.
Definition left_config : ParagraphConfig :=
  mkConfig VUndefined None (VStr (lit "left")).
Definition centered_A : ParagraphData :=
  mkData (VStr (lit "A")) (VStr (lit "center")).
Definition text_B : ParagraphData := mkData (VStr (lit "B")) VUndefined.
(** Data whose alignment names a method of [Object.prototype] *)
Definition toString_A : ParagraphData :=
  mkData (VStr (lit "A")) (VStr (lit "toString")).
(** [<div style="text-align:right">hi</div>] *)
Definition paste_right : PasteEvent := mkPaste (lit "hi") (lit "right").
(** [<p style="text-align:start">hi</p>] *)
Definition paste_start : PasteEvent := mkPaste (lit "hi") (lit "start").
End Sample.

(** * Proofs

    The proofs hold for every browser: [outerHTML], like [serialize] and
    [textContent_of] further down, is any function. *)

Section Browser.

Variable outerHTML : list Element -> node -> jsstring.

Local Abbreviation innerHTML := (innerHTML outerHTML).
Local Abbreviation read_innerHTML := (read_innerHTML outerHTML).
Local Abbreviation get_data := (get_data outerHTML).
Local Abbreviation assign_alignment := (assign_alignment outerHTML).
Local Abbreviation onKeyUp := (onKeyUp outerHTML).
Local Abbreviation merge := (merge outerHTML).
Local Abbreviation _toggleTune := (_toggleTune outerHTML).
Local Abbreviation tune_click := (tune_click outerHTML).
Local Abbreviation renderSettings := (renderSettings outerHTML).
Local Abbreviation save := (save outerHTML).
Local Abbreviation call := (call outerHTML).
Local Abbreviation dispatchEvent := (dispatchEvent outerHTML).
Local Abbreviation step := (step outerHTML).
Local Abbreviation run := (run outerHTML).
Local Abbreviation current_text := (current_text outerHTML).
Local Abbreviation normal_history := (normal_history outerHTML).
Local Abbreviation raises := (raises outerHTML).
Local Abbreviation mark_tune := (mark_tune outerHTML).
Local Abbreviation settings_button := (settings_button outerHTML).

(** ** Rules for the three judgements *)

Section Rules.

Context {A B : Type}.

Lemma quiet_ret (a : A) : quiet (ret a).
Proof. intros s; reflexivity. Qed.

Lemma quiet_throw (e : exn) : quiet (@throw A e).
Proof. intros s; reflexivity. Qed.

Lemma quiet_gets (f : State -> A) : quiet (gets f).
Proof. intros s; reflexivity. Qed.

Lemma quiet_prop {O} (f : O -> A) (o : option O) : quiet (prop f o).
Proof. destruct o; intros s; reflexivity. Qed.

Lemma quiet_modify (f : State -> State) :
  (forall s, core (f s) = core s) -> quiet (modify f).
Proof. intros H s; apply H. Qed.

Lemma quiet_bind (m : JS A) (k : A -> JS B) :
  quiet m -> (forall a, quiet (k a)) -> quiet (bind m k).
Proof.
  intros Hm Hk s. unfold bind.
  specialize (Hm s). destruct (m s) as [s1 [a|e]]; simpl in *.
  - rewrite (Hk a s1). exact Hm.
  - exact Hm.
Qed.

Lemma quiet_forEach_from (f : A -> nat -> JS unit) (l : list A) :
  (forall x i, quiet (f x i)) -> forall i, quiet (forEach_from i f l).
Proof.
  intros Hf. induction l as [|x r IH]; intros i; simpl.
  - intros s; reflexivity.
  - unfold quiet, bind in *. intros s. specialize (Hf x i s).
    destruct (f x i s) as [s1 [[]|e]]; simpl in *; [rewrite (IH (S i) s1)|]; exact Hf.
Qed.

Lemma quiet_mapM (f : A -> JS B) (l : list A) :
  (forall x, quiet (f x)) -> quiet (mapM f l).
Proof.
  intros Hf. induction l as [|x r IH]; simpl.
  - intros s; reflexivity.
  - unfold quiet, bind in *. intros s. specialize (Hf x s).
    destruct (f x s) as [s1 [y|e]]; simpl in *; [|exact Hf].
    specialize (IH s1). destruct (mapM f r s1) as [s2 [ys|e]]; simpl in *; congruence.
Qed.

Lemma maintains_bind (P : State -> Prop) (m : JS A) (k : A -> JS B) :
  maintains P m -> (forall a, maintains P (k a)) -> maintains P (bind m k).
Proof.
  intros Hm Hk s Hs. unfold bind.
  specialize (Hm s Hs). destruct (m s) as [s1 [a|e]]; simpl in *.
  - apply Hk, Hm.
  - exact Hm.
Qed.

Lemma quiet_maintains (P : State -> Prop) (m : JS A) :
  (forall s s', core s' = core s -> P s -> P s') -> quiet m -> maintains P m.
Proof. intros HP Hm s Hs. exact (HP s _ (Hm s) Hs). Qed.

Lemma hoare_ret (P : State -> Prop) (a : A) (Q : A -> State -> Prop) E :
  (forall s, P s -> Q a s) -> hoare P (ret a) Q E.
Proof. intros H s Hs; simpl; auto. Qed.

Lemma hoare_gets (P : State -> Prop) (f : State -> A) (Q : A -> State -> Prop) E :
  (forall s, P s -> Q (f s) s) -> hoare P (gets f) Q E.
Proof. intros H s Hs; simpl; auto. Qed.

Lemma hoare_bind (P : State -> Prop) (m : JS A) (k : A -> JS B)
    (Q : A -> State -> Prop) (R : B -> State -> Prop) E :
  hoare P m Q E -> (forall a, hoare (Q a) (k a) R E) -> hoare P (bind m k) R E.
Proof.
  intros Hm Hk s Hs. unfold bind.
  specialize (Hm s Hs). destruct (m s) as [s1 [a|e]]; [|exact Hm].
  exact (Hk a s1 Hm).
Qed.

Lemma hoare_weaken (P P' : State -> Prop) (m : JS A)
    (Q Q' : A -> State -> Prop) (E E' : State -> Prop) :
  hoare P' m Q' E' ->
  (forall s, P s -> P' s) -> (forall a s, Q' a s -> Q a s) ->
  (forall s, E' s -> E s) ->
  hoare P m Q E.
Proof.
  intros H HP HQ HE s Hs. specialize (H s (HP s Hs)).
  destruct (m s) as [s1 [a|e]]; auto.
Qed.

End Rules.

Lemma quiet_run_all (ms : list (JS unit)) :
  Forall quiet ms -> quiet (run_all ms).
Proof.
  induction 1 as [|m r Hm _ IH]; simpl; [apply quiet_ret|].
  intros s. specialize (Hm s). destruct (m s) as [s1 c1]; simpl in *.
  specialize (IH s1). destruct (run_all r s1) as [s2 c2]; simpl in *. congruence.
Qed.

Lemma maintains_run_all (P : State -> Prop) (ms : list (JS unit)) :
  Forall (maintains P) ms -> maintains P (run_all ms).
Proof.
  induction 1 as [|m r Hm _ IH]; simpl; [intros s Hs; exact Hs|].
  intros s Hs. specialize (Hm s Hs). destruct (m s) as [s1 c1]; simpl in *.
  specialize (IH s1 Hm). destruct (run_all r s1) as [s2 c2]; simpl in *. exact IH.
Qed.

(** ** Quiet computations *)

Create HintDb quiet.

Ltac quiet_step :=
  first
    [ solve [auto with quiet]
    | apply quiet_ret | apply quiet_throw | apply quiet_gets | apply quiet_prop
    | apply quiet_bind; [ | intros ? ]
    | apply quiet_modify; intros ?; reflexivity
    | apply quiet_mapM; intros ?
    | apply quiet_forEach_from; intros ? ?
    | match goal with
      | |- quiet (match ?x with _ => _ end) => destruct x
      end ].

Ltac quiet_tac := repeat quiet_step.

Lemma quiet_createElement tag : quiet (createElement tag).
Proof. intros s; reflexivity. Qed.

Lemma quiet_deref r : quiet (deref r).
Proof. intros s. unfold deref. destruct r as [n|]; [destruct (document s !! n)|]; reflexivity. Qed.

#[local] Hint Resolve quiet_createElement quiet_deref : quiet.

Lemma quiet_update r f : quiet (update r f).
Proof. unfold update. quiet_tac. Qed.

#[local] Hint Resolve quiet_update : quiet.

Lemma quiet_set_innerHTML serialize r v : quiet (set_innerHTML serialize r v).
Proof. unfold set_innerHTML. quiet_tac. Qed.

Lemma quiet_classList_add r tokens : quiet (classList_add r tokens).
Proof. unfold classList_add. quiet_tac. Qed.

Lemma quiet_classList_toggle r token force : quiet (classList_toggle r token force).
Proof. unfold classList_toggle. quiet_tac. Qed.

Lemma quiet_addEventListener r ty f : quiet (addEventListener r ty f).
Proof. unfold addEventListener. quiet_tac. Qed.

Lemma quiet_appendChild r child : quiet (appendChild r child).
Proof. unfold appendChild. quiet_tac. Qed.

Lemma quiet_hydrate : quiet hydrate.
Proof. unfold hydrate. quiet_tac. Qed.

Lemma quiet_get_data : quiet get_data.
Proof. unfold get_data. quiet_tac. Qed.

#[local] Hint Resolve quiet_set_innerHTML quiet_classList_add quiet_classList_toggle
  quiet_addEventListener quiet_appendChild quiet_hydrate quiet_get_data : quiet.

Lemma quiet_hydrate_callback serialize : quiet (hydrate_callback serialize).
Proof. unfold hydrate_callback. quiet_tac. Qed.

Lemma quiet_onKeyUp serialize textContent_of code :
  quiet (onKeyUp serialize textContent_of code).
Proof. unfold onKeyUp. quiet_tac. Qed.

Lemma quiet_call_trim v : quiet (call_trim v).
Proof. unfold call_trim. quiet_tac. Qed.

#[local] Hint Resolve quiet_hydrate_callback quiet_onKeyUp quiet_call_trim : quiet.

Lemma quiet_validate savedData : quiet (validate savedData).
Proof. unfold validate. quiet_tac. Qed.

Lemma quiet_save toolsContent : quiet (save toolsContent).
Proof. unfold save. quiet_tac. Qed.

Lemma quiet_renderSettings serialize : quiet (renderSettings serialize).
Proof. unfold renderSettings, forEach. quiet_tac. Qed.

Lemma quiet_userEdit html : quiet (userEdit html).
Proof. unfold userEdit. quiet_tac. Qed.

Lemma quiet_animationFrame serialize : quiet (animationFrame serialize).
Proof.
  unfold animationFrame. quiet_tac.
  apply quiet_run_all, Forall_replicate. auto with quiet.
Qed.

#[local] Hint Resolve quiet_validate quiet_save quiet_renderSettings quiet_userEdit
  quiet_animationFrame : quiet.

(** ** Extensions of the world *)

Lemma extends_refl s : extends s s.
Proof.
  split; auto.
  - intros n e H. exists e; auto.
  - intros n e' H Hn. apply lookup_lt_Some in H. lia.
Qed.

Lemma extends_trans s1 s2 s3 : extends s1 s2 -> extends s2 s3 -> extends s1 s3.
Proof.
  intros [c1 e1 f1 l1 o1 n1] [c2 e2 f2 l2 o2 n2]. split.
  - congruence.
  - congruence.
  - intros H. destruct (f2 H) as [H2|H2]; [auto|]. right. congruence.
  - lia.
  - intros n e H. destruct (o1 n e H) as (e' & H' & Hc & Hl).
    destruct (o2 n e' H') as (e'' & H'' & Hc' & Hl').
    exists e''. repeat split; congruence.
  - intros n e'' H Hn.
    destruct (document s2 !! n) as [e'|] eqn:H2.
    + destruct (o2 n e' H2) as (e3 & H3 & _ & Hl). 
      assert (e3 = e'') by congruence. subst e3.
      rewrite Hl. exact (n1 n e' H2 Hn).
    + apply lookup_ge_None in H2. exact (n2 n e'' H H2).
Qed.

Lemma listener_ok_extends s s' m l :
  extends s s' -> listener_ok s m l -> listener_ok s' m l.
Proof.
  intros [c e f len o n]. unfold listener_ok, constants in *.
  destruct l as [ty [|index elements]]; simpl.
  - intros (? & ? & ?). repeat split; congruence.
  - intros (? & ? & ? & Hall & Htok). repeat split; auto.
    + replace (_tunesButtons s') with (_tunesButtons s) by congruence. auto.
    + eapply Forall_impl; [exact Hall|]. simpl. intros; lia.
    + unfold active_token. replace (_CSS s') with (_CSS s) by congruence. exact Htok.
Qed.

Lemma wf_extends : steady wf.
Proof.
  intros s s' Hext [Hv Hf Hl Hcl].
  pose proof Hext as [c e f len o n]. split.
  - intros k Hk. rewrite e in Hk. destruct (Hv k Hk) as (el & H1 & H2 & H3).
    destruct (o k el H1) as (el' & H1' & H2' & H3').
    exists el'. unfold constants in c.
    replace (readOnly s') with (readOnly s) by congruence.
    rewrite H2', H3'. auto.
  - intros H. destruct (f H) as [H'|H']; rewrite e; auto.
  - intros m e' l Hm Hin.
    destruct (document s !! m) as [el|] eqn:Hs.
    + destruct (o m el Hs) as (e2 & H2 & _ & Hls).
      assert (e2 = e') by congruence. subst e2. rewrite Hls in Hin.
      eapply listener_ok_extends; eauto.
    + apply lookup_ge_None in Hs. rewrite (n m e' Hm Hs) in Hin.
      inversion Hin.
  - unfold constants in c.
    replace (_CSS s') with (_CSS s) by congruence.
    replace (_tunesButtons s') with (_tunesButtons s) by congruence. exact Hcl.
Qed.

Lemma steady_and (P Q : State -> Prop) :
  steady P -> steady Q -> steady (fun s => P s /\ Q s).
Proof. intros HP HQ s s' H [? ?]; split; eauto. Qed.

Lemma steady_valid n : steady (fun s => (n < length (document s))%nat).
Proof. intros s s' [] H. lia. Qed.

Lemma steady_Forall_valid (l : list node) :
  steady (fun s => Forall (fun b => (b < length (document s))%nat) l).
Proof.
  intros s s' [] H. eapply Forall_impl; [exact H|]. simpl; intros; lia.
Qed.

Lemma steady_rendered : steady (fun s => is_Some (_element s)).
Proof. intros s s' [] H. congruence. Qed.

Lemma steady_pure (C : Prop) : steady (fun _ => C).
Proof. intros s s' _ H; exact H. Qed.

(** ** Gentle computations *)

Section GentleRules.

Context {A B : Type}.

Lemma gentle_ret (a : A) : gentle (ret a).
Proof. intros s; apply extends_refl. Qed.

Lemma gentle_throw (e : exn) : gentle (@throw A e).
Proof. intros s; apply extends_refl. Qed.

Lemma gentle_gets (f : State -> A) : gentle (gets f).
Proof. intros s; apply extends_refl. Qed.

Lemma gentle_prop {O} (f : O -> A) (o : option O) : gentle (prop f o).
Proof. destruct o; intros s; apply extends_refl. Qed.

Lemma gentle_bind (m : JS A) (k : A -> JS B) :
  gentle m -> (forall a, gentle (k a)) -> gentle (bind m k).
Proof.
  intros Hm Hk s. unfold bind.
  specialize (Hm s). destruct (m s) as [s1 [a|e]]; simpl in *.
  - eapply extends_trans; [exact Hm|apply (Hk a s1)].
  - exact Hm.
Qed.

End GentleRules.

Lemma gentle_forEach_from {A} (f : A -> nat -> JS unit) (l : list A) :
  (forall x i, gentle (f x i)) -> forall i, gentle (forEach_from i f l).
Proof.
  intros Hf. induction l as [|x r IH]; intros i; simpl.
  - apply gentle_ret.
  - apply gentle_bind; auto.
Qed.

Lemma gentle_run_all (ms : list (JS unit)) :
  Forall gentle ms -> gentle (run_all ms).
Proof.
  induction 1 as [|m r Hm _ IH]; simpl; [apply gentle_ret|].
  intros s. specialize (Hm s). destruct (m s) as [s1 c1]; simpl in *.
  specialize (IH s1). destruct (run_all r s1) as [s2 c2]; simpl in *.
  eapply extends_trans; eauto.
Qed.

Create HintDb gentle.

Ltac gentle_step :=
  first
    [ solve [auto with gentle]
    | apply gentle_ret | apply gentle_throw | apply gentle_gets | apply gentle_prop
    | apply gentle_bind; [ | intros ? ]
    | apply gentle_forEach_from; intros ? ?
    | match goal with
      | |- gentle (match ?x with _ => _ end) => destruct x
      end ].

Ltac gentle_tac := repeat gentle_step.

Lemma gentle_modify_data (f : State -> ParagraphData) :
  gentle (modify (fun s => with_data (f s) s)).
Proof.
  intros s. split; simpl; auto.
  - intros n e H; exists e; auto.
  - intros n e H Hn. apply lookup_lt_Some in H. lia.
Qed.

Lemma gentle_modify_frames0 : gentle (modify (with_animationFrames 0)).
Proof.
  intros s. split; simpl; auto.
  - intros n e H; exists e; auto.
  - intros n e H Hn. apply lookup_lt_Some in H. lia.
Qed.

Lemma gentle_createElement tag : gentle (createElement tag).
Proof.
  intros s. split; simpl; auto.
  - rewrite length_app. lia.
  - intros n e H. exists e. split; auto. apply lookup_app_l_Some; auto.
  - intros n e H Hn. rewrite lookup_app_r in H by lia.
    destruct (n - length (document s))%nat; simpl in H; [|discriminate].
    inversion H; reflexivity.
Qed.

Lemma gentle_deref r : gentle (deref r).
Proof.
  intros s. unfold deref.
  destruct r as [n|]; [destruct (document s !! n)|]; apply extends_refl.
Qed.

#[local] Hint Resolve gentle_modify_data gentle_modify_frames0 gentle_createElement
  gentle_deref : gentle.

Lemma gentle_update r f : cosmetic f -> gentle (update r f).
Proof.
  intros Hf. unfold update. apply gentle_bind; [apply gentle_deref|intros _].
  intros s. split; simpl; auto.
  - rewrite length_alter. lia.
  - intros n e H. rewrite list_lookup_alter.
    destruct (decide (default 0%nat r = n)) as [->|Hne].
    + rewrite H. simpl. exists (f e). destruct (Hf e). auto.
    + rewrite H. exists e; auto.
  - intros n e H Hn. apply lookup_lt_Some in H. rewrite length_alter in H. lia.
Qed.

#[local] Hint Resolve gentle_update : gentle.

Lemma cosmetic_innerHTML h : cosmetic (with_innerHTML h).
Proof. intros e; split; reflexivity. Qed.

Lemma cosmetic_classList f : cosmetic (fun e => with_classList (f e) e).
Proof. intros e; split; reflexivity. Qed.

Lemma cosmetic_children f : cosmetic (fun e => with_children (f e) e).
Proof. intros e; split; reflexivity. Qed.

Lemma cosmetic_placeholder p : cosmetic (with_placeholder p).
Proof. intros e; split; reflexivity. Qed.

#[local] Hint Resolve cosmetic_innerHTML cosmetic_classList cosmetic_children
  cosmetic_placeholder : gentle.

Lemma gentle_set_innerHTML serialize r v : gentle (set_innerHTML serialize r v).
Proof. apply gentle_update, cosmetic_innerHTML. Qed.

Lemma gentle_classList_add r tokens : gentle (classList_add r tokens).
Proof.
  unfold classList_add. apply gentle_bind; [apply gentle_deref|intros _].
  destruct (tokens_error tokens); [apply gentle_throw|].
  apply gentle_update, cosmetic_classList.
Qed.

Lemma gentle_classList_toggle r token force : gentle (classList_toggle r token force).
Proof.
  unfold classList_toggle. apply gentle_bind; [apply gentle_deref|intros _].
  destruct (token_error token); [apply gentle_throw|].
  apply gentle_update, cosmetic_classList.
Qed.

Lemma gentle_appendChild r child : gentle (appendChild r child).
Proof. apply gentle_update, cosmetic_children. Qed.

Lemma gentle_read_innerHTML r : gentle (read_innerHTML r).
Proof. unfold read_innerHTML. gentle_tac. Qed.

#[local] Hint Resolve gentle_read_innerHTML : gentle.

Lemma gentle_get_data : gentle get_data.
Proof. unfold get_data. gentle_tac. Qed.

Lemma gentle_set_data data : gentle (set_data data).
Proof.
  intros s. unfold set_data, bind, modify, gets, hydrate, ret.
  destruct (_element s) as [n|] eqn:He; simpl; rewrite He; simpl.
  - split; simpl; auto.
    + intros n0 e H; exists e; auto.
    + intros n0 e H Hn. apply lookup_lt_Some in H. lia.
  - split; simpl; auto.
    + intros n0 e H; exists e; auto.
    + intros n0 e H Hn. apply lookup_lt_Some in H. lia.
Qed.

#[local] Hint Resolve gentle_set_innerHTML gentle_classList_add gentle_classList_toggle
  gentle_appendChild gentle_get_data gentle_set_data : gentle.

Lemma gentle_assign_alignment v : gentle (assign_alignment v).
Proof. unfold assign_alignment. gentle_tac. Qed.

#[local] Hint Resolve gentle_assign_alignment : gentle.

Lemma gentle_toggleTune tune : gentle (_toggleTune tune).
Proof. unfold _toggleTune. gentle_tac. Qed.

Lemma gentle_merge data : gentle (merge data).
Proof. unfold merge. gentle_tac. Qed.

Lemma gentle_validate savedData : gentle (validate savedData).
Proof. unfold validate, call_trim. gentle_tac. Qed.

Lemma gentle_save toolsContent : gentle (save toolsContent).
Proof. unfold save. gentle_tac. Qed.

Lemma gentle_onPaste event : gentle (onPaste event).
Proof. unfold onPaste. gentle_tac. Qed.

Lemma gentle_onKeyUp serialize textContent_of code :
  gentle (onKeyUp serialize textContent_of code).
Proof. unfold onKeyUp. gentle_tac. Qed.

Lemma gentle_hydrate_callback serialize : gentle (hydrate_callback serialize).
Proof. unfold hydrate_callback. gentle_tac. Qed.

#[local] Hint Resolve gentle_toggleTune gentle_merge gentle_validate gentle_save
  gentle_onPaste gentle_onKeyUp gentle_hydrate_callback : gentle.

Lemma gentle_tune_click index elements : gentle (tune_click index elements).
Proof. unfold tune_click, forEach. gentle_tac. Qed.

#[local] Hint Resolve gentle_tune_click : gentle.

Lemma gentle_call serialize textContent_of f code :
  gentle (call serialize textContent_of f code).
Proof. unfold call. gentle_tac. Qed.

Lemma gentle_dispatchEvent serialize textContent_of target ty code :
  gentle (dispatchEvent serialize textContent_of target ty code).
Proof.
  unfold dispatchEvent. gentle_tac.
  apply gentle_run_all, Forall_fmap, Forall_forall. intros l _. apply gentle_call.
Qed.

Lemma gentle_animationFrame serialize : gentle (animationFrame serialize).
Proof.
  unfold animationFrame. gentle_tac.
  apply gentle_run_all, Forall_replicate. auto with gentle.
Qed.

Lemma gentle_userEdit html : gentle (userEdit html).
Proof. unfold userEdit. gentle_tac. Qed.

#[local] Hint Resolve gentle_call gentle_dispatchEvent gentle_animationFrame
  gentle_userEdit : gentle.

(** ** The view: [drawView] and [render] in closed form *)

Lemma bind_normal {A B} (m : JS A) (k : A -> JS B) s s' a :
  m s = (s', Normal a) -> bind m k s = k a s'.
Proof. intros H. unfold bind. rewrite H. reflexivity. Qed.

Lemma update_last s d e f :
  document s = d ++ [e] ->
  update (Some (length d)) f s = (with_document (d ++ [f e]) s, Normal tt).
Proof.
  intros H. unfold update, bind, deref, modify. rewrite H.
  rewrite lookup_app_r, Nat.sub_diag by lia. simpl.
  rewrite H, alter_app_r_alt, Nat.sub_diag by lia. reflexivity.
Qed.

Lemma update_valid s n f :
  (n < length (document s))%nat ->
  update (Some n) f s = (with_document (alter f n (document s)) s, Normal tt).
Proof.
  intros H. unfold update, bind, deref, modify.
  destruct (lookup_lt_is_Some_2 _ _ H) as [e He]. rewrite He. reflexivity.
Qed.

Lemma deref_valid s n :
  (n < length (document s))%nat -> exists e, deref (Some n) s = (s, Normal e).
Proof.
  intros H. unfold deref. destruct (lookup_lt_is_Some_2 _ _ H) as [e ->]. eauto.
Qed.

(** A token list takes valid tokens and throws on the others, leaving the
    element as it is. *)
Lemma classList_add_valid s n tokens :
  (n < length (document s))%nat -> tokens_error tokens = None ->
  classList_add (Some n) tokens s =
    (with_document
       (alter (fun e => with_classList
                 (foldl (fun l t => add_token t l) (classList e) tokens) e)
              n (document s)) s,
     Normal tt).
Proof.
  intros Hn Ht. unfold classList_add. destruct (deref_valid s n Hn) as [e He].
  rewrite (bind_normal _ _ _ _ _ He), Ht. apply update_valid, Hn.
Qed.

Lemma classList_add_invalid s n tokens err :
  (n < length (document s))%nat -> tokens_error tokens = Some err ->
  classList_add (Some n) tokens s = (s, Throw err).
Proof.
  intros Hn Ht. unfold classList_add. destruct (deref_valid s n Hn) as [e He].
  rewrite (bind_normal _ _ _ _ _ He), Ht. reflexivity.
Qed.

Lemma classList_toggle_valid s n token force :
  (n < length (document s))%nat -> token_error token = None ->
  classList_toggle (Some n) token force s =
    (with_document
       (alter (fun e => with_classList (toggle_token token force (classList e)) e)
              n (document s)) s,
     Normal tt).
Proof.
  intros Hn Ht. unfold classList_toggle. destruct (deref_valid s n Hn) as [e He].
  rewrite (bind_normal _ _ _ _ _ He), Ht. apply update_valid, Hn.
Qed.

Lemma classList_toggle_invalid s n token force err :
  (n < length (document s))%nat -> token_error token = Some err ->
  classList_toggle (Some n) token force s = (s, Throw err).
Proof.
  intros Hn Ht. unfold classList_toggle. destruct (deref_valid s n Hn) as [e He].
  rewrite (bind_normal _ _ _ _ _ He), Ht. reflexivity.
Qed.

Lemma classList_add_last s d e tokens :
  document s = d ++ [e] -> tokens_error tokens = None ->
  classList_add (Some (length d)) tokens s =
    (with_document
       (d ++ [with_classList (foldl (fun l t => add_token t l) (classList e) tokens) e]) s,
     Normal tt).
Proof.
  intros H Ht. rewrite classList_add_valid; [|rewrite H, length_app; simpl; lia|exact Ht].
  rewrite H, alter_app_r_alt, Nat.sub_diag by lia. reflexivity.
Qed.

Ltac run_bind :=
  erewrite bind_normal by first [reflexivity | apply update_last; reflexivity].

(** The element [drawView] builds in state [s], when its classes are
    tokens. *)
Lemma drawView_eq s :
  tokens_error (view_tokens s) = None ->
  exists div,
    drawView s = (with_document (document s ++ [div]) s, Normal (length (document s))) /\
    contentEditable div = Some (negb (readOnly s)) /\
    listeners div = (if readOnly s then [] else [(keyup, OnKeyUp)]) /\
    children div = [].
Proof.
  intros Htok. unfold drawView, addEventListener.
  do 3 run_bind.
  erewrite bind_normal by (apply classList_add_last; [reflexivity|exact Htok]).
  do 5 run_bind.
  cbn [readOnly with_document].
  destruct (readOnly s) eqn:Hro; cbn [negb].
  - run_bind. eexists. split; [reflexivity|]. auto.
  - erewrite bind_normal; [|run_bind; apply update_last; reflexivity].
    eexists. split; [reflexivity|]. auto.
Qed.

(** When one is not, [drawView] throws with the new element left behind. *)
Lemma drawView_throws s err :
  tokens_error (view_tokens s) = Some err ->
  drawView s =
    (with_document (document s ++ [new_element (lit "DIV")]) s, Throw err).
Proof.
  intros Htok. unfold drawView.
  do 3 run_bind. unfold bind.
  rewrite classList_add_invalid with (err := err); [reflexivity| |exact Htok].
  simpl. rewrite length_app. simpl. lia.
Qed.

Lemma render_first s :
  _element s = None ->
  tokens_error (view_tokens s) = None ->
  exists div,
    render s =
      (with_animationFrames (S (animationFrames s))
         (with_element (Some (length (document s)))
            (with_document (document s ++ [div]) s)),
       Normal (Some (length (document s)))) /\
    contentEditable div = Some (negb (readOnly s)) /\
    listeners div = (if readOnly s then [] else [(keyup, OnKeyUp)]) /\
    children div = [].
Proof.
  intros He Htok. destruct (drawView_eq s Htok) as (div & Hd & H).
  exists div. split; [|exact H].
  unfold render. run_bind. rewrite He.
  erewrite bind_normal; [|erewrite bind_normal by exact Hd; reflexivity].
  reflexivity.
Qed.

Lemma render_throws s err :
  _element s = None ->
  tokens_error (view_tokens s) = Some err ->
  render s =
    (with_document (document s ++ [new_element (lit "DIV")]) s, Throw err).
Proof.
  intros He Htok. unfold render. run_bind. rewrite He.
  unfold bind. rewrite (drawView_throws s err Htok). reflexivity.
Qed.

(** The three ways of a [render]. *)
Lemma render_cases s :
  (exists n, _element s = Some n) \/
  (_element s = None /\ tokens_error (view_tokens s) = None) \/
  (_element s = None /\ exists err, tokens_error (view_tokens s) = Some err).
Proof.
  destruct (_element s); [eauto|].
  destruct (tokens_error (view_tokens s)); eauto.
Qed.

Lemma gentle_render_throws s err :
  tokens_error (view_tokens s) = Some err ->
  extends s (with_document (document s ++ [new_element (lit "DIV")]) s).
Proof. intros _. exact (gentle_createElement (lit "DIV") s). Qed.

Lemma render_again s n :
  _element s = Some n ->
  render s = (with_animationFrames (S (animationFrames s)) s, Normal (Some n)).
Proof.
  intros He. unfold render, bind, gets, ret, hydrate, modify.
  rewrite He. simpl. rewrite He. reflexivity.
Qed.

(** ** Hoare rules for the document primitives *)

Lemma hoare_createElement (P : State -> Prop) tag E :
  steady P ->
  hoare P (createElement tag) (fun b s => P s /\ (b < length (document s))%nat) E.
Proof.
  intros HP s Hs. simpl. split.
  - exact (HP _ _ (gentle_createElement tag s) Hs).
  - rewrite length_app. simpl. lia.
Qed.

Lemma hoare_update (P : State -> Prop) n f E :
  steady P -> cosmetic f ->
  (forall s, P s -> (n < length (document s))%nat) ->
  hoare P (update (Some n) f) (fun _ => P) E.
Proof.
  intros HP Hf Hn s Hs.
  pose proof (gentle_update (Some n) f Hf s) as Hext.
  rewrite (update_valid s n f (Hn s Hs)) in *. exact (HP _ _ Hext Hs).
Qed.

Lemma get_data_wf s :
  wf s ->
  exists s', get_data s = (s', Normal (_data s')) /\
             alignment (_data s') = alignment (_data s) /\
             text (_data s') = current_text s /\
             core s' = core s /\
             document s' = document s /\
             animationFrames s' = animationFrames s.
Proof.
  intros [Hv _ _ _].
  unfold get_data, current_text, read_innerHTML, bind, gets, deref, modify, ret.
  destruct (_element s) as [n|] eqn:He.
  - destruct (Hv n eq_refl) as (e & Hl & _). rewrite Hl. simpl.
    exists (with_data (mkData (VStr (innerHTML (document s) e)) (alignment (_data s))) s).
    split; [reflexivity|]. simpl. auto.
  - simpl. exists s. repeat split; reflexivity.
Qed.

Lemma hoare_get_data (P : State -> Prop) E :
  steady P -> (forall s, P s -> wf s) ->
  hoare P get_data (fun _ => P) E.
Proof.
  intros HP Hwf s Hs.
  pose proof (gentle_get_data s) as Hext.
  destruct (get_data_wf s (Hwf s Hs)) as (s' & Hg & _). rewrite Hg in *.
  exact (HP _ _ Hext Hs).
Qed.

Lemma hoare_mapM {A B} (I : list B -> State -> Prop) (f : A -> JS B) E (l : list A) :
  (forall acc x, hoare (I acc) (f x) (fun y => I (acc ++ [y])) E) ->
  forall acc,
    hoare (I acc) (mapM f l)
          (fun ys s => I (acc ++ ys) s /\ length ys = length l) E.
Proof.
  intros Hf. induction l as [|x r IH]; intros acc; simpl.
  - apply hoare_ret. intros s Hs. rewrite app_nil_r. auto.
  - eapply hoare_bind; [apply Hf|]. intros y.
    eapply hoare_bind; [apply IH|]. intros ys.
    apply hoare_ret. intros s [Hs Hlen]. rewrite <- app_assoc in Hs. simpl; auto.
Qed.

Lemma hoare_forEach_from {A} (I : State -> Prop) (f : A -> nat -> JS unit) E
    (whole : list A) :
  (forall x i, whole !! i = Some x -> hoare I (f x i) (fun _ => I) E) ->
  forall l i, drop i whole = l ->
    hoare I (forEach_from i f l) (fun _ => I) E.
Proof.
  intros Hf. induction l as [|x r IH]; intros i Hd; simpl.
  - apply hoare_ret; auto.
  - eapply hoare_bind.
    + apply Hf. rewrite <- (Nat.add_0_r i), <- lookup_drop, Hd. reflexivity.
    + intros ?. apply IH. rewrite <- Nat.add_1_r, <- drop_drop, Hd. reflexivity.
Qed.

Lemma hoare_forEach {A} (I : State -> Prop) (f : A -> nat -> JS unit) E (l : list A) :
  (forall x i, l !! i = Some x -> hoare I (f x i) (fun _ => I) E) ->
  hoare I (forEach f l) (fun _ => I) E.
Proof. intros Hf. apply (hoare_forEach_from I f E l Hf). reflexivity. Qed.

Lemma hoare_run_all (I : State -> Prop) (C : Prop) (ms : list (JS unit)) :
  Forall (fun m => hoare I m (fun _ => I) (fun s => I s /\ C)) ms ->
  hoare I (run_all ms) (fun _ => I) (fun s => I s /\ C).
Proof.
  induction 1 as [|m r Hm _ IH]; simpl.
  - apply hoare_ret; auto.
  - intros s Hs. specialize (Hm s Hs). destruct (m s) as [s1 [[]|e]].
    + specialize (IH s1 Hm). destruct (run_all r s1) as [s2 [[]|e2]]; auto.
    + destruct Hm as [Hm HC]. specialize (IH s1 Hm).
      destruct (run_all r s1) as [s2 [[]|e2]]; tauto.
Qed.

(** ** Well-formedness is kept *)

Lemma wf_render s : wf s -> wf (render s).1.
Proof.
  intros Hwf. destruct (render_cases s) as [[n He]|[[He Htok]|[He [err Htok]]]].
  - rewrite (render_again s n He). simpl.
    destruct Hwf as [Hv Hf Hl Hcl]. split; simpl; auto.
  - destruct (render_first s He Htok) as (div & -> & Hce & Hls & _). simpl.
    destruct Hwf as [Hv Hf Hl Hcl]. split; simpl.
    + intros n [= <-]. exists div. rewrite lookup_app_r, Nat.sub_diag by lia.
      repeat split; auto. intros Hro. rewrite Hls, Hro. apply list_elem_of_here.
    + eauto.
    + intros m e l Hm Hin.
      destruct (decide (m < length (document s))%nat) as [Hlt|Hge].
      * rewrite lookup_app_l in Hm by exact Hlt.
        specialize (Hl m e l Hm Hin). unfold listener_ok in *.
        destruct l as [ty [|index elements]]; simpl in *.
        -- destruct Hl as (_ & Hl & _). congruence.
        -- destruct Hl as (? & ? & ? & Hall & ?). repeat split; auto.
           eapply Forall_impl; [exact Hall|]. simpl. intros.
           rewrite length_app. lia.
      * rewrite lookup_app_r in Hm by lia.
        destruct (m - length (document s))%nat eqn:Hk; simpl in Hm; [|discriminate].
        injection Hm as <-. assert (m = length (document s)) by lia. subst m.
        rewrite Hls in Hin. destruct (readOnly s) eqn:Hro; [inversion Hin|].
        apply list_elem_of_singleton in Hin. subst l.
        unfold listener_ok; simpl. auto.
    + exact Hcl.
  - rewrite (render_throws s err He Htok). simpl.
    exact (wf_extends _ _ (gentle_render_throws s err Htok) Hwf).
Qed.

Lemma wf_addEventListener s n ty f :
  wf s -> (n < length (document s))%nat -> listener_ok s n (ty, f) ->
  exists s', addEventListener (Some n) ty f s = (s', Normal tt) /\
             wf s' /\ core s' = core s /\
             length (document s') = length (document s).
Proof.
  intros Hwf Hlt Hok.
  unfold addEventListener. rewrite (update_valid s n _ Hlt).
  set (g := fun e => with_listeners (add_listener ty f (listeners e)) e).
  eexists; split; [reflexivity|].
  assert (Hin : forall l ls, l ∈ add_listener ty f ls -> l ∈ ls \/ l = (ty, f)).
  { intros l ls. unfold add_listener. case_bool_decide; auto.
    rewrite elem_of_app, list_elem_of_singleton. auto. }
  assert (Hsub : forall l ls, l ∈ ls -> l ∈ add_listener ty f ls).
  { intros l ls. unfold add_listener. case_bool_decide; auto.
    rewrite elem_of_app. auto. }
  assert (Hok' : forall m l, listener_ok s m l ->
            listener_ok (with_document (alter g n (document s)) s) m l).
  { intros m [ty' [|index elements]]; unfold listener_ok; simpl; auto.
    rewrite length_alter. auto. }
  split; [|split; [reflexivity|simpl; apply length_alter]].
  destruct Hwf as [Hv Hf Hl]. split; simpl; auto.
  - intros k Hk. destruct (Hv k Hk) as (e & H1 & H2 & H3).
    rewrite list_lookup_alter.
    destruct (decide (n = k)) as [->|Hne]; rewrite H1; simpl; eauto.
    exists (g e). split; [reflexivity|]. split; [exact H2|].
    intros Hro. simpl. auto.
  - intros m e l Hm Hl'. rewrite list_lookup_alter in Hm.
    destruct (decide (n = m)) as [->|Hne].
    + destruct (document s !! m) as [e0|] eqn:H0; simpl in Hm; [|discriminate].
      injection Hm as <-. simpl in Hl'. destruct (Hin _ _ Hl') as [H| ->].
      * apply Hok'. eauto.
      * apply Hok'. exact Hok.
    + apply Hok'. eauto.
Qed.

Lemma steady_tunes tunes : steady (fun s => tunes = _tunesButtons s).
Proof. intros s s' [c _ _ _ _ _] H. unfold constants in c. congruence. Qed.

Lemma steady_tunes_length k :
  steady (fun s => (k <= length (_tunesButtons s))%nat).
Proof.
  intros s s' [c _ _ _ _ _] H. unfold constants in c.
  replace (_tunesButtons s') with (_tunesButtons s) by congruence. exact H.
Qed.

Create HintDb steady.

#[local] Hint Resolve wf_extends steady_and steady_valid steady_Forall_valid
  steady_rendered steady_tunes steady_tunes_length : steady.

Ltac hoare_next P :=
  match goal with
  | |- hoare _ (bind ?m ?k) _ _ =>
      apply (hoare_bind P m k (fun _ => P)); [ | intros ? ]
  end.

Ltac hoare_seq P :=
  repeat
    match goal with
    | |- hoare _ (bind ?m ?k) _ _ =>
        apply (hoare_bind P m k (fun _ => P)); [ | intros ? ]
    end.

Lemma hoare_pure {A} (C : Prop) (P : State -> Prop) (m : JS A) Q E :
  (C -> hoare P m Q E) -> hoare (fun s => P s /\ C) m Q E.
Proof. intros H s [Hs HC]. exact (H HC s Hs). Qed.

Lemma steady_active a : steady (fun s => a = active_token s).
Proof.
  intros s s' [c _ _ _ _ _] H. unfold constants in c. unfold active_token.
  replace (_CSS s') with (_CSS s) by congruence. exact H.
Qed.

#[local] Hint Resolve steady_active : steady.

(** A token list in a loop: valid tokens keep the invariant; an invalid one
    throws and leaves the state. *)
Lemma hoare_classList_add (P : State -> Prop) n tokens E :
  steady P ->
  (forall s, P s -> (n < length (document s))%nat) ->
  (tokens_error tokens = None \/ forall s, P s -> E s) ->
  hoare P (classList_add (Some n) tokens) (fun _ => P) E.
Proof.
  intros HP Hn Hok s Hs.
  pose proof (gentle_classList_add (Some n) tokens s) as Hext.
  destruct (tokens_error tokens) as [err|] eqn:Ht.
  - rewrite (classList_add_invalid s n tokens err (Hn s Hs) Ht).
    destruct Hok as [Hok|Hok]; [discriminate|exact (Hok s Hs)].
  - rewrite (classList_add_valid s n tokens (Hn s Hs) Ht) in *.
    exact (HP _ _ Hext Hs).
Qed.

Lemma hoare_classList_toggle (P : State -> Prop) n token force E :
  steady P ->
  (forall s, P s -> (n < length (document s))%nat) ->
  (token_error token = None \/ forall s, P s -> E s) ->
  hoare P (classList_toggle (Some n) token force)
        (fun _ s => P s /\ token_error token = None) E.
Proof.
  intros HP Hn Hok s Hs.
  pose proof (gentle_classList_toggle (Some n) token force s) as Hext.
  destruct (token_error token) as [err|] eqn:Ht.
  - rewrite (classList_toggle_invalid s n token force err (Hn s Hs) Ht).
    destruct Hok as [Hok|Hok]; [discriminate|exact (Hok s Hs)].
  - rewrite (classList_toggle_valid s n token force (Hn s Hs) Ht) in *.
    split; [exact (HP _ _ Hext Hs)|reflexivity].
Qed.

Lemma hoare_classList_toggle_ref (P : State -> Prop) r token force E :
  steady P ->
  (forall s, P s -> exists n, r = Some n /\ (n < length (document s))%nat) ->
  (token_error token = None \/ forall s, P s -> E s) ->
  hoare P (classList_toggle r token force) (fun _ => P) E.
Proof.
  intros HP Hr Hok s Hs. destruct (Hr s Hs) as (n & -> & Hn).
  pose proof (hoare_classList_toggle P n token force E HP) as H.
  specialize (H (fun s' Hs' => ltac:(destruct (Hr s' Hs') as (n' & [= <-] & Hn'); exact Hn'))
                Hok s Hs).
  destruct (classList_toggle (Some n) token force s) as [s' [[]|err]]; tauto.
Qed.

(** The buttons of [renderSettings]: each one is in the document, and once
    there is one the class of the active button has proved to be a token. *)
Lemma renderSettings_button serialize wrapper tunes active acc tune E :
  token_error active = None \/ (forall s, wf s -> E s) ->
  let I := fun acc s =>
    wf s /\ (wrapper < length (document s))%nat /\ tunes = _tunesButtons s /\
    active = active_token s /\
    Forall (fun b => (b < length (document s))%nat) acc /\
    (acc <> [] -> token_error active = None) in
  hoare (I acc) (settings_button serialize wrapper tune) (fun y => I (acc ++ [y])) E.
Proof.
  intros Hok I. unfold settings_button.
  assert (HI : steady (I acc)).
  { unfold I. repeat apply steady_and; auto with steady. apply steady_pure. }
  eapply hoare_bind; [apply hoare_createElement; exact HI|].
  intros button.
  set (P := fun s => I acc s /\ (button < length (document s))%nat).
  assert (HP : steady P) by (unfold P; auto with steady).
  assert (HE : token_error active = None \/ forall s, P s -> E s).
  { destruct Hok as [Hok|Hok]; [left; exact Hok|right].
    intros s Hs. apply Hok. unfold P, I in Hs. tauto. }
  hoare_next P.
  { apply hoare_classList_add; [exact HP|unfold P; tauto|left; reflexivity]. }
  hoare_next P.
  { apply hoare_update; [exact HP|auto with gentle|unfold P; tauto]. }
  eapply hoare_bind with
    (Q := fun css s => P s /\ ToString (css_settingsButtonActive css) = active).
  { apply hoare_gets. intros s Hs. split; [exact Hs|].
    unfold P, I in Hs. destruct Hs as ((_ & _ & _ & -> & _) & _). reflexivity. }
  intros css. apply hoare_pure. intros ->.
  hoare_next P.
  { apply hoare_get_data; [exact HP|unfold P, I; tauto]. }
  hoare_next P.
  { apply hoare_gets; auto. }
  eapply hoare_bind with (Q := fun _ s => P s /\ token_error active = None).
  { apply hoare_classList_toggle; [exact HP|unfold P; tauto|exact HE]. }
  intros _. apply hoare_pure. intros Htok.
  hoare_next P.
  { apply hoare_update; [exact HP|auto with gentle|unfold P, I; tauto]. }
  apply hoare_ret. unfold P, I. intros s ((Hwf & Hw & Ht & Ha & Hall & _) & Hb).
  split; [exact Hwf|]. split; [exact Hw|]. split; [exact Ht|]. split; [exact Ha|].
  split; [|intros _; exact Htok].
  apply Forall_app. split; [exact Hall|]. constructor; [exact Hb|constructor].
Qed.

(** [renderSettings] keeps the world well-formed, whether it returns or
    throws; it returns when the class of the active button is a token. *)
Lemma renderSettings_hoare serialize active E :
  token_error active = None \/ (forall s, wf s -> E s) ->
  hoare (fun s => wf s /\ active = active_token s)
        (renderSettings serialize) (fun _ => wf) E.
Proof.
  intros Hok. unfold renderSettings.
  eapply hoare_bind.
  { apply (hoare_createElement (fun s => wf s /\ active = active_token s)).
    auto with steady. }
  intros wrapper.
  eapply hoare_bind with
    (Q := fun tunes s => wf s /\ (wrapper < length (document s))%nat /\
                         tunes = _tunesButtons s /\ active = active_token s).
  { apply hoare_gets. tauto. }
  intros tunes.
  eapply hoare_bind.
  { eapply hoare_weaken.
    - apply (hoare_mapM (fun acc s =>
        wf s /\ (wrapper < length (document s))%nat /\ tunes = _tunesButtons s /\
        active = active_token s /\
        Forall (fun b => (b < length (document s))%nat) acc /\
        (acc <> [] -> token_error active = None))) with (acc := []).
      intros acc tune.
      apply (renderSettings_button serialize wrapper tunes active acc tune E Hok).
    - simpl. intros s (? & ? & ? & ?).
      split; [assumption|]. split; [assumption|]. split; [assumption|].
      split; [assumption|]. split; [constructor|]. intros Hne. congruence.
    - intros ys s H. exact H.
    - auto. }
  intros elements. simpl.
  set (J := fun s => wf s /\
                     Forall (fun b => (b < length (document s))%nat) elements /\
                     (length elements <= length (_tunesButtons s))%nat /\
                     (elements <> [] -> token_error (active_token s) = None)).
  eapply hoare_bind with (Q := fun _ => J).
  - eapply hoare_weaken with (P' := J) (Q' := fun _ => J) (E' := E); auto.
    + apply hoare_forEach. intros x i Hx s (Hwf & Hall & Hlen & Htok).
      assert (Hv : (x < length (document s))%nat).
      { rewrite Forall_forall in Hall. apply Hall.
        apply list_elem_of_lookup. eauto. }
      assert (Hne : elements <> []) by (intros ->; inversion Hx).
      assert (Hok' : listener_ok s x (click, TuneClick i elements)).
      { unfold listener_ok; simpl. repeat split; auto.
        apply lookup_lt_Some in Hx. exact Hx. }
      destruct (wf_addEventListener s x click _ Hwf Hv Hok')
        as (s' & -> & Hwf' & Hc & Hl).
      unfold J. rewrite Hl. split; [exact Hwf'|]. split; [exact Hall|].
      unfold core, constants in Hc. unfold active_token.
      replace (_tunesButtons s') with (_tunesButtons s) by congruence.
      replace (_CSS s') with (_CSS s) by congruence. auto.
    + unfold J. intros s ((Hwf & _ & -> & -> & Hall & Htok) & Hlen).
      rewrite Hlen. auto.
  - intros _. apply hoare_ret. unfold J. tauto.
Qed.

Lemma hoare_modify_data (P : State -> Prop) (f : State -> ParagraphData) E :
  steady P -> hoare P (modify (fun s => with_data (f s) s)) (fun _ => P) E.
Proof. intros HP s Hs. exact (HP _ _ (gentle_modify_data f s) Hs). Qed.

Lemma hoare_deref (P : State -> Prop) r E :
  (forall s, P s -> exists n, r = Some n /\ (n < length (document s))%nat) ->
  hoare P (deref r) (fun _ => P) E.
Proof.
  intros Hr s Hs. destruct (Hr s Hs) as (n & -> & Hn).
  unfold deref. destruct (lookup_lt_is_Some_2 _ _ Hn) as [e ->]. exact Hs.
Qed.

Lemma hoare_read_innerHTML (P : State -> Prop) r E :
  (forall s, P s -> exists n, r = Some n /\ (n < length (document s))%nat) ->
  hoare P (read_innerHTML r) (fun _ => P) E.
Proof.
  intros Hr s Hs. destruct (Hr s Hs) as (n & -> & Hn).
  unfold read_innerHTML, bind, deref, gets.
  destruct (lookup_lt_is_Some_2 _ _ Hn) as [e ->]. exact Hs.
Qed.

Lemma hoare_update_ref (P : State -> Prop) r f E :
  steady P -> cosmetic f ->
  (forall s, P s -> exists n, r = Some n /\ (n < length (document s))%nat) ->
  hoare P (update r f) (fun _ => P) E.
Proof.
  intros HP Hf Hr s Hs. destruct (Hr s Hs) as (n & -> & Hn).
  apply (hoare_update P n f E HP Hf); auto.
  intros s' Hs'. destruct (Hr s' Hs') as (n' & [= <-] & Hn'). exact Hn'.
Qed.

Lemma hoare_prop {O A} (P : State -> Prop) (f : O -> A) (o : option O) E :
  is_Some o -> hoare P (prop f o) (fun _ => P) E.
Proof. intros [x ->] s Hs. exact Hs. Qed.

Lemma steady_view view : steady (fun s => view = _element s).
Proof. intros s s' [_ e _ _ _ _] H. congruence. Qed.

#[local] Hint Resolve steady_view steady_pure : steady.

Lemma wf_view_valid s :
  wf s -> is_Some (_element s) ->
  exists n, _element s = Some n /\ (n < length (document s))%nat.
Proof.
  intros [Hv _ _] [n Hn]. exists n. split; [exact Hn|].
  destruct (Hv n Hn) as (e & He & _). exact (lookup_lt_Some _ _ _ He).
Qed.

Lemma toggleTune_hoare (P : State -> Prop) tune E :
  steady P -> (forall s, P s -> wf s) ->
  hoare P (_toggleTune tune) (fun _ => P) E.
Proof.
  intros HP Hwf. unfold _toggleTune.
  eapply hoare_bind with (Q := fun _ => P); [apply hoare_get_data; auto|].
  intros d. destruct (strict_eq (alignment d) tune); unfold assign_alignment.
  - hoare_seq P.
    + apply hoare_gets; auto.
    + apply hoare_get_data; auto.
    + apply hoare_modify_data; auto.
  - hoare_seq P.
    + apply hoare_get_data; auto.
    + apply hoare_modify_data; auto.
Qed.

Lemma steady_css css : steady (fun s => css = _CSS s).
Proof. intros s s' [c _ _ _ _ _] H. unfold constants in c. congruence. Qed.

#[local] Hint Resolve steady_css : steady.

(** A tune click that was registered by [renderSettings] returns once the
    view is rendered. *)
Lemma tune_click_hoare index elements tunes css E :
  (index < length elements)%nat ->
  (length elements <= length tunes)%nat ->
  token_error (ToString (css_settingsButtonActive css)) = None ->
  Forall (fun t => token_error (property_string
                     (lookup_class (css_alignment css) (VStr (name t)))) = None) tunes ->
  let P := fun s =>
    wf s /\ is_Some (_element s) /\ tunes = _tunesButtons s /\ css = _CSS s /\
    Forall (fun b => (b < length (document s))%nat) elements in
  hoare P (tune_click index elements) (fun _ => P) E.
Proof.
  intros Hindex Hlen Hactive Hclasses P.
  assert (HP : steady P) by (unfold P; repeat apply steady_and; auto with steady).
  assert (Hwf : forall s, P s -> wf s) by (unfold P; tauto).
  unfold tune_click.
  eapply hoare_bind with (Q := fun x s => P s /\ x = tunes).
  { apply hoare_gets. unfold P. intros s Hs. split; [exact Hs|]. symmetry. tauto. }
  intros ? . apply hoare_pure. intros ->.
  hoare_seq P.
  - apply hoare_prop, lookup_lt_is_Some_2. lia.
  - apply toggleTune_hoare; auto.
  - apply hoare_forEach. intros el i Hel.
    eapply hoare_bind with (Q := fun x s => P s /\ x = tunes).
    { apply hoare_gets. unfold P. intros s Hs. split; [exact Hs|]. symmetry. tauto. }
    intros ?. apply hoare_pure. intros ->.
    assert (Hi : (i < length tunes)%nat) by (apply lookup_lt_Some in Hel; lia).
    destruct (lookup_lt_is_Some_2 _ _ Hi) as [t Ht]. rewrite Ht. simpl.
    assert (Hclass : token_error (property_string
              (lookup_class (css_alignment css) (VStr (name t)))) = None).
    { rewrite Forall_forall in Hclasses. apply Hclasses, list_elem_of_lookup. eauto. }
    eapply hoare_bind with (Q := fun x s => P s /\ x = name t).
    { apply hoare_ret. auto. }
    intros ?. apply hoare_pure. intros ->.
    eapply hoare_bind with (Q := fun x s => P s /\ x = css).
    { apply hoare_gets. unfold P. intros s Hs. split; [exact Hs|]. symmetry. tauto. }
    intros ?. apply hoare_pure. intros ->.
    hoare_next P; [apply hoare_get_data; auto|].
    hoare_next P.
    { eapply hoare_weaken.
      - apply (hoare_classList_toggle P el _ _ E HP).
        + intros s (_ & _ & _ & _ & Hall). rewrite Forall_forall in Hall.
          apply Hall, list_elem_of_lookup. eauto.
        + left. exact Hactive.
      - auto.
      - simpl. tauto.
      - auto. }
    eapply hoare_bind with (Q := fun view s => P s /\ view = _element s).
    { apply hoare_gets. auto. }
    intros view.
    assert (HPv : steady (fun s => P s /\ view = _element s))
      by auto with steady.
    assert (Hview : forall s, P s /\ view = _element s ->
              exists n, view = Some n /\ (n < length (document s))%nat).
    { intros s ((Hw & Hr & _) & ->). apply wf_view_valid; auto. }
    set (Pv := fun s => P s /\ view = _element s) in *.
    eapply hoare_weaken with (P' := Pv) (Q' := fun _ => Pv) (E' := E);
      [|auto|unfold Pv; intros; tauto|auto].
    hoare_seq Pv.
    + apply hoare_deref; auto.
    + apply hoare_get_data; [exact HPv|unfold Pv; intros; apply Hwf; tauto].
    + apply hoare_classList_toggle_ref; [exact HPv|exact Hview|left; exact Hclass].
Qed.

Lemma hoare_gentle {A} (P : State -> Prop) (m : JS A) E :
  steady P -> gentle m -> (forall s, P s -> is_normal (m s).2 = true) ->
  hoare P m (fun _ => P) E.
Proof.
  intros HP Hm Hn s Hs. specialize (Hm s). specialize (Hn s Hs).
  destruct (m s) as [s' [a|e]]; simpl in *; [|discriminate].
  exact (HP _ _ Hm Hs).
Qed.

Lemma hoare_keep {A} (P : State -> Prop) (m : JS A) Q E :
  steady P -> gentle m -> hoare P m Q E -> hoare P m (fun _ => P) E.
Proof.
  intros HP Hm H s Hs. specialize (Hm s). specialize (H s Hs).
  destruct (m s) as [s' [a|e]]; simpl in *; [|exact H].
  exact (HP _ _ Hm Hs).
Qed.

Lemma set_data_normal data s : (set_data data s).2 = Normal tt.
Proof.
  unfold set_data, bind, modify, gets, hydrate, ret. simpl.
  destruct (_element s); reflexivity.
Qed.

Lemma hoare_set_data (P : State -> Prop) data E :
  steady P -> hoare P (set_data data) (fun _ => P) E.
Proof.
  intros HP. apply hoare_gentle; auto with gentle.
  intros s _. rewrite set_data_normal. reflexivity.
Qed.

(** The instance once its view exists. *)
Lemma steady_ready : steady (fun s => wf s /\ is_Some (_element s)).
Proof. auto with steady. Qed.

Lemma userEdit_hoare html E :
  hoare wf (userEdit html) (fun _ => wf) E.
Proof.
  unfold userEdit.
  eapply hoare_bind with (Q := fun view s => wf s /\ view = _element s).
  { apply hoare_gets. auto. }
  intros [n|]; [|apply hoare_ret; tauto].
  set (Pv := fun s => wf s /\ Some n = _element s).
  assert (HPv : steady Pv) by (unfold Pv; auto 10 with steady).
  assert (Hview : forall s, Pv s ->
            exists m, Some n = Some m /\ (m < length (document s))%nat).
  { intros s [Hw Hn]. destruct (wf_view_valid s Hw) as (m & Hm & Hlt).
    - rewrite <- Hn. eauto.
    - exists m. split; [congruence|exact Hlt]. }
  eapply hoare_weaken with (P' := Pv) (Q' := fun _ => Pv) (E' := E);
    [|auto|unfold Pv; intros; tauto|auto].
  hoare_next Pv; [apply hoare_deref; auto|].
  match goal with |- hoare _ (if ?b then _ else _) _ _ => destruct b end.
  - apply hoare_update_ref; auto with gentle.
  - apply hoare_ret; auto.
Qed.

Section Safety.

Variable serialize : jsstring -> jsstring.
Variable textContent_of : jsstring -> jsstring.

Let ready := fun s => wf s /\ is_Some (_element s).

Lemma ready_view s :
  ready s -> exists n, _element s = Some n /\ (n < length (document s))%nat.
Proof. intros [Hwf Hr]. apply wf_view_valid; auto. Qed.

Lemma hydrate_callback_hoare E :
  hoare ready (hydrate_callback serialize) (fun _ => ready) E.
Proof.
  unfold hydrate_callback.
  eapply hoare_bind with (Q := fun view s => ready s /\ view = _element s).
  { apply hoare_gets. auto. }
  intros view. set (Pv := fun s => ready s /\ view = _element s).
  assert (HPv : steady Pv) by (unfold Pv, ready; auto 10 with steady).
  eapply hoare_weaken with (P' := Pv) (Q' := fun _ => Pv) (E' := E);
    [|auto|unfold Pv; intros; tauto|auto].
  hoare_seq Pv.
  - apply hoare_gets; auto.
  - apply hoare_update_ref; auto with gentle.
    intros s [Hr ->]. apply ready_view, Hr.
Qed.

Lemma onKeyUp_hoare code E :
  hoare ready (onKeyUp serialize textContent_of code) (fun _ => ready) E.
Proof.
  unfold onKeyUp.
  destruct (bool_decide (code ≠ lit "Backspace") && bool_decide (code ≠ lit "Delete")).
  { apply hoare_ret; auto. }
  eapply hoare_bind with (Q := fun view s => ready s /\ view = _element s).
  { apply hoare_gets. auto. }
  intros view. set (Pv := fun s => ready s /\ view = _element s).
  assert (HPv : steady Pv) by (unfold Pv, ready; auto 10 with steady).
  assert (Hview : forall s, Pv s ->
            exists n, view = Some n /\ (n < length (document s))%nat).
  { intros s [Hr ->]. apply ready_view, Hr. }
  eapply hoare_weaken with (P' := Pv) (Q' := fun _ => Pv) (E' := E);
    [|auto|unfold Pv; intros; tauto|auto].
  hoare_next Pv; [apply hoare_read_innerHTML; auto|].
  match goal with |- hoare _ (if ?b then _ else _) _ _ => destruct b end.
  - apply hoare_update_ref; auto with gentle.
  - apply hoare_ret; auto.
Qed.

Lemma animationFrame_hoare :
  hoare wf (animationFrame serialize) (fun _ => wf) (fun _ => False).
Proof.
  intros s Hwf. destruct (animationFrames s) as [|k] eqn:Hk.
  - unfold animationFrame, bind, gets, modify. rewrite Hk. simpl.
    exact (wf_extends _ _ (gentle_modify_frames0 s) Hwf).
  - assert (Hr : ready s).
    { split; [exact Hwf|]. apply (wf_frames s Hwf). lia. }
    revert s Hr Hwf Hk.
    assert (H : hoare ready (animationFrame serialize) (fun _ => wf) (fun _ => False)).
    { unfold animationFrame.
      eapply hoare_weaken with (P' := ready) (Q' := fun _ => ready)
                               (E' := fun _ => False); auto; [|unfold ready; tauto].
      hoare_seq ready.
      - apply hoare_gets; auto.
      - apply hoare_gentle; auto with gentle. apply steady_ready.
      - eapply hoare_weaken with (P' := ready) (Q' := fun _ => ready)
                                 (E' := fun s => ready s /\ False); auto; [|tauto].
        apply hoare_run_all, Forall_replicate. apply hydrate_callback_hoare. }
    intros s Hr _ _. exact (H s Hr).
Qed.

Lemma call_hoare target l code :
  let P := fun s => ready s /\ listener_ok s target l in
  hoare P (call serialize textContent_of l.2 code) (fun _ => P)
        (fun s => P s /\ False).
Proof.
  intros P.
  assert (HP : steady P).
  { unfold P. apply steady_and; [apply steady_ready|].
    intros s s' Hext. apply listener_ok_extends, Hext. }
  apply hoare_keep with (Q := fun _ _ => True); auto.
  { apply gentle_call. }
  unfold P, listener_ok. destruct l as [ty [|index elements]]; simpl.
  - eapply hoare_weaken; [apply (onKeyUp_hoare code (fun _ => False))| | |];
      simpl; auto; tauto.
  - intros s ((Hwf & Hr) & _ & Hi & Hlen & Hall & Htok).
    pose proof (tune_click_hoare index elements (_tunesButtons s) (_CSS s)
                  (fun _ => False) Hi Hlen Htok (wf_classes s Hwf) s) as H.
    simpl in H.
    specialize (H (conj Hwf (conj Hr (conj eq_refl (conj eq_refl Hall))))).
    destruct (tune_click index elements s) as [s' [[]|e]]; tauto.
Qed.

Lemma dispatchEvent_hoare target ty code :
  hoare (fun s => ready s /\ (target < length (document s))%nat)
        (dispatchEvent serialize textContent_of target ty code)
        (fun _ => ready) (fun _ => False).
Proof.
  unfold dispatchEvent. intros s [Hr Ht].
  unfold bind at 1. unfold deref.
  destruct (lookup_lt_is_Some_2 _ _ Ht) as [e He]. rewrite He.
  set (ls := filter (fun l => l.1 = ty) (listeners e)).
  set (I := fun s => ready s /\ Forall (listener_ok s target) ls).
  assert (HI : steady I).
  { unfold I. apply steady_and; [apply steady_ready|].
    intros s1 s2 Hext Hall. eapply Forall_impl; [exact Hall|]. intros l.
    apply listener_ok_extends, Hext. }
  assert (Hs : I s).
  { split; [exact Hr|]. apply Forall_forall. intros l Hl.
    apply list_elem_of_filter in Hl. destruct Hl as [_ Hl].
    destruct Hr as [[_ _ Hls] _]. eauto. }
  assert (H : hoare I
    (run_all ((fun l => call serialize textContent_of l.2 code) <$> ls))
    (fun _ => I) (fun s => I s /\ False)).
  { apply hoare_run_all, Forall_fmap, Forall_forall. intros l Hl.
    apply hoare_keep with (Q := fun _ _ => True); auto.
    { apply gentle_call. }
    intros s1 [Hr1 Hall1]. rewrite Forall_forall in Hall1.
    pose proof (call_hoare target l code s1 (conj Hr1 (Hall1 l Hl))) as Hc.
    simpl in *.
    destruct (call serialize textContent_of l.2 code s1) as [s2 [[]|ex]]; tauto. }
  specialize (H s Hs).
  destruct (run_all _ s) as [s' [[]|ex]]; unfold I in H; tauto.
Qed.

End Safety.

(** ** Histories *)

Section Steps.

Variable serialize : jsstring -> jsstring.
Variable textContent_of : jsstring -> jsstring.

Local Abbreviation step := (step serialize textContent_of).
Local Abbreviation run := (run serialize textContent_of).

Lemma step_gentle o :
  o <> Render -> o <> RenderSettings -> gentle (step o).
Proof.
  intros H1 H2. destruct o; try congruence; simpl; gentle_tac.
Qed.

Lemma step_cases o : o = Render \/ o = RenderSettings \/ gentle (step o).
Proof. destruct o; auto; right; right; apply step_gentle; congruence. Qed.

Lemma step_Render s : (step Render s).1 = (render s).1.
Proof. simpl. unfold bind. destruct (render s) as [s' [a|e]]; reflexivity. Qed.

Lemma step_RenderSettings s :
  (step RenderSettings s).1 = (renderSettings serialize s).1.
Proof.
  simpl. unfold bind. destruct (renderSettings serialize s) as [s' [a|e]]; reflexivity.
Qed.

Lemma wf_step o s : wf s -> wf (step o s).1.
Proof.
  intros Hwf.
  destruct (step_cases o) as [->|[->|Hg]].
  - rewrite step_Render. apply wf_render, Hwf.
  - rewrite step_RenderSettings.
    pose proof (renderSettings_hoare serialize (active_token s) wf
                  (or_intror (fun _ H => H)) s (conj Hwf eq_refl)) as H.
    destruct (renderSettings serialize s) as [s' [a|e]]; exact H.
  - exact (wf_extends _ _ (Hg s) Hwf).
Qed.

Lemma render_core s :
  constants (render s).1 = constants s /\
  alignment (_data (render s).1) = alignment (_data s) /\
  forall n, _element s = Some n -> _element (render s).1 = Some n.
Proof.
  destruct (render_cases s) as [[n He]|[[He Htok]|[He [err Htok]]]].
  - rewrite (render_again s n He). simpl. repeat split. congruence.
  - destruct (render_first s He Htok) as (div & -> & _). simpl.
    repeat split. congruence.
  - rewrite (render_throws s err He Htok). simpl. repeat split. congruence.
Qed.

Lemma constants_step o s : constants (step o s).1 = constants s.
Proof.
  destruct (step_cases o) as [->|[->|Hg]].
  - rewrite step_Render. apply render_core.
  - rewrite step_RenderSettings.
    pose proof (quiet_renderSettings serialize s) as H.
    unfold core in H. congruence.
  - apply (Hg s).
Qed.

Lemma element_step o s n : _element s = Some n -> _element (step o s).1 = Some n.
Proof.
  intros He.
  destruct (step_cases o) as [->|[->|Hg]].
  - rewrite step_Render. apply render_core, He.
  - rewrite step_RenderSettings.
    pose proof (quiet_renderSettings serialize s) as H.
    unfold core in H. congruence.
  - rewrite (ext_element _ _ (Hg s)). exact He.
Qed.

Lemma run_cons o ops s : run (o :: ops) s = run ops (step o s).1.
Proof. reflexivity. Qed.

Lemma wf_run ops s : wf s -> wf (run ops s).
Proof.
  revert s. induction ops as [|o r IH]; intros s Hwf; [exact Hwf|].
  rewrite run_cons. apply IH, wf_step, Hwf.
Qed.

Lemma constants_run ops s : constants (run ops s) = constants s.
Proof.
  revert s. induction ops as [|o r IH]; intros s; [reflexivity|].
  rewrite run_cons, IH. apply constants_step.
Qed.

Lemma element_run ops s n : _element s = Some n -> _element (run ops s) = Some n.
Proof.
  revert s. induction ops as [|o r IH]; intros s He; [exact He|].
  rewrite run_cons. apply IH, element_step, He.
Qed.

(** In normal operation no method throws. *)
Lemma step_safe o s :
  wf s -> normal_op s o = true -> (step o s).2 = Normal tt.
Proof.
  intros Hwf Hn.
  assert (H : hoare (fun s' => s' = s) (step o) (fun _ _ => True) (fun _ => False)).
  { destruct o; simpl in *.
    - (* Render *)
      intros ? ->. unfold bind. unfold can_render in Hn.
      destruct (_element s) as [n|] eqn:He.
      + rewrite (render_again s n He). exact I.
      + simpl in Hn. apply bool_decide_eq_true in Hn.
        destruct (render_first s He Hn) as (div & -> & _). exact I.
    - (* Save *)
      destruct toolsContent as [n|]; [|discriminate].
      apply bool_decide_eq_true in Hn.
      set (P := fun s => wf s /\ (n < length (document s))%nat).
      assert (HP : steady P) by (unfold P; auto with steady).
      eapply hoare_weaken with (P' := P) (Q' := fun _ => P) (E' := fun _ => False);
        [|intros ? ->; split; auto|auto|auto].
      unfold save. hoare_seq P.
      + apply hoare_read_innerHTML. intros s1 [_ H1]. eauto.
      + apply hoare_get_data; auto. unfold P; tauto.
      + apply hoare_ret; auto.
      + apply hoare_ret; auto.
    - (* Validate *)
      destruct savedData as [[[| |t] a]|]; try discriminate.
      intros ? ->. unfold validate. simpl. unfold bind; simpl.
      destruct (bool_decide (trim t = empty_string) && negb (_preserveBlank s)); exact I.
    - (* Merge *)
      apply bool_decide_eq_true in Hn.
      eapply hoare_weaken with (P' := wf) (Q' := fun _ => wf)
                               (E' := fun _ => False);
        [|intros ? ->; auto|auto|auto].
      unfold merge. hoare_seq wf.
      + apply hoare_get_data; auto with steady.
      + apply hoare_prop; auto.
      + apply hoare_get_data; auto with steady.
      + apply hoare_set_data; auto with steady.
    - (* OnPaste *)
      eapply hoare_weaken with (P' := wf) (Q' := fun _ => wf)
                               (E' := fun _ => False);
        [|intros ? ->; auto|auto|auto].
      unfold onPaste. hoare_seq wf.
      + apply hoare_gets; auto.
      + apply hoare_set_data; auto with steady.
    - (* RenderSettings *)
      apply bool_decide_eq_true in Hn.
      eapply hoare_weaken with (P' := fun s' => wf s' /\ active_token s = active_token s')
                               (Q' := fun _ => wf) (E' := fun _ => False);
        [|intros ? ->; auto|auto|auto].
      eapply hoare_bind.
      + apply (renderSettings_hoare serialize (active_token s) (fun _ => False)).
        left. exact Hn.
      + intros w. apply hoare_ret; auto.
    - (* SetData *)
      eapply hoare_weaken with (P' := wf) (Q' := fun _ => wf)
                               (E' := fun _ => False);
        [|intros ? ->; auto|auto|auto].
      apply hoare_set_data; auto with steady.
    - (* Event *)
      apply andb_true_iff in Hn. destruct Hn as [Hr Ht].
      apply bool_decide_eq_true in Hr. apply bool_decide_eq_true in Ht.
      eapply hoare_weaken;
        [apply (dispatchEvent_hoare serialize textContent_of target ty code)
        |intros ? ->; exact (conj (conj Hwf Hr) Ht)|auto|auto].
    - (* AnimationFrame *)
      eapply hoare_weaken;
        [apply (animationFrame_hoare serialize)|intros ? ->; auto|auto|auto].
    - (* UserEdit *)
      eapply hoare_weaken;
        [apply (userEdit_hoare html (fun _ => False))|intros ? ->; auto|auto|auto]. }
  specialize (H s eq_refl).
  destruct (step o s) as [s' [[]|e]]; [reflexivity|contradiction].
Qed.

Lemma normal_history_safe ops s :
  wf s ->
  normal_history serialize textContent_of ops s = true ->
  raises serialize textContent_of ops s = false.
Proof.
  revert s. induction ops as [|o r IH]; intros s Hwf Hn; [reflexivity|].
  simpl in *. apply andb_true_iff in Hn. destruct Hn as [Ho Hn].
  rewrite (step_safe o s Hwf Ho). simpl.
  apply IH; auto. apply wf_step, Hwf.
Qed.

End Steps.

(** ** Construction *)

Lemma constructor_spec tune_icon d c api0 ro :
  exists s,
    constructor tune_icon (Some d) (Some c) api0 ro = Normal s /\
    _data s = d /\ config s = c /\ readOnly s = ro /\
    _preserveBlank s = default false (preserveBlank c) /\
    name <$> _tunesButtons s = Static.ALIGNMENTS /\
    _element s = None /\ document s = [] /\ animationFrames s = 0%nat.
Proof.
  eexists. split; [reflexivity|]. simpl.
  destruct (preserveBlank c); repeat split.
Qed.

(** Without a data object, or without a configuration object, the
    constructor throws. *)
Example constructor_without_data tune_icon c api0 ro :
  constructor tune_icon None (Some c) api0 ro = Throw TypeError.
Proof. reflexivity. Qed.

Example constructor_without_config tune_icon data api0 ro :
  constructor tune_icon data None api0 ro = Throw TypeError.
Proof. reflexivity. Qed.

Lemma constructor_inv tune_icon data cfg api0 ro s :
  constructor tune_icon data cfg api0 ro = Normal s ->
  exists d c, data = Some d /\ cfg = Some c.
Proof.
  destruct cfg as [c|]; [|discriminate].
  destruct data as [d|]; [|discriminate]. eauto.
Qed.

Lemma wf_constructor tune_icon data cfg api0 ro s :
  constructor tune_icon data cfg api0 ro = Normal s -> wf s.
Proof.
  intros H. destruct (constructor_inv _ _ _ _ _ _ H) as (d & c & -> & ->).
  destruct (constructor_spec tune_icon d c api0 ro)
    as (s' & H' & _ & _ & _ & _ & _ & He & Hd & Hf).
  assert (s' = s) by congruence. subst s'.
  split.
  - intros n Hn. congruence.
  - intros Hk. congruence.
  - intros m e l Hm. rewrite Hd in Hm. discriminate.
  - injection H as <-. simpl.
    repeat (constructor; [vm_compute; reflexivity|]). constructor.
Qed.

(** ** Strings *)

Lemma trim_start_whitespace t :
  forallb is_trimmed t = true -> trim_start t = [].
Proof.
  induction t as [|ch r IH]; simpl; [reflexivity|].
  intros H. apply andb_true_iff in H. destruct H as [-> H]. auto.
Qed.

Lemma trim_whitespace t : forallb is_trimmed t = true -> trim t = empty_string.
Proof.
  intros H. unfold trim. rewrite (trim_start_whitespace t H). reflexivity.
Qed.

(** What [trim_start] leaves begins with a unit that is not trimmed. *)
Lemma trim_start_head t c r : trim_start t = c :: r -> is_trimmed c = false.
Proof.
  induction t as [|ch t IH]; simpl; [discriminate|].
  destruct (is_trimmed ch) eqn:Hch; [exact IH|]. intros [= <- _]. exact Hch.
Qed.

Lemma trim_start_empty t : trim_start t = [] -> forallb is_trimmed t = true.
Proof.
  induction t as [|ch t IH]; simpl; [reflexivity|].
  destruct (is_trimmed ch); [exact IH|discriminate].
Qed.

(** Only white space and line terminators trim to the empty string. *)
Lemma trim_empty t : trim t = empty_string -> forallb is_trimmed t = true.
Proof.
  unfold trim, trim_end. intros H.
  apply (f_equal (@rev N)) in H. rewrite rev_involutive in H. simpl in H.
  apply trim_start_empty in H. rewrite forallb_forall in H.
  destruct (trim_start t) as [|c r] eqn:Ht; [exact (trim_start_empty t Ht)|].
  pose proof (trim_start_head t c r Ht) as Hc.
  rewrite (H c) in Hc; [discriminate|]. apply in_rev. rewrite rev_involutive. left.
  reflexivity.
Qed.

(** A unit that is not trimmed survives [trim]. *)
Lemma trim_keeps t c :
  c ∈ t -> is_trimmed c = false -> c ∈ trim t.
Proof.
  assert (Hs : forall l, c ∈ l -> is_trimmed c = false -> c ∈ trim_start l).
  { induction l as [|ch l IH]; intros Hin Hc; [inversion Hin|]. simpl.
    destruct (is_trimmed ch) eqn:Hch; [|exact Hin].
    apply elem_of_cons in Hin. destruct Hin as [->|Hin]; [congruence|auto]. }
  assert (Hr : forall l, c ∈ l -> c ∈ rev l).
  { intros l Hl. apply list_elem_of_In. rewrite <- in_rev. apply list_elem_of_In, Hl. }
  intros Hin Hc. unfold trim, trim_end.
  apply Hr, Hs; [|exact Hc]. apply Hr, Hs; assumption.
Qed.

Example trim_keeps_inner_space : trim (lit "  a b  ") = lit "a b".
Proof. reflexivity. Qed.

Example trim_strips_line_terminators :
  trim [0x000A; 0x00A0; 0x0061; 0x2028; 0xFEFF] = [0x0061].
Proof. reflexivity. Qed.

Example js_add_strings : js_add (VStr (lit "A")) (VStr (lit "B")) = VStr (lit "AB").
Proof. reflexivity. Qed.

Example js_add_undefined_string :
  js_add VUndefined (VStr (lit "B")) = VStr (lit "undefinedB").
Proof. reflexivity. Qed.

Example js_add_undefined_undefined : js_add VUndefined VUndefined = VNaN.
Proof. reflexivity. Qed.

Lemma is_alignment_truthy v : is_alignment v = true -> truthy v = true.
Proof.
  destruct v as [| |[|ch r]]; simpl; try discriminate; auto.
Qed.

Lemma strict_eq_str v a : strict_eq v (VStr a) = bool_decide (v = VStr a).
Proof.
  destruct v as [| |s]; simpl; try reflexivity.
  apply bool_decide_ext. split; congruence.
Qed.

(** ** The data getter and the methods that write the data *)

Lemma get_data_result s :
  core (get_data s).1 = core s /\
  forall d, (get_data s).2 = Normal d -> d = _data (get_data s).1.
Proof.
  split; [apply quiet_get_data|].
  unfold get_data, read_innerHTML, bind, gets, deref, modify, ret.
  destruct (_element s) as [n|]; simpl.
  - destruct (document s !! n); simpl; [|discriminate]. intros d [= <-]. reflexivity.
  - intros d [= <-]. reflexivity.
Qed.

Lemma set_data_spec data s :
  _data (set_data data s).1 = default empty_object data /\
  constants (set_data data s).1 = constants s /\
  _element (set_data data s).1 = _element s /\
  document (set_data data s).1 = document s.
Proof.
  unfold set_data, bind, modify, gets, hydrate, ret. simpl.
  destruct (_element s) eqn:He; simpl; rewrite ?He; auto.
Qed.

Lemma quiet_merge data : quiet (merge data).
Proof.
  intros s. unfold merge, bind.
  destruct (get_data_result s) as [Hc1 Hd1].
  destruct (get_data s) as [s1 [d1|e]]; simpl in *; [|exact Hc1].
  destruct data as [d|]; simpl; [|exact Hc1].
  destruct (get_data_result s1) as [Hc2 Hd2].
  destruct (get_data s1) as [s2 [d2|e]]; simpl in *; [|congruence].
  pose proof (Hd2 d2 eq_refl) as E2. subst d2.
  destruct (set_data_spec
              (Some (mkData (js_add (text d1) (text d)) (alignment (_data s2)))) s2)
    as (Hd & Hk & He & _).
  unfold core in *. rewrite Hd, Hk, He. simpl. congruence.
Qed.

Lemma aligned_core s s' : core s' = core s -> aligned s -> aligned s'.
Proof.
  unfold core, constants, aligned. intros H (Ha & Hd & Ht).
  replace (alignment (_data s')) with (alignment (_data s)) by congruence.
  replace (config s') with (config s) by congruence.
  replace (_tunesButtons s') with (_tunesButtons s) by congruence. auto.
Qed.

Lemma aligned_quiet {A} (m : JS A) : quiet m -> maintains aligned m.
Proof. apply quiet_maintains. exact aligned_core. Qed.

Lemma aligned_set_data d :
  is_alignment (alignment d) = true -> maintains aligned (set_data (Some d)).
Proof.
  intros Hd s (Ha & Hc & Ht).
  destruct (set_data_spec (Some d) s) as (H1 & H2 & _). unfold constants in H2.
  unfold aligned. rewrite H1. simpl.
  replace (config (set_data (Some d) s).1) with (config s) by congruence.
  replace (_tunesButtons (set_data (Some d) s).1) with (_tunesButtons s) by congruence.
  auto.
Qed.

Lemma aligned_assign_alignment v :
  is_alignment v = true -> maintains aligned (assign_alignment v).
Proof.
  intros Hv. unfold assign_alignment.
  apply maintains_bind; [apply aligned_quiet, quiet_get_data|].
  intros _ s (Ha & Hc & Ht). split; simpl; auto.
Qed.

Lemma aligned_toggleTune a :
  is_alignment (VStr a) = true -> maintains aligned (_toggleTune (VStr a)).
Proof.
  intros Ha. unfold _toggleTune.
  apply maintains_bind; [apply aligned_quiet, quiet_get_data|].
  intros d. destruct (strict_eq (alignment d) (VStr a)).
  - intros s Hs. unfold bind, gets.
    apply aligned_assign_alignment; [apply Hs|exact Hs].
  - apply aligned_assign_alignment, Ha.
Qed.

Lemma aligned_tune_click index elements : maintains aligned (tune_click index elements).
Proof.
  unfold tune_click. intros s Hs. unfold bind at 1. unfold gets.
  unfold bind at 1. destruct (_tunesButtons s !! index) as [t|] eqn:Ht; simpl; [|exact Hs].
  assert (Ha : is_alignment (VStr (name t)) = true).
  { destruct Hs as (_ & _ & Hall). rewrite Forall_forall in Hall.
    apply Hall, list_elem_of_lookup. eauto. }
  refine (maintains_bind aligned _ _ _ _ s Hs).
  - apply aligned_toggleTune, Ha.
  - intros _. apply aligned_quiet. unfold forEach. quiet_tac.
Qed.

Section AlignedSteps.

Variable serialize : jsstring -> jsstring.
Variable textContent_of : jsstring -> jsstring.

Lemma aligned_call l code :
  maintains aligned (call serialize textContent_of l code).
Proof.
  destruct l; simpl.
  - apply aligned_quiet, quiet_onKeyUp.
  - apply aligned_tune_click.
Qed.

Lemma aligned_dispatchEvent target ty code :
  maintains aligned (dispatchEvent serialize textContent_of target ty code).
Proof.
  unfold dispatchEvent.
  apply maintains_bind; [apply aligned_quiet, quiet_deref|]. intros e.
  apply maintains_run_all, Forall_fmap, Forall_forall. intros l _.
  apply aligned_call.
Qed.

Lemma aligned_onPaste event :
  aligned_op (OnPaste event) = true -> maintains aligned (onPaste event).
Proof.
  simpl. intros He s Hs. unfold onPaste, bind, gets.
  apply aligned_set_data; [|exact Hs]. simpl.
  destruct Hs as (_ & Hd & _).
  apply orb_true_iff in He. destruct He as [He|He].
  - apply bool_decide_eq_true in He. rewrite He. simpl.
    unfold js_or at 2. simpl. unfold js_or.
    rewrite (is_alignment_truthy _ Hd). exact Hd.
  - change (is_alignment (VStr (paste_textAlign event)) = true) in He.
    unfold js_or at 2. rewrite (is_alignment_truthy _ He).
    unfold js_or. rewrite (is_alignment_truthy _ He). exact He.
Qed.

Lemma aligned_step o :
  aligned_op o = true -> maintains aligned (step serialize textContent_of o).
Proof.
  intros Ho. destruct o; simpl in *.
  - intros s Hs.
    change ((render;;; ret ()) s) with (step serialize textContent_of Render s).
    rewrite step_Render. destruct (render_core s) as (Hk & Ha & _).
    destruct Hs as (H1 & H2 & H3). unfold aligned, constants in *.
    replace (config (render s).1) with (config s) by congruence.
    replace (_tunesButtons (render s).1) with (_tunesButtons s) by congruence.
    rewrite Ha. auto.
  - apply aligned_quiet. quiet_tac.
  - apply aligned_quiet. quiet_tac.
  - apply aligned_quiet, quiet_merge.
  - apply aligned_onPaste, Ho.
  - apply aligned_quiet. quiet_tac.
  - destruct data as [d|]; [|discriminate]. apply aligned_set_data, Ho.
  - apply aligned_dispatchEvent.
  - apply aligned_quiet. quiet_tac.
  - apply aligned_quiet. quiet_tac.
Qed.

Lemma aligned_run ops s :
  forallb aligned_op ops = true -> aligned s ->
  aligned (run serialize textContent_of ops s).
Proof.
  revert s. induction ops as [|o r IH]; intros s Hops Hs; [exact Hs|].
  simpl in Hops. apply andb_true_iff in Hops. destruct Hops as [Ho Hr].
  rewrite run_cons. apply IH; [exact Hr|]. apply aligned_step; assumption.
Qed.

End AlignedSteps.

(** ** The claims *)

(** C1 (the code departs from the claim). The constructor computes the
    fallbacks [data.text || ''] and [data.alignment || config.defaultAlignment
    || DEFAULT_ALIGNMENT] into [_data], and its last statement [this.data =
    data] replaces that object by the host's: constructed with [{}] and no
    [defaultAlignment], the instance holds [{}], neither the empty text nor
    the alignment [left]. *)
Theorem constructor_discards_fallback tune_icon p pb api0 ro :
  exists s,
    constructor tune_icon (Some empty_object) (Some (mkConfig p pb VUndefined)) api0 ro
      = Normal s /\
    _data s = mkData VUndefined VUndefined /\
    is_alignment (alignment (_data s)) = false.
Proof.
  eexists. split; [reflexivity|]. split; reflexivity.
Qed.

(** C2 (amended). When the block is constructed with one of the four
    alignments and the configured default is one of the four, the alignment
    stays one of the four through every history of renders, saves,
    validations, merges, settings, clicks, key events, frames and edits, of
    pastes whose inline [text-align] is empty or one of the four, and of
    data assignments whose alignment is one of the four. *)
Theorem alignment_invariant serialize textContent_of tune_icon d c api0 ro s0 ops :
  constructor tune_icon (Some d) (Some c) api0 ro = Normal s0 ->
  is_alignment (alignment d) = true ->
  is_alignment (defaultAlignment c) = true ->
  forallb aligned_op ops = true ->
  is_alignment (alignment (_data (run serialize textContent_of ops s0))) = true.
Proof.
  intros Hc Hd Hdef Hops.
  destruct (constructor_spec tune_icon d c api0 ro)
    as (s & Hs & Hdata & Hcfg & _ & _ & Hnames & _).
  assert (s = s0) by congruence. subst s.
  apply (aligned_run serialize textContent_of ops s0 Hops).
  split; [rewrite Hdata; exact Hd|]. split; [rewrite Hcfg; exact Hdef|].
  apply Forall_forall. intros t Ht. simpl.
  apply bool_decide_eq_true. rewrite <- Hnames.
  apply list_elem_of_fmap. eauto.
Qed.

(** ** Tunes *)

Lemma toggleTune_spec s tune :
  wf s ->
  exists s',
    _toggleTune tune s = (s', Normal tt) /\
    alignment (_data s') =
      (if strict_eq (alignment (_data s)) tune
       then defaultAlignment (config s) else tune) /\
    text (_data s') = current_text s.
Proof.
  intros Hwf. unfold _toggleTune, bind.
  destruct (get_data_wf s Hwf) as (s1 & Hg & Ha & Ht & Hc & Hdoc & _). rewrite Hg, Ha.
  assert (Hwf1 : wf s1).
  { pose proof (gentle_get_data s) as H. rewrite Hg in H.
    exact (wf_extends _ _ H Hwf). }
  assert (Ht1 : current_text s1 = current_text s).
  { unfold current_text in *. unfold core in Hc.
    replace (_element s1) with (_element s) by congruence. rewrite Hdoc.
    destruct (_element s) as [n|]; [|exact Ht].
    destruct (document s !! n); [reflexivity|exact Ht]. }
  destruct (get_data_wf s1 Hwf1) as (s2 & Hg2 & Ha2 & Ht2 & Hc2 & _).
  unfold assign_alignment, bind, gets, modify.
  destruct (strict_eq (alignment (_data s)) tune); rewrite Hg2;
    (eexists; split; [reflexivity|]); simpl; split; try congruence.
  unfold core, constants in Hc. congruence.
Qed.


(** The toggle-off of a block whose configuration has no default leaves
    the alignment undefined. *)
Example toggle_off_without_default :
  exists s0,
    constructor Sample.icons (Some Sample.centered_A) (Some Sample.no_config)
                Sample.api false = Normal s0 /\
    alignment (_data (_toggleTune (VStr (lit "center")) s0).1) = VUndefined.
Proof. eexists. split; reflexivity. Qed.

(** ** Validation *)

(** C4. On an instance in any state it can reach, [validate] of saved data
    whose text is a string returns, and returns [false] exactly when the
    trimmed text is empty and [preserveBlank] is absent or false; the
    trimmed text is empty exactly when every unit of the text is white
    space or a line terminator, so a text with any other unit is accepted. *)
Theorem validate_rejects_blank serialize textContent_of tune_icon d c api0 ro s0 ops
    t a :
  constructor tune_icon (Some d) (Some c) api0 ro = Normal s0 ->
  let s := run serialize textContent_of ops s0 in
  exists b,
    validate (Some (mkData (VStr t) a)) s = (s, Normal b) /\
    (b = false <-> trim t = empty_string /\ default false (preserveBlank c) = false) /\
    (trim t = empty_string <-> forallb is_trimmed t = true) /\
    (forall u, u ∈ t -> is_trimmed u = false -> b = true).
Proof.
  assert (Hiff : trim t = empty_string <-> forallb is_trimmed t = true)
    by (split; [apply trim_empty|apply trim_whitespace]).
  assert (Hkept : forall u, u ∈ t -> is_trimmed u = false -> trim t <> empty_string).
  { intros u Hu Hnot Hempty. pose proof (trim_keeps t u Hu Hnot) as Hin.
    rewrite Hempty in Hin. inversion Hin. }
  intros Hc s.
  destruct (constructor_spec tune_icon d c api0 ro)
    as (s1 & Hs & _ & _ & _ & Hpb & _).
  assert (s1 = s0) by congruence. subst s1.
  pose proof (constants_run serialize textContent_of ops s0) as Hk.
  fold s in Hk. unfold constants in Hk.
  assert (Hpb' : _preserveBlank s = default false (preserveBlank c)) by congruence.
  unfold validate, bind, prop, call_trim, gets, ret. simpl. rewrite Hpb'.
  destruct (bool_decide (trim t = empty_string)) eqn:Ht;
    destruct (default false (preserveBlank c)) eqn:Hp; simpl;
    (eexists; split; [reflexivity|]);
    (split; [|split; [exact Hiff|]]).
  - apply bool_decide_eq_true in Ht. split; [discriminate|]. intros [_ H]. discriminate.
  - reflexivity.
  - apply bool_decide_eq_true in Ht. split; auto.
  - intros u Hu Hnot. apply bool_decide_eq_true in Ht.
    destruct (Hkept u Hu Hnot Ht).
  - apply bool_decide_eq_false in Ht. split; [discriminate|]. intros [H _]. contradiction.
  - reflexivity.
  - apply bool_decide_eq_false in Ht. split; [discriminate|]. intros [H _]. contradiction.
  - reflexivity.
Qed.

Example validate_whitespace_only :
  forall s, _preserveBlank s = false ->
  validate (Some (mkData (VStr (lit "   ")) (VStr (lit "left")))) s = (s, Normal false).
Proof. intros s H. unfold validate, bind, gets; simpl. rewrite H. reflexivity. Qed.

Example validate_whitespace_preserved :
  forall s, _preserveBlank s = true ->
  validate (Some (mkData (VStr (lit "   ")) (VStr (lit "left")))) s = (s, Normal true).
Proof. intros s H. unfold validate, bind, gets; simpl. rewrite H. reflexivity. Qed.

(** ** Merging *)

Lemma merge_spec s d :
  wf s ->
  exists s',
    merge (Some d) s = (s', Normal tt) /\
    _data s' = mkData (js_add (current_text s) (text d)) (alignment (_data s)).
Proof.
  intros Hwf. unfold merge, bind.
  destruct (get_data_wf s Hwf) as (s1 & Hg & Ha & Ht & _). rewrite Hg. simpl.
  assert (Hwf1 : wf s1).
  { pose proof (gentle_get_data s) as H. rewrite Hg in H.
    exact (wf_extends _ _ H Hwf). }
  destruct (get_data_wf s1 Hwf1) as (s2 & Hg2 & Ha2 & _). rewrite Hg2.
  pose proof (set_data_normal
    (Some (mkData (js_add (text (_data s1)) (text d)) (alignment (_data s2)))) s2) as Hn.
  destruct (set_data_spec
    (Some (mkData (js_add (text (_data s1)) (text d)) (alignment (_data s2)))) s2)
    as (Hd & _).
  destruct (set_data _ s2) as [s3 r]. simpl in *. subst r.
  exists s3. split; [reflexivity|]. rewrite Hd. simpl. congruence.
Qed.

(** C5 (amended). On an instance in any state it can reach, [merge] of an
    incoming data object returns and leaves as data the text the data getter
    reports for the receiving block, followed by the incoming text, with the
    receiving block's alignment; for two strings the text is their
    concatenation.  The text the getter reports is the text the block holds
    while it has no view, and the markup of the view, whatever text the
    block holds, once it is rendered. *)
Theorem merge_concatenates serialize textContent_of tune_icon d c api0 ro s0 ops
    incoming :
  constructor tune_icon (Some d) (Some c) api0 ro = Normal s0 ->
  let s := run serialize textContent_of ops s0 in
  exists s',
    merge (Some incoming) s = (s', Normal tt) /\
    _data s' = mkData (js_add (current_text s) (text incoming)) (alignment (_data s)) /\
    (forall t1 t2, current_text s = VStr t1 -> text incoming = VStr t2 ->
       _data s' = mkData (VStr (t1 ++ t2)) (alignment (_data s))) /\
    (_element s = None -> current_text s = text (_data s)) /\
    (forall view, _element s = Some view ->
       exists e, document s !! view = Some e /\
                 current_text s = VStr (innerHTML (document s) e)).
Proof.
  intros Hc s.
  assert (Hwf : wf s) by (apply wf_run, (wf_constructor _ _ _ _ _ _ Hc)).
  destruct (merge_spec s incoming Hwf) as (s' & Hm & Hd).
  exists s'. split; [exact Hm|]. split; [exact Hd|]. split; [|split].
  - intros t1 t2 H1 H2. rewrite Hd, H1, H2. reflexivity.
  - intros Hn. unfold current_text. rewrite Hn. reflexivity.
  - intros view Hn. destruct (wf_view s Hwf view Hn) as (e & He & _).
    exists e. split; [exact He|]. unfold current_text. rewrite Hn, He. reflexivity.
Qed.

(** The example of the specification, before the view exists and after it
    is filled. *)
Example merge_A_B :
  exists s0,
    constructor Sample.icons (Some Sample.centered_A) (Some Sample.no_config)
                Sample.api false = Normal s0 /\
    _data (merge (Some Sample.text_B) s0).1
      = mkData (VStr (lit "AB")) (VStr (lit "center")) /\
    _data (merge (Some Sample.text_B)
             (run Sample.verbatim Sample.verbatim [Render; AnimationFrame] s0)).1
      = mkData (VStr (lit "AB")) (VStr (lit "center")).
Proof. eexists. split; [reflexivity|]. split; reflexivity. Qed.

(** ** Pasting *)

(** C6. In every state and for every paste event, [onPaste] returns and
    replaces the data: the text is the pasted markup, the alignment is the
    inline [text-align] when it is not empty, otherwise the configured
    default when it is set (truthy), otherwise [left]. *)
Theorem onPaste_replaces_data (s : State) (event : PasteEvent) :
  (onPaste event s).2 = Normal tt /\
  _data (onPaste event s).1 =
    mkData (VStr (paste_innerHTML event))
           (if bool_decide (paste_textAlign event <> empty_string)
            then VStr (paste_textAlign event)
            else if truthy (defaultAlignment (config s))
                 then defaultAlignment (config s)
                 else VStr (lit "left")).
Proof.
  unfold onPaste, bind, gets.
  split; [apply set_data_normal|].
  destruct (set_data_spec
    (Some (mkData (VStr (paste_innerHTML event))
       (js_or (js_or (VStr (paste_textAlign event)) (defaultAlignment (config s)))
              Static.DEFAULT_ALIGNMENT))) s) as (Hd & _).
  rewrite Hd. simpl. f_equal. unfold js_or, Static.DEFAULT_ALIGNMENT.
  destruct (paste_textAlign event) as [|ch r]; simpl.
  - destruct (truthy (defaultAlignment (config s))) eqn:Ht; rewrite ?Ht; reflexivity.
  - reflexivity.
Qed.

Example onPaste_right :
  exists s0,
    constructor Sample.icons (Some Sample.centered_A) (Some Sample.no_config)
                Sample.api false = Normal s0 /\
    _data (onPaste Sample.paste_right s0).1
      = mkData (VStr (lit "hi")) (VStr (lit "right")) /\
    _data (onPaste (mkPaste (lit "hi") empty_string) s0).1
      = mkData (VStr (lit "hi")) (VStr (lit "left")).
Proof. eexists. split; [reflexivity|]. split; reflexivity. Qed.

(** ** The round trip *)

(** An element whose children are those of markup reads as that markup. *)
Lemma innerHTML_with_innerHTML d h e : innerHTML d (with_innerHTML h e) = h.
Proof. unfold innerHTML. simpl. apply app_nil_r. Qed.

Lemma innerHTML_no_children d e : children e = [] -> innerHTML d e = empty_string.
Proof. unfold innerHTML. intros ->. reflexivity. Qed.

Lemma read_innerHTML_valid s n e :
  document s !! n = Some e ->
  read_innerHTML (Some n) s = (s, Normal (innerHTML (document s) e)).
Proof. intros He. unfold read_innerHTML, bind, deref, gets. rewrite He. reflexivity. Qed.


Lemma hydrate_callback_spec serialize s n e :
  _element s = Some n -> document s !! n = Some e ->
  hydrate_callback serialize s =
    (with_document
       (alter (with_innerHTML (serialize (ToString (js_or (text (_data s)) (VStr empty_string)))))
              n (document s)) s,
     Normal tt).
Proof.
  intros Hn He. unfold hydrate_callback, bind, gets, set_innerHTML. rewrite Hn.
  apply update_valid. exact (lookup_lt_Some _ _ _ He).
Qed.

Lemma run_hydrate_callbacks serialize k s n e :
  _element s = Some n -> document s !! n = Some e ->
  exists s',
    run_all (replicate (S k) (hydrate_callback serialize)) s = (s', Normal tt) /\
    _data s' = _data s /\
    exists e', document s' !! n = Some e' /\
      innerHTML (document s') e'
        = serialize (ToString (js_or (text (_data s)) (VStr empty_string))).
Proof.
  revert s e. induction k as [|k IH]; intros s e Hn He.
  - simpl. rewrite (hydrate_callback_spec serialize s n e Hn He).
    eexists. split; [reflexivity|]. split; [reflexivity|].
    exists (with_innerHTML
              (serialize (ToString (js_or (text (_data s)) (VStr empty_string)))) e).
    split; [|apply innerHTML_with_innerHTML]. simpl.
    rewrite list_lookup_alter, He. destruct (decide (n = n)); [reflexivity|congruence].
  - change (replicate (S (S k)) (hydrate_callback serialize))
      with (hydrate_callback serialize :: replicate (S k) (hydrate_callback serialize)).
    cbn [run_all]. rewrite (hydrate_callback_spec serialize s n e Hn He).
    set (s1 := with_document _ s).
    assert (He1 : document s1 !! n = Some
      (with_innerHTML (serialize (ToString (js_or (text (_data s)) (VStr empty_string)))) e)).
    { unfold s1. simpl. rewrite list_lookup_alter, He.
      destruct (decide (n = n)); [reflexivity|congruence]. }
    destruct (IH s1 _ Hn He1) as (s' & -> & Hd & e' & Hl & Hh).
    exists s'. split; [reflexivity|]. split; [exact Hd|]. exists e'. auto.
Qed.

(** A [save] that comes before the frame also copies the empty view into
    the data, so the frame then writes the empty text and the original
    text is gone. *)
Example save_before_frame_loses_text :
  exists s0,
    constructor Sample.icons (Some Sample.centered_A) (Some Sample.no_config)
                Sample.api false = Normal s0 /\
    ((view <- render ;; save view ;;; animationFrame Sample.verbatim ;;; save view) s0).2
      = Normal (mkData (VStr empty_string) (VStr (lit "center"))).
Proof.
  eexists. split; [reflexivity|]. vm_compute. reflexivity.
Qed.

(** At construction there is no view, so [render] returns exactly when
    the classes of the view are tokens. *)
Lemma first_render_returns s :
  _element s = None ->
  (exists s1 view, render s = (s1, Normal view)) <-> tokens_error (view_tokens s) = None.
Proof.
  intros He. split.
  - intros (s1 & view & Hr).
    destruct (tokens_error (view_tokens s)) as [err|] eqn:Htok; [|reflexivity].
    rewrite (render_throws s err He Htok) in Hr. discriminate.
  - intros Htok. destruct (render_first s He Htok) as (div & Hr & _). eauto.
Qed.


(** ** The view *)

Lemma filter_none {A} (P : A -> Prop) `{!forall x, Decision (P x)} (l : list A) :
  Forall (fun x => ~ P x) l -> filter P l = [].
Proof.
  induction 1 as [|x r Hx _ IH]; [reflexivity|].
  rewrite filter_cons_False by exact Hx. exact IH.
Qed.

Section View.

Variable serialize : jsstring -> jsstring.
Variable textContent_of : jsstring -> jsstring.

Local Abbreviation step := (step serialize textContent_of).
Local Abbreviation run := (run serialize textContent_of).

Lemma no_view_step o s : o <> Render -> _element s = None -> _element (step o s).1 = None.
Proof.
  intros Ho He. destruct (step_cases serialize textContent_of o) as [->|[->|Hg]].
  - congruence.
  - rewrite step_RenderSettings.
    pose proof (quiet_renderSettings serialize s) as H. unfold core in H. congruence.
  - rewrite (ext_element _ _ (Hg s)). exact He.
Qed.

Lemma no_view_run ops s :
  Forall (fun o => o <> Render) ops -> _element s = None -> _element (run ops s) = None.
Proof.
  revert s. induction ops as [|o r IH]; intros s Hall He; [exact He|].
  inversion Hall; subst. rewrite run_cons. apply IH; [assumption|].
  apply no_view_step; assumption.
Qed.

(** [render] returns exactly when the view exists or can be built, and
    then it returns the view. *)
Lemma render_returns_iff s :
  (exists s1 v, render s = (s1, Normal v)) <-> can_render s = true.
Proof.
  unfold can_render.
  destruct (render_cases s) as [[n He]|[[He Htok]|[He [err Htok]]]].
  - rewrite (render_again s n He), He. simpl. split; [reflexivity|eauto].
  - destruct (render_first s He Htok) as (div & -> & _). rewrite He, Htok. simpl.
    split; [reflexivity|eauto].
  - rewrite (render_throws s err He Htok), He, Htok. simpl.
    split; [intros (? & ? & [=])|discriminate].
Qed.

Lemma render_returns s s1 v :
  render s = (s1, Normal v) ->
  exists view, v = Some view /\ _element s1 = Some view.
Proof.
  destruct (render_cases s) as [[n He]|[[He Htok]|[He [err Htok]]]].
  - rewrite (render_again s n He). intros [= <- <-]. eauto.
  - destruct (render_first s He Htok) as (div & -> & _). intros [= <- <-]. eauto.
  - rewrite (render_throws s err He Htok). discriminate.
Qed.

(** A [render] that cannot build the view throws, keeps no view and leaves
    the element it created behind. *)
Lemma render_fails s :
  can_render s = false ->
  exists err,
    (render s).2 = Throw err /\ _element (render s).1 = None /\
    document (render s).1 = document s ++ [new_element (lit "DIV")].
Proof.
  unfold can_render.
  destruct (render_cases s) as [[n He]|[[He Htok]|[He [err Htok]]]].
  - rewrite He. discriminate.
  - rewrite He, Htok. discriminate.
  - intros _. exists err. rewrite (render_throws s err He Htok). simpl. auto.
Qed.

(** C8 (amended). On an instance in any state it can reach: before the
    first [render] there is no view; [render] returns exactly when the view
    exists or the classes of the view are tokens, and otherwise throws,
    keeps no view and leaves the element it created in the document; a
    [render] that returns and found no view has created exactly one
    element and returns it; a [render] that
    finds the view returns it and leaves the document as it is; and after a
    [render] that returned, whatever happens next, every [render] returns
    that same element and creates nothing. *)
Theorem render_memoized tune_icon d c api0 ro s0 before after :
  constructor tune_icon (Some d) (Some c) api0 ro = Normal s0 ->
  let s := run before s0 in
  (Forall (fun o => o <> Render) before -> _element s = None) /\
  ((exists s1 v, render s = (s1, Normal v)) <-> can_render s = true) /\
  (can_render s = false ->
     exists err,
       (render s).2 = Throw err /\ _element (render s).1 = None /\
       document (render s).1 = document s ++ [new_element (lit "DIV")]) /\
  forall s1 v,
    render s = (s1, Normal v) ->
    exists view,
      v = Some view /\
      (_element s = None ->
         view = length (document s) /\
         exists div, document s1 = document s ++ [div]) /\
      (_element s <> None ->
         _element s = Some view /\ document s1 = document s) /\
      let s' := run after s1 in
      (render s').2 = Normal (Some view) /\
      document (render s').1 = document s'.
Proof.
  intros Hc s.
  destruct (constructor_spec tune_icon d c api0 ro)
    as (s1 & Hs & _ & _ & _ & _ & _ & He0 & _).
  assert (s1 = s0) by congruence. subst s1.
  split; [intros Hall; apply no_view_run; assumption|].
  split; [apply render_returns_iff|].
  split; [apply render_fails|].
  intros s1 v Hr. destruct (render_returns s s1 v Hr) as (view & -> & Hv).
  exists view. split; [reflexivity|]. split; [|split].
  - intros He.
    assert (Htok : tokens_error (view_tokens s) = None)
      by (apply (first_render_returns s He); eauto).
    destruct (render_first s He Htok) as (div & Hrf & _).
    rewrite Hrf in Hr. injection Hr as <- <-. simpl. eauto.
  - intros He. destruct (_element s) as [n|] eqn:Hn; [|congruence].
    rewrite (render_again s n Hn) in Hr. injection Hr as <- <-. simpl. auto.
  - intros s'.
    pose proof (element_run serialize textContent_of after _ view Hv) as Hv'.
    fold s' in Hv'. rewrite (render_again s' view Hv'). split; reflexivity.
Qed.

(** C10. On an instance in any state it can reach, [render] returns
    exactly when the view exists or its classes are tokens, and the element
    it returns is editable exactly when the instance is not read-only.  On
    a read-only instance no element of the document has a listener for key
    events, and a key event on the view runs nothing; otherwise the view
    carries [onKeyUp] as [keyup] listener. *)
Theorem view_editable_unless_readOnly tune_icon d c api0 ro s0 ops :
  constructor tune_icon (Some d) (Some c) api0 ro = Normal s0 ->
  ((exists s v, render (run ops s0) = (s, Normal v))
   <-> can_render (run ops s0) = true) /\
  forall s v,
    render (run ops s0) = (s, Normal v) ->
    exists view e,
      v = Some view /\
      document s !! view = Some e /\
      contentEditable e = Some (negb ro) /\
      (ro = false -> (keyup, OnKeyUp) ∈ listeners e) /\
      (ro = true ->
         (forall m e' l, document s !! m = Some e' -> l ∈ listeners e' -> l.1 = click) /\
         forall code, dispatchEvent serialize textContent_of view keyup code s
                      = (s, Normal tt)).
Proof.
  intros Hc. split; [apply render_returns_iff|]. intros s v Hr.
  destruct (constructor_spec tune_icon d c api0 ro)
    as (s1 & Hs & _ & _ & Hro & _).
  assert (s1 = s0) by congruence. subst s1.
  assert (Hs1 : s = (render (run ops s0)).1) by (rewrite Hr; reflexivity).
  assert (Hwf : wf s).
  { rewrite Hs1. apply wf_render, wf_run, (wf_constructor _ _ _ _ _ _ Hc). }
  assert (Hro' : readOnly s = ro).
  { pose proof (constants_run serialize textContent_of ops s0) as H1.
    destruct (render_core (run ops s0)) as (H2 & _).
    rewrite <- Hs1 in H2. unfold constants in *. congruence. }
  destruct (render_returns (run ops s0) s v Hr) as (view & -> & Hv).
  destruct (wf_view s Hwf view Hv) as (e & He & Hce & Hkey).
  rewrite Hro' in Hce, Hkey.
  assert (Hclick : ro = true -> forall m e' l,
            document s !! m = Some e' -> l ∈ listeners e' -> l.1 = click).
  { intros -> m e' l Hm Hl. pose proof (wf_listeners s Hwf m e' l Hm Hl) as Hok.
    unfold listener_ok in Hok. destruct l as [ty [|index elements]]; simpl in *.
    - destruct Hok as (_ & _ & Hf). congruence.
    - tauto. }
  exists view, e. split; [reflexivity|]. split; [exact He|]. split; [exact Hce|].
  split; [exact Hkey|]. intros Htrue. split; [exact (Hclick Htrue)|].
  intros code. unfold dispatchEvent, bind, deref. rewrite He.
  replace (filter (fun l => l.1 = keyup) (listeners e)) with (@nil (event_type * listener));
    [reflexivity|].
  symmetry. apply filter_none, Forall_forall.
  intros l Hl Hk. rewrite (Hclick Htrue view e l He Hl) in Hk. discriminate.
Qed.

(** ** Exceptions *)

(** C9 (amended). Given a data object and a configuration object, whatever
    fields they lack, the constructor returns; and from there no operation
    of a normal history throws: [save] of an element of the document,
    [validate] of an object whose text is a string, [merge] of an object,
    clicks and key events on elements of the document once the block is
    rendered, [render] when the view exists or its classes are tokens,
    [renderSettings] when the class of the active button is a token, and
    every paste, frame and edit. *)
Theorem normal_operation_never_throws tune_icon d c api0 ro :
  exists s0,
    constructor tune_icon (Some d) (Some c) api0 ro = Normal s0 /\
    forall ops,
      normal_history serialize textContent_of ops s0 = true ->
      raises serialize textContent_of ops s0 = false.
Proof.
  destruct (constructor_spec tune_icon d c api0 ro) as (s0 & Hs & _).
  exists s0. split; [exact Hs|]. intros ops.
  apply normal_history_safe, (wf_constructor _ _ _ _ _ _ Hs).
Qed.

End View.

(** * Further properties *)

Section Robustness.

Variable serialize : jsstring -> jsstring.
Variable textContent_of : jsstring -> jsstring.

Local Abbreviation step := (step serialize textContent_of).
Local Abbreviation run := (run serialize textContent_of).

(** X1. Exceptions do not break the instance: after any history, also of
    operations that threw, an operation that is normal in the state reached
    returns: a [render] when the view exists or its classes are tokens, a
    [renderSettings] when the class of the active button is a token, a
    [save] of an element of the document, a [validate] of a text that is a
    string, a [merge] of an object, an event on an element of the document
    of a rendered block, and every paste, assignment of the data, frame and
    edit. *)
Theorem usable_after_any_history tune_icon d c api0 ro s0 ops o :
  constructor tune_icon (Some d) (Some c) api0 ro = Normal s0 ->
  normal_op (run ops s0) o = true ->
  (step o (run ops s0)).2 = Normal tt.
Proof.
  intros Hc Ho. apply step_safe; [|exact Ho].
  apply wf_run, (wf_constructor _ _ _ _ _ _ Hc).
Qed.

(** X2. What the constructor takes from its parameters is never written
    again: after any history the configuration, the read-only flag, the
    api, the class table, the placeholder, the tunes and the blank-preserving
    flag are those of the construction. *)
Theorem construction_constants_kept tune_icon d c api0 ro s0 ops :
  constructor tune_icon (Some d) (Some c) api0 ro = Normal s0 ->
  let s := run ops s0 in
  config s = c /\ readOnly s = ro /\ api s = api0 /\
  _preserveBlank s = default false (preserveBlank c) /\
  _placeholder s = (if truthy (placeholder c) then placeholder c else VStr empty_string) /\
  name <$> _tunesButtons s = Static.ALIGNMENTS /\
  css_alignment (_CSS s) = (fun a => (a, lit "ce-paragraph--" ++ a)) <$> Static.ALIGNMENTS.
Proof.
  intros Hc s.
  pose proof (constants_run serialize textContent_of ops s0) as Hk.
  fold s in Hk. unfold constants in Hk.
  injection Hk as H1 H2 H3 H4 H5 H6 H7. rewrite H1, H2, H3, H4, H5, H6, H7.
  injection Hc as <-. simpl. destruct (preserveBlank c); repeat split.
Qed.

Lemma keyup_listeners_quiet s target e code :
  wf s -> document s !! target = Some e ->
  Forall quiet ((fun l => call serialize textContent_of l.2 code)
                  <$> filter (fun l => l.1 = keyup) (listeners e)).
Proof.
  intros Hwf He. apply Forall_fmap, Forall_forall. intros l Hl. simpl.
  apply list_elem_of_filter in Hl. destruct Hl as [Hty Hl].
  pose proof (wf_listeners s Hwf target e l He Hl) as Hok.
  unfold listener_ok in Hok. destruct l as [ty [|index elements]]; simpl in *.
  - apply quiet_onKeyUp.
  - destruct Hok as [Hc _]. congruence.
Qed.

(** X3. Only a paste, an assignment of the data and a click write the
    alignment: every other operation, in any state the instance can reach
    and whether it returns or throws, leaves the alignment as it was. *)
Theorem alignment_kept tune_icon d c api0 ro s0 ops o :
  constructor tune_icon (Some d) (Some c) api0 ro = Normal s0 ->
  writes_alignment o = false ->
  alignment (_data (step o (run ops s0)).1) = alignment (_data (run ops s0)).
Proof.
  intros Hc Ho. set (s := run ops s0).
  assert (Hwf : wf s) by (apply wf_run, (wf_constructor _ _ _ _ _ _ Hc)).
  assert (Hq : core (step o s).1 = core s -> 
               alignment (_data (step o s).1) = alignment (_data s)).
  { unfold core. congruence. }
  assert (Hquiet : quiet (step o) -> alignment (_data (step o s).1) = alignment (_data s)).
  { intros Hm. apply Hq, Hm. }
  destruct o; try discriminate; simpl in Ho.
  - rewrite step_Render. apply render_core.
  - apply Hquiet. simpl. quiet_tac.
  - apply Hquiet. simpl. quiet_tac.
  - apply Hquiet. simpl. apply quiet_merge.
  - apply Hquiet. simpl. quiet_tac.
  - destruct ty; [|discriminate]. apply Hq. simpl.
    unfold dispatchEvent, bind, deref.
    destruct (document s !! target) as [e|] eqn:He; [|reflexivity].
    apply quiet_run_all. exact (keyup_listeners_quiet s target e code Hwf He).
  - apply Hquiet. simpl. quiet_tac.
  - apply Hquiet. simpl. quiet_tac.
Qed.

End Robustness.

(** ** The data, the view and the frames *)

Lemma current_text_view s n e :
  _element s = Some n -> document s !! n = Some e ->
  current_text s = VStr (innerHTML (document s) e).
Proof. intros Hn He. unfold current_text. rewrite Hn, He. reflexivity. Qed.

Lemma ToString_text_or_empty t :
  ToString (js_or (VStr t) (VStr empty_string)) = t.
Proof. destruct t; reflexivity. Qed.

Lemma data_eta (d : ParagraphData) : mkData (text d) (alignment d) = d.
Proof. destruct d; reflexivity. Qed.

Lemma set_data_frames data s n :
  _element s = Some n ->
  animationFrames (set_data data s).1 = S (animationFrames s).
Proof.
  intros Hn. unfold set_data, bind, modify, gets, hydrate. simpl. rewrite Hn. reflexivity.
Qed.

Lemma frame_hydrates serialize s n :
  wf s -> _element s = Some n -> animationFrames s <> 0%nat ->
  exists s',
    animationFrame serialize s = (s', Normal tt) /\
    wf s' /\ _data s' = _data s /\ _element s' = Some n /\
    current_text s' =
      VStr (serialize (ToString (js_or (text (_data s)) (VStr empty_string)))).
Proof.
  intros Hwf Hn Hf.
  destruct (wf_view s Hwf n Hn) as (e & He & _).
  destruct (animationFrames s) as [|k] eqn:Hk; [congruence|].
  destruct (run_hydrate_callbacks serialize k (with_animationFrames 0 s) n e Hn He)
    as (s' & Hrun & Hd & e' & He' & Hh).
  assert (Hfr : animationFrame serialize s = (s', Normal tt)).
  { unfold animationFrame, bind, gets, modify. rewrite Hk. exact Hrun. }
  pose proof (gentle_animationFrame serialize s) as Hext. rewrite Hfr in Hext.
  simpl in Hext.
  assert (Hn' : _element s' = Some n) by (rewrite (ext_element _ _ Hext); exact Hn).
  exists s'. split; [exact Hfr|]. split; [exact (wf_extends _ _ Hext Hwf)|].
  split; [exact Hd|]. split; [exact Hn'|].
  rewrite (current_text_view s' n e' Hn' He'), Hh. reflexivity.
Qed.

Lemma save_view_spec s view e :
  wf s -> _element s = Some view -> document s !! view = Some e ->
  exists s',
    save (Some view) s
      = (s', Normal (mkData (VStr (innerHTML (document s) e)) (alignment (_data s)))) /\
    wf s' /\
    _data s' = mkData (VStr (innerHTML (document s) e)) (alignment (_data s)) /\
    document s' = document s /\ _element s' = Some view /\
    animationFrames s' = animationFrames s.
Proof.
  intros Hwf Hn He. unfold save.
  rewrite (bind_normal _ _ _ _ _ (read_innerHTML_valid s view e He)). unfold bind.
  destruct (get_data_wf s Hwf) as (s1 & Hg & Ha & Ht & Hc & Hdoc & Hfr). rewrite Hg.
  pose proof (gentle_get_data s) as Hext. rewrite Hg in Hext. simpl in Hext.
  exists s1. unfold ret. rewrite Ha. split; [reflexivity|].
  split; [exact (wf_extends _ _ Hext Hwf)|].
  rewrite (current_text_view s view e Hn He) in Ht.
  split; [rewrite <- Ht, <- Ha; symmetry; apply data_eta|].
  split; [exact Hdoc|]. split; [|exact Hfr].
  rewrite (ext_element _ _ Hext). exact Hn.
Qed.

Section Hydration.

Variable serialize : jsstring -> jsstring.
Variable textContent_of : jsstring -> jsstring.

Local Abbreviation run := (run serialize textContent_of).

(** X4. [save] reads the live view: on a rendered instance in any state it
    can reach, [save] of the view returns the view's markup with the
    instance's alignment, stores that markup as the data's text, and leaves
    the document, the view and the awaited frames as they are. *)
Theorem save_reads_view tune_icon d c api0 ro s0 ops view e :
  constructor tune_icon (Some d) (Some c) api0 ro = Normal s0 ->
  let s := run ops s0 in
  _element s = Some view ->
  document s !! view = Some e ->
  exists s',
    save (Some view) s
      = (s', Normal (mkData (VStr (innerHTML (document s) e)) (alignment (_data s)))) /\
    _data s' = mkData (VStr (innerHTML (document s) e)) (alignment (_data s)) /\
    document s' = document s /\ _element s' = Some view /\
    animationFrames s' = animationFrames s.
Proof.
  intros Hc s Hn He.
  assert (Hwf : wf s) by (apply wf_run, (wf_constructor _ _ _ _ _ _ Hc)).
  destruct (save_view_spec s view e Hwf Hn He) as (s' & H1 & _ & H2).
  exists s'. split; [exact H1|exact H2].
Qed.

(** X5. A paste reaches the view with the next frame: on a rendered
    instance, after [onPaste] and the frame, the view holds what the browser
    reads back for the pasted markup, and the data hold the pasted markup
    and alignment. *)
Theorem paste_shown_after_frame tune_icon d c api0 ro s0 ops view event :
  constructor tune_icon (Some d) (Some c) api0 ro = Normal s0 ->
  let s := run ops s0 in
  _element s = Some view ->
  let s1 := (onPaste event s).1 in
  exists s2,
    animationFrame serialize s1 = (s2, Normal tt) /\
    current_text s2 = VStr (serialize (paste_innerHTML event)) /\
    _data s2 = _data s1 /\
    text (_data s1) = VStr (paste_innerHTML event).
Proof.
  intros Hc s Hn s1.
  assert (Hwf : wf s) by (apply wf_run, (wf_constructor _ _ _ _ _ _ Hc)).
  assert (Hwf1 : wf s1) by exact (wf_extends _ _ (gentle_onPaste event s) Hwf).
  assert (Hn1 : _element s1 = Some view).
  { unfold s1. rewrite (ext_element _ _ (gentle_onPaste event s)). exact Hn. }
  assert (Hf1 : animationFrames s1 <> 0%nat).
  { unfold s1, onPaste, bind, gets. rewrite (set_data_frames _ s view Hn). discriminate. }
  assert (Ht1 : text (_data s1) = VStr (paste_innerHTML event)).
  { unfold s1, onPaste, bind, gets.
    match goal with |- text (_data (set_data ?x s).1) = _ =>
      destruct (set_data_spec x s) as (Hd & _); rewrite Hd end.
    reflexivity. }
  destruct (frame_hydrates serialize s1 view Hwf1 Hn1 Hf1) as (s2 & Hfr & _ & Hd & _ & Hct).
  exists s2. split; [exact Hfr|]. split; [|split; [exact Hd|exact Ht1]].
  rewrite Hct, Ht1, ToString_text_or_empty. reflexivity.
Qed.

End Hydration.

Lemma merge_view_spec s view e incoming :
  wf s -> _element s = Some view -> document s !! view = Some e ->
  exists s',
    merge (Some incoming) s = (s', Normal tt) /\
    wf s' /\ _element s' = Some view /\
    animationFrames s' <> 0%nat /\
    _data s' = mkData (js_add (VStr (innerHTML (document s) e)) (text incoming)) (alignment (_data s)).
Proof.
  intros Hwf Hn He.
  destruct (merge_spec s incoming Hwf) as (s' & Hm & Hd).
  pose proof (gentle_merge (Some incoming) s) as Hext. rewrite Hm in Hext. simpl in Hext.
  assert (Hn' : _element s' = Some view) by (rewrite (ext_element _ _ Hext); exact Hn).
  exists s'. split; [exact Hm|]. split; [exact (wf_extends _ _ Hext Hwf)|].
  split; [exact Hn'|]. split.
  - (* the setter that ends [merge] asks for a frame *)
    revert Hm. unfold merge, bind.
    destruct (get_data s) as [s1 [d1|ex]]; [|discriminate]. simpl.
    destruct (get_data s1) as [s2 [d2|ex]] eqn:Hg2; [|discriminate].
    intros Hs.
    assert (Hn2 : _element s2 = Some view).
    { pose proof (gentle_set_data
        (Some (mkData (js_add (text d1) (text incoming)) (alignment d2))) s2) as Hx.
      rewrite Hs in Hx. simpl in Hx. rewrite <- (ext_element _ _ Hx). exact Hn'. }
    pose proof (set_data_frames
      (Some (mkData (js_add (text d1) (text incoming)) (alignment d2))) s2 view Hn2) as Hf.
    rewrite Hs in Hf. simpl in Hf. rewrite Hf. discriminate.
  - rewrite Hd, (current_text_view s view e Hn He). reflexivity.
Qed.

Section Composition.

Variable serialize : jsstring -> jsstring.
Variable textContent_of : jsstring -> jsstring.

Local Abbreviation run := (run serialize textContent_of).

(** X6. A merge reaches the view with the next frame: on a rendered
    instance whose view holds the markup [h], after the [merge] of data
    whose text is the string [t] and the frame, the view holds what the
    browser reads back for [h] followed by [t], and the alignment is the
    one before the merge. *)
Theorem merge_shown_after_frame tune_icon d c api0 ro s0 ops view e incoming t :
  constructor tune_icon (Some d) (Some c) api0 ro = Normal s0 ->
  let s := run ops s0 in
  _element s = Some view ->
  document s !! view = Some e ->
  text incoming = VStr t ->
  exists s1 s2,
    merge (Some incoming) s = (s1, Normal tt) /\
    animationFrame serialize s1 = (s2, Normal tt) /\
    current_text s2 = VStr (serialize (innerHTML (document s) e ++ t)) /\
    alignment (_data s2) = alignment (_data s).
Proof.
  intros Hc s Hn He Ht.
  assert (Hwf : wf s) by (apply wf_run, (wf_constructor _ _ _ _ _ _ Hc)).
  destruct (merge_view_spec s view e incoming Hwf Hn He)
    as (s1 & Hm & Hwf1 & Hn1 & Hf1 & Hd1).
  destruct (frame_hydrates serialize s1 view Hwf1 Hn1 Hf1) as (s2 & Hfr & _ & Hd & _ & Hct).
  exists s1, s2. split; [exact Hm|]. split; [exact Hfr|].
  rewrite Hct, Hd, Hd1, Ht. simpl. rewrite ToString_text_or_empty. auto.
Qed.

(** X7. A [save] between a paste and the frame undoes the paste of the
    text: [save] copies the markup the view still holds over the pasted
    text, so the frame writes the old markup back; only the pasted
    alignment stays. *)
Theorem save_before_frame_reverts_paste tune_icon d c api0 ro s0 ops view e event :
  constructor tune_icon (Some d) (Some c) api0 ro = Normal s0 ->
  let s := run ops s0 in
  _element s = Some view ->
  document s !! view = Some e ->
  let s1 := (onPaste event s).1 in
  exists s2 s3,
    save (Some view) s1
      = (s2, Normal (mkData (VStr (innerHTML (document s) e)) (alignment (_data s1)))) /\
    animationFrame serialize s2 = (s3, Normal tt) /\
    current_text s3 = VStr (serialize (innerHTML (document s) e)) /\
    _data s3 = mkData (VStr (innerHTML (document s) e)) (alignment (_data s1)).
Proof.
  intros Hc s Hn He s1.
  assert (Hwf : wf s) by (apply wf_run, (wf_constructor _ _ _ _ _ _ Hc)).
  assert (Hwf1 : wf s1) by exact (wf_extends _ _ (gentle_onPaste event s) Hwf).
  assert (Hn1 : _element s1 = Some view).
  { unfold s1. rewrite (ext_element _ _ (gentle_onPaste event s)). exact Hn. }
  assert (Hf1 : animationFrames s1 <> 0%nat).
  { unfold s1, onPaste, bind, gets. rewrite (set_data_frames _ s view Hn). discriminate. }
  assert (Hdoc1 : document s1 = document s).
  { unfold s1, onPaste, bind, gets.
    match goal with |- document (set_data ?x s).1 = _ =>
      destruct (set_data_spec x s) as (_ & _ & _ & Hdoc); exact Hdoc end. }
  assert (He1 : document s1 !! view = Some e) by (rewrite Hdoc1; exact He).
  destruct (save_view_spec s1 view e Hwf1 Hn1 He1)
    as (s2 & Hsave & Hwf2 & Hd2 & _ & Hn2 & Hf2).
  rewrite Hdoc1 in Hsave, Hd2.
  assert (Hf2' : animationFrames s2 <> 0%nat) by (rewrite Hf2; exact Hf1).
  destruct (frame_hydrates serialize s2 view Hwf2 Hn2 Hf2') as (s3 & Hfr & _ & Hd & _ & Hct).
  exists s2, s3. split; [exact Hsave|]. split; [exact Hfr|].
  rewrite Hct, Hd, Hd2. simpl. rewrite ToString_text_or_empty. auto.
Qed.

(** X8. [merge] and missing data: data without a text append the string
    [undefined] to a receiving string; without a data object [merge] throws,
    after the getter has stored the receiving text, and neither writes the
    alignment nor asks for a frame. *)
Theorem merge_missing_data tune_icon d c api0 ro s0 ops t1 :
  constructor tune_icon (Some d) (Some c) api0 ro = Normal s0 ->
  let s := run ops s0 in
  current_text s = VStr t1 ->
  (forall incoming, text incoming = VUndefined ->
     text (_data (merge (Some incoming) s).1) = VStr (t1 ++ lit "undefined")) /\
  (merge None s).2 = Throw TypeError /\
  _data (merge None s).1 = mkData (VStr t1) (alignment (_data s)) /\
  animationFrames (merge None s).1 = animationFrames s.
Proof.
  intros Hc s Ht1.
  assert (Hwf : wf s) by (apply wf_run, (wf_constructor _ _ _ _ _ _ Hc)).
  split.
  - intros incoming Hi. destruct (merge_spec s incoming Hwf) as (s' & Hm & Hd).
    rewrite Hm. simpl. rewrite Hd, Ht1, Hi. reflexivity.
  - unfold merge, bind.
    destruct (get_data_wf s Hwf) as (s1 & Hg & Ha & Ht & _ & _ & Hfr). rewrite Hg.
    simpl. split; [reflexivity|]. split; [|exact Hfr].
    rewrite <- Ht1, <- Ht, <- Ha. symmetry. apply data_eta.
Qed.

End Composition.

(** ** Tunes before the view exists *)

Lemma hoare_any {A} (P : State -> Prop) (m : JS A) :
  steady P -> gentle m -> hoare P m (fun _ => P) (fun _ => True).
Proof.
  intros HP Hm s Hs. specialize (Hm s).
  destruct (m s) as [s' [a|e]]; simpl in *; [exact (HP _ _ Hm Hs)|exact I].
Qed.

Lemma steady_no_view : steady (fun s => _element s = None).
Proof. intros s s' [_ e _ _ _ _] H. congruence. Qed.

Lemma toggleTune_document s tune :
  wf s -> document (_toggleTune tune s).1 = document s.
Proof.
  intros Hwf. unfold _toggleTune, bind.
  destruct (get_data_wf s Hwf) as (s1 & Hg & _ & _ & _ & Hdoc & _). rewrite Hg.
  assert (Hwf1 : wf s1).
  { pose proof (gentle_get_data s) as H. rewrite Hg in H.
    exact (wf_extends _ _ H Hwf). }
  destruct (get_data_wf s1 Hwf1) as (s2 & Hg2 & _ & _ & _ & Hdoc2 & _).
  unfold assign_alignment, bind, gets, modify.
  destruct (strict_eq (alignment (_data s1)) tune); rewrite Hg2; simpl; congruence.
Qed.

Lemma bind_throws {A B} (m : JS A) (k : A -> JS B) s s' err :
  m s = (s', Throw err) -> bind m k s = (s', Throw err).
Proof. intros H. unfold bind. rewrite H. reflexivity. Qed.

Lemma classList_toggle_missing s n token force :
  (length (document s) <= n)%nat ->
  classList_toggle (Some n) token force s = (s, Throw TypeError).
Proof.
  intros Hn. unfold classList_toggle, bind, deref.
  rewrite (lookup_ge_None_2 _ _ Hn). reflexivity.
Qed.

(** Without a view the handler of a click throws at the first button: the
    error of the active class when that is no token, a [TypeError] at the
    class list of the missing view otherwise. *)
Lemma tune_click_without_view s index el r t :
  wf s -> _element s = None -> _tunesButtons s !! index = Some t ->
  (tune_click index (el :: r) s).2 =
    Throw (if bool_decide (el < length (document s))%nat
           then default TypeError (token_error (active_token s))
           else TypeError).
Proof.
  intros Hwf Hn Ht.
  destruct (toggleTune_spec s (VStr (name t)) Hwf) as (s2 & Htog & _).
  pose proof (gentle_toggleTune (VStr (name t)) s) as Hx2.
  pose proof (toggleTune_document s (VStr (name t)) Hwf) as Hdoc2.
  rewrite Htog in Hx2, Hdoc2. simpl in Hx2, Hdoc2.
  assert (Hwf2 : wf s2) by exact (wf_extends _ _ Hx2 Hwf).
  destruct (get_data_wf s2 Hwf2) as (s3 & Hg & _ & _ & Hc3 & Hdoc3 & _).
  assert (Hk : constants s2 = constants s) by apply Hx2.
  assert (Hn3 : _element s3 = None).
  { unfold core in Hc3. rewrite <- Hn, <- (ext_element _ _ Hx2). congruence. }
  assert (Ht0 : exists t0, _tunesButtons s2 !! 0%nat = Some t0).
  { replace (_tunesButtons s2) with (_tunesButtons s) by (unfold constants in Hk; congruence).
    destruct (_tunesButtons s) as [|t0 ?]; [rewrite lookup_nil in Ht; discriminate|].
    exists t0. reflexivity. }
  destruct Ht0 as [t0 Ht0].
  assert (Hcss : _CSS s2 = _CSS s) by (unfold constants in Hk; congruence).
  unfold tune_click.
  rewrite (bind_normal _ _ s s (_tunesButtons s)) by reflexivity.
  rewrite Ht. cbn [prop].
  rewrite (bind_normal _ _ s s (name t)) by reflexivity.
  rewrite (bind_normal _ _ _ _ _ Htog).
  unfold forEach. cbn [forEach_from].
  match goal with |- (bind ?m _ s2).2 = Throw ?x =>
    assert (Hbody : exists s', m s2 = (s', Throw x));
      [|destruct Hbody as [s' Hbody]; rewrite (bind_throws _ _ _ _ _ Hbody); reflexivity]
  end.
  rewrite (bind_normal _ _ s2 s2 (_tunesButtons s2)) by reflexivity.
  rewrite Ht0. cbn [prop].
  rewrite (bind_normal _ _ s2 s2 (name t0)) by reflexivity.
  rewrite (bind_normal _ _ s2 s2 (_CSS s2)) by reflexivity.
  rewrite (bind_normal _ _ _ _ _ Hg).
  rewrite Hcss. fold (active_token s). rewrite <- Hdoc2, <- Hdoc3.
  case_bool_decide as Hel.
  - destruct (token_error (active_token s)) as [err|] eqn:Htok; cbn [default].
    + erewrite bind_throws by (apply classList_toggle_invalid; eassumption). eauto.
    + erewrite bind_normal by (apply classList_toggle_valid; assumption).
      erewrite bind_normal by (unfold gets; simpl; rewrite Hn3; reflexivity).
      erewrite bind_throws by reflexivity. eauto.
  - erewrite bind_throws by (apply classList_toggle_missing; lia). eauto.
Qed.

Lemma tune_click_never_returns index elements s :
  _element s = None -> elements <> [] ->
  exists err, (tune_click index elements s).2 = Throw err.
Proof.
  intros Hn Hne. destruct elements as [|el r]; [congruence|]. clear Hne.
  set (P := fun s => _element s = None).
  assert (HP : steady P) by exact steady_no_view.
  assert (H : hoare P (tune_click index (el :: r)) (fun _ _ => False) (fun _ => True)).
  { unfold tune_click, forEach. cbn [forEach_from].
    eapply hoare_bind with (Q := fun _ => P); [apply hoare_gets; auto|]. intros tunes.
    eapply hoare_bind with (Q := fun _ => P); [apply hoare_any; [exact HP|gentle_tac]|].
    intros clicked.
    eapply hoare_bind with (Q := fun _ => P); [apply hoare_any; [exact HP|gentle_tac]|].
    intros _.
    eapply hoare_bind with (Q := fun _ _ => False); [|intros _ ? []].
    eapply hoare_bind with (Q := fun _ => P); [apply hoare_gets; auto|]. intros tunes'.
    eapply hoare_bind with (Q := fun _ => P); [apply hoare_any; [exact HP|gentle_tac]|].
    intros nm.
    eapply hoare_bind with (Q := fun _ => P); [apply hoare_gets; auto|]. intros css.
    eapply hoare_bind with (Q := fun _ => P); [apply hoare_any; [exact HP|gentle_tac]|].
    intros d.
    eapply hoare_bind with (Q := fun _ => P); [apply hoare_any; [exact HP|gentle_tac]|].
    intros _.
    eapply hoare_bind with (Q := fun view s => view = None).
    { apply hoare_gets. auto. }
    intros view.
    eapply hoare_bind with (Q := fun _ _ => False); [|intros _ ? []].
    intros s1 ->. exact I. }
  specialize (H s Hn).
  destruct (tune_click index (el :: r) s) as [s' [[]|err]]; [contradiction|eauto].
Qed.

Lemma tune_click_alignment s index elements t :
  wf s -> _tunesButtons s !! index = Some t ->
  alignment (_data (tune_click index elements s).1)
    = (if strict_eq (alignment (_data s)) (VStr (name t))
       then defaultAlignment (config s) else VStr (name t)).
Proof.
  intros Hwf Ht.
  destruct (toggleTune_spec s (VStr (name t)) Hwf) as (s2 & Htog & Hal & _).
  rewrite <- Hal.
  unfold tune_click, bind at 1, gets. unfold bind at 1. rewrite Ht. simpl.
  unfold bind at 1. rewrite Htog.
  match goal with |- alignment (_data (?m s2).1) = _ =>
    assert (Hq : core (m s2).1 = core s2)
      by (apply quiet_forEach_from; intros; quiet_tac)
  end.
  unfold core in Hq. congruence.
Qed.

Lemma reachable_tune tune_icon d c api0 ro s0 s i a :
  constructor tune_icon (Some d) (Some c) api0 ro = Normal s0 ->
  constants s = constants s0 ->
  Static.ALIGNMENTS !! i = Some a ->
  exists t, _tunesButtons s !! i = Some t /\ name t = a.
Proof.
  intros Hc Hk Hi. injection Hc as <-. unfold constants in Hk.
  injection Hk as _ _ _ _ _ Ht _. rewrite Ht. simpl.
  destruct i as [|[|[|[|i]]]]; simpl in Hi; try discriminate;
    injection Hi as <-; eexists; split; reflexivity.
Qed.

Section Unrendered.

Variable serialize : jsstring -> jsstring.
Variable textContent_of : jsstring -> jsstring.

Local Abbreviation run := (run serialize textContent_of).

(** X9. A click on a tune before the block is rendered throws, after it has
    written the alignment: the handler toggles the alignment first, and
    then, at the first button, throws the error of the class of the active
    button when that class is no token, and a [TypeError] otherwise, when
    it reaches for the class list of a view that does not exist. *)
Theorem tune_click_before_render tune_icon d c api0 ro s0 ops i a elements :
  constructor tune_icon (Some d) (Some c) api0 ro = Normal s0 ->
  let s := run ops s0 in
  _element s = None ->
  Static.ALIGNMENTS !! i = Some a ->
  elements <> [] ->
  (exists err, (tune_click i elements s).2 = Throw err) /\
  (token_error (ToString (styles_settingsButtonActive api0)) = None ->
     (tune_click i elements s).2 = Throw TypeError) /\
  (forall el err,
     head elements = Some el -> (el < length (document s))%nat ->
     token_error (ToString (styles_settingsButtonActive api0)) = Some err ->
     (tune_click i elements s).2 = Throw err) /\
  alignment (_data (tune_click i elements s).1)
    = (if bool_decide (alignment (_data s) = VStr a)
       then defaultAlignment c else VStr a).
Proof.
  intros Hc s Hn Hi Hne.
  assert (Hwf : wf s) by (apply wf_run, (wf_constructor _ _ _ _ _ _ Hc)).
  pose proof (constants_run serialize textContent_of ops s0) as Hk. fold s in Hk.
  destruct (reachable_tune _ _ _ _ _ _ s i a Hc Hk Hi) as (t & Ht & <-).
  assert (Hact : active_token s = ToString (styles_settingsButtonActive api0)).
  { unfold active_token. replace (_CSS s) with (_CSS s0)
      by (unfold constants in Hk; congruence).
    injection Hc as <-. reflexivity. }
  split; [exact (tune_click_never_returns i elements s Hn Hne)|].
  split; [|split].
  - intros Htok. destruct elements as [|el r]; [congruence|].
    rewrite (tune_click_without_view s i el r t Hwf Hn Ht), Hact, Htok.
    destruct (bool_decide _); reflexivity.
  - intros el err Hel Hlt Htok. destruct elements as [|el' r]; [congruence|].
    injection Hel as ->.
    rewrite (tune_click_without_view s i el r t Hwf Hn Ht), Hact, Htok.
    rewrite bool_decide_eq_true_2 by exact Hlt. reflexivity.
  - 
  rewrite (tune_click_alignment s i elements t Hwf Ht), strict_eq_str.
  replace (config s) with c; [reflexivity|].
  unfold constants in Hk. injection Hc as <-. injection Hk as _ _ Hcfg _ _ _ _.
  rewrite Hcfg. reflexivity.
Qed.

End Unrendered.

(** ** The element [drawView] builds *)

Lemma drawView_element s :
  tokens_error (view_tokens s) = None ->
  exists div,
    drawView s = (with_document (document s ++ [div]) s, Normal (length (document s))) /\
    tagName div = lit "DIV" /\
    classList div = foldl (fun l t => add_token t l) [] (view_tokens s) /\
    dataset_placeholder div = Some (ToString (i18n_t (api s) (_placeholder s))) /\
    children div = [].
Proof.
  intros Htok. unfold drawView, addEventListener.
  do 3 run_bind.
  erewrite bind_normal by (apply classList_add_last; [reflexivity|exact Htok]).
  do 5 run_bind.
  cbn [readOnly with_document].
  destruct (readOnly s) eqn:Hro; cbn [negb].
  - run_bind. eexists. split; [reflexivity|]. repeat split.
  - erewrite bind_normal; [|run_bind; apply update_last; reflexivity].
    eexists. split; [reflexivity|]. repeat split.
Qed.

(** The alignment table has the four classes of its own and, like every
    plain object, the members of [Object.prototype]. *)
Lemma lookup_class_alignment (v : value) :
  lookup_class ((fun a => (a, lit "ce-paragraph--" ++ a)) <$> Static.ALIGNMENTS) v
    = (if is_alignment v then PValue (VStr (lit "ce-paragraph--" ++ ToString v))
       else inherited (ToString v)).
Proof.
  assert (H : forall s,
    lookup_class ((fun a => (a, lit "ce-paragraph--" ++ a)) <$> Static.ALIGNMENTS) (VStr s)
      = (if bool_decide (s ∈ Static.ALIGNMENTS)
         then PValue (VStr (lit "ce-paragraph--" ++ s)) else inherited s)).
  { intros s.
    unfold lookup_class, Static.ALIGNMENTS. cbn [ToString fmap list_fmap].
    destruct (decide (s = lit "left")) as [->|H1]; [reflexivity|].
    destruct (decide (s = lit "center")) as [->|H2]; [reflexivity|].
    destruct (decide (s = lit "right")) as [->|H3]; [reflexivity|].
    destruct (decide (s = lit "justify")) as [->|H4]; [reflexivity|].
    rewrite bool_decide_eq_false_2.
    - cbn [list_find]. cbn [fst].
      repeat (rewrite decide_False by congruence; cbn [fmap option_fmap option_map]).
      reflexivity.
    - rewrite !elem_of_cons, elem_of_nil. tauto. }
  destruct v as [| |s]; [reflexivity|reflexivity|]. exact (H s).
Qed.

(** The string of an inherited member is no token: the source text of a
    function and [[object Object]] have white space. *)
Lemma inherited_member_error k :
  k ∈ lit "__proto__" :: Object_prototype_methods.*1 ->
  is_alignment (VStr k) = false /\
  token_error (property_string (inherited k)) = Some InvalidCharacterError.
Proof.
  intros H. unfold Object_prototype_methods in H. cbn [fmap list_fmap fst] in H.
  repeat (apply elem_of_cons in H as [->|H]; [split; vm_compute; reflexivity|]).
  apply elem_of_nil in H. contradiction.
Qed.

Section FirstRender.

Variable serialize : jsstring -> jsstring.
Variable textContent_of : jsstring -> jsstring.

Local Abbreviation run := (run serialize textContent_of).

(** X10. A first [render], in any state the instance can reach before it.
    The classes of the view are [ce-paragraph], the host's block class and
    what the alignment table holds under the data's alignment: the class of
    the alignment when it is one of the four, the string of the inherited
    member otherwise, which is [undefined] where [Object.prototype] has no
    such member, for instance for a missing alignment, whatever default the
    configuration names.  When one of the three is no token, [render] throws
    the error of the first such, keeps no view and leaves the new element in
    the document; so it does, with an [InvalidCharacterError], when the
    alignment names a member of [Object.prototype] and the block class is a
    token.  Otherwise it returns a [DIV] with no children and no markup yet,
    whose placeholder is the translation of the configured placeholder (of
    the empty string when there is none), and whose classes are the three. *)
Theorem first_render_builds_view tune_icon d c api0 ro s0 ops :
  constructor tune_icon (Some d) (Some c) api0 ro = Normal s0 ->
  let s := run ops s0 in
  _element s = None ->
  let third :=
    if is_alignment (alignment (_data s))
    then lit "ce-paragraph--" ++ ToString (alignment (_data s))
    else property_string (inherited (ToString (alignment (_data s)))) in
  let tokens := [lit "ce-paragraph"; ToString (styles_block api0); third] in
  match tokens_error tokens with
  | Some err =>
      render s =
        (with_document (document s ++ [new_element (lit "DIV")]) s, Throw err)
  | None =>
      exists e,
        render s =
          (with_animationFrames (S (animationFrames s))
             (with_element (Some (length (document s)))
                (with_document (document s ++ [e]) s)),
           Normal (Some (length (document s)))) /\
        tagName e = lit "DIV" /\ children e = [] /\
        (forall doc, innerHTML doc e = empty_string) /\
        dataset_placeholder e =
          Some (ToString (i18n_t api0 (if truthy (placeholder c) then placeholder c
                                       else VStr empty_string))) /\
        classList e = foldl (fun l t => add_token t l) [] tokens
  end /\
  (is_alignment (alignment (_data s)) = false ->
   inherited (ToString (alignment (_data s))) = PValue VUndefined ->
   third = lit "undefined") /\
  (forall k,
     alignment (_data s) = VStr k ->
     k ∈ lit "__proto__" :: Object_prototype_methods.*1 ->
     token_error (ToString (styles_block api0)) = None ->
     (render s).2 = Throw InvalidCharacterError).
Proof.
  intros Hc s Hn third tokens.
  pose proof (constants_run serialize textContent_of ops s0) as Hk. fold s in Hk.
  assert (Hconst : api s = api0 /\
            _placeholder s = (if truthy (placeholder c) then placeholder c
                              else VStr empty_string) /\
            _CSS s = mkCSS (styles_block api0) (VStr (lit "ce-paragraph"))
                       (styles_settingsButtonActive api0)
                       ((fun a => (a, lit "ce-paragraph--" ++ a)) <$> Static.ALIGNMENTS)).
  { unfold constants in Hk. injection Hk as H1 _ _ H4 H5 _ _. rewrite H1, H4, H5.
    injection Hc as <-. repeat split. }
  destruct Hconst as (Hapi & Hph & Hcss).
  assert (Hvt : view_tokens s = tokens).
  { unfold view_tokens, tokens, third. rewrite Hcss.
    cbn [css_wrapper css_block css_alignment]. rewrite lookup_class_alignment.
    destruct (is_alignment (alignment (_data s))); reflexivity. }
  split; [|split].
  - destruct (tokens_error tokens) as [err|] eqn:Htok.
    + apply (render_throws s err Hn). rewrite Hvt. exact Htok.
    + rewrite <- Hvt in Htok.
      destruct (drawView_element s Htok) as (e & Hd & Htag & Hcl & Hp & Hch).
      exists e. split.
      { unfold render. run_bind. rewrite Hn.
        erewrite bind_normal; [|erewrite bind_normal by exact Hd; reflexivity].
        reflexivity. }
      split; [exact Htag|]. split; [exact Hch|].
      split; [intros doc; apply innerHTML_no_children; exact Hch|].
      split; [rewrite Hp, Hapi, Hph; reflexivity|].
      rewrite Hcl, Hvt. reflexivity.
  - intros Hal Hinh. unfold third. rewrite Hal, Hinh. reflexivity.
  - intros k Hak Hmem Hblock.
    destruct (inherited_member_error k Hmem) as (Hal & Herr).
    assert (Htok : tokens_error (view_tokens s) = Some InvalidCharacterError).
    { rewrite Hvt. unfold tokens, third. rewrite Hak, Hal. cbn [ToString tokens_error].
      rewrite Hblock, Herr. reflexivity. }
    rewrite (render_throws s _ Hn Htok). reflexivity.
Qed.

End FirstRender.

(** ** Key events *)

Lemma state_eta s : with_document (document s) s = s.
Proof. destruct s; reflexivity. Qed.

Lemma onKeyUp_spec serialize textContent_of s view e code :
  _element s = Some view -> document s !! view = Some e ->
  onKeyUp serialize textContent_of code s =
    (if (bool_decide (code = lit "Backspace") || bool_decide (code = lit "Delete"))
        && bool_decide (textContent_of (innerHTML (document s) e) = empty_string)
     then with_document
            (alter (with_innerHTML (serialize empty_string)) view (document s)) s
     else s,
     Normal tt).
Proof.
  intros Hn He. unfold onKeyUp.
  destruct (decide (code = lit "Backspace")) as [->|H1].
  - simpl. unfold read_innerHTML, bind, gets, deref. rewrite Hn, He.
    case_bool_decide; simpl; [|reflexivity].
    unfold set_innerHTML. apply update_valid. exact (lookup_lt_Some _ _ _ He).
  - destruct (decide (code = lit "Delete")) as [->|H2].
    + simpl. unfold read_innerHTML, bind, gets, deref. rewrite Hn, He.
      case_bool_decide; simpl; [|reflexivity].
      unfold set_innerHTML. apply update_valid. exact (lookup_lt_Some _ _ _ He).
    + rewrite !(bool_decide_eq_true_2 (code ≠ _)) by assumption.
      rewrite !(bool_decide_eq_false_2 (code = _)) by assumption. reflexivity.
Qed.

Lemma all_equal_replicate {A} (x : A) (l : list A) :
  Forall (fun y => y = x) l -> l = replicate (length l) x.
Proof. induction 1 as [|y r -> _ IH]; simpl; [reflexivity|]. f_equal. exact IH. Qed.

Lemma run_all_fixed (m : JS unit) s n :
  m s = (s, Normal tt) -> run_all (replicate n m) s = (s, Normal tt).
Proof.
  intros Hm. induction n as [|n IH]; simpl; [reflexivity|].
  rewrite Hm, IH. reflexivity.
Qed.

Lemma alter_innerHTML_twice h view (l : list Element) :
  alter (with_innerHTML h) view (alter (with_innerHTML h) view l)
    = alter (with_innerHTML h) view l.
Proof.
  rewrite list_alter_alter_eq. apply list_alter_ext; [|reflexivity].
  intros e _. reflexivity.
Qed.

Section KeyEvents.

Variable serialize : jsstring -> jsstring.
Variable textContent_of : jsstring -> jsstring.

Local Abbreviation run := (run serialize textContent_of).

Lemma keyup_listeners_of_view s view e :
  wf s -> readOnly s = false -> _element s = Some view ->
  document s !! view = Some e ->
  exists k, filter (fun l => l.1 = keyup) (listeners e)
            = replicate (S k) (keyup, OnKeyUp).
Proof.
  intros Hwf Hro Hn He.
  set (ls := filter (fun l => l.1 = keyup) (listeners e)).
  assert (Hall : Forall (fun l => l = (keyup, OnKeyUp)) ls).
  { apply Forall_forall. intros l Hl. apply list_elem_of_filter in Hl.
    destruct Hl as [Hty Hl].
    pose proof (wf_listeners s Hwf view e l He Hl) as Hok.
    unfold listener_ok in Hok. destruct l as [ty [|index elements]]; simpl in *.
    - subst ty. reflexivity.
    - destruct Hok as [Hc _]. congruence. }
  assert (Hin : (keyup, OnKeyUp) ∈ ls).
  { apply list_elem_of_filter. split; [reflexivity|].
    destruct (wf_view s Hwf view Hn) as (e' & He' & _ & Hk).
    assert (e' = e) by congruence. subst e'. exact (Hk Hro). }
  rewrite (all_equal_replicate _ ls Hall).
  destruct (length ls) as [|k] eqn:Hlen; [|eauto].
  apply length_zero_iff_nil in Hlen. rewrite Hlen in Hin. inversion Hin.
Qed.

(** X11. A key event on the view of an editable instance, in any state it
    can reach: the release of a key other than Backspace and Delete changes
    nothing; the release of Backspace or Delete changes nothing either while
    the view has text content, and otherwise replaces the view's markup by
    the empty markup and touches nothing else.  It never throws. *)
Theorem keyup_clears_empty_view tune_icon d c api0 s0 ops view e code :
  constructor tune_icon (Some d) (Some c) api0 false = Normal s0 ->
  let s := run ops s0 in
  _element s = Some view ->
  document s !! view = Some e ->
  dispatchEvent serialize textContent_of view keyup code s =
    (if (bool_decide (code = lit "Backspace") || bool_decide (code = lit "Delete"))
        && bool_decide (textContent_of (innerHTML (document s) e) = empty_string)
     then with_document
            (alter (with_innerHTML (serialize empty_string)) view (document s)) s
     else s,
     Normal tt).
Proof.
  intros Hc s Hn He.
  assert (Hwf : wf s) by (apply wf_run, (wf_constructor _ _ _ _ _ _ Hc)).
  assert (Hro : readOnly s = false).
  { pose proof (constants_run serialize textContent_of ops s0) as Hk. fold s in Hk.
    unfold constants in Hk. injection Hk as _ H2 _ _ _ _ _. rewrite H2.
    injection Hc as <-. reflexivity. }
  destruct (keyup_listeners_of_view s view e Hwf Hro Hn He) as (k & Hls).
  unfold dispatchEvent, bind, deref. rewrite He, Hls, fmap_replicate.
  cbn [snd call].
  pose proof (onKeyUp_spec serialize textContent_of s view e code Hn He) as Hfirst.
  destruct ((bool_decide (code = lit "Backspace") || bool_decide (code = lit "Delete"))
            && bool_decide (textContent_of (innerHTML (document s) e) = empty_string)) eqn:Hclear.
  - cbn [replicate run_all]. rewrite Hfirst.
    set (s1 := with_document _ s).
    assert (Hn1 : _element s1 = Some view) by exact Hn.
    assert (He1 : document s1 !! view
                  = Some (with_innerHTML (serialize empty_string) e)).
    { unfold s1. cbn [document with_document]. rewrite list_lookup_alter_eq, He.
      reflexivity. }
    assert (Hfix : onKeyUp serialize textContent_of code s1 = (s1, Normal tt)).
    { rewrite (onKeyUp_spec serialize textContent_of s1 view _ code Hn1 He1).
      match goal with |- (if ?b then _ else _, _) = _ => destruct b end;
        [|reflexivity].
      f_equal. unfold s1. cbn [document with_document].
      rewrite alter_innerHTML_twice. reflexivity. }
    rewrite (run_all_fixed _ s1 k Hfix). reflexivity.
  - apply run_all_fixed. exact Hfirst.
Qed.

(** X12. Key events are handled on the view of an editable instance only:
    in any state the instance can reach, the release of a key on an element
    of a read-only instance, or on an element that is not the view, runs no
    listener and changes nothing. *)
Theorem keyup_ignored tune_icon d c api0 ro s0 ops target e code :
  constructor tune_icon (Some d) (Some c) api0 ro = Normal s0 ->
  let s := run ops s0 in
  document s !! target = Some e ->
  ro = true \/ _element s <> Some target ->
  dispatchEvent serialize textContent_of target keyup code s = (s, Normal tt).
Proof.
  intros Hc s He Hcase.
  assert (Hwf : wf s) by (apply wf_run, (wf_constructor _ _ _ _ _ _ Hc)).
  assert (Hro : readOnly s = ro).
  { pose proof (constants_run serialize textContent_of ops s0) as Hk. fold s in Hk.
    unfold constants in Hk. injection Hk as _ H2 _ _ _ _ _. rewrite H2.
    injection Hc as <-. reflexivity. }
  unfold dispatchEvent, bind, deref. rewrite He.
  rewrite filter_none; [reflexivity|].
  apply Forall_forall. intros l Hl Hty.
  pose proof (wf_listeners s Hwf target e l He Hl) as Hok.
  unfold listener_ok in Hok. destruct l as [ty [|index elements]]; simpl in *.
  - destruct Hok as (_ & Hview & Hedit). destruct Hcase as [->|Hne]; congruence.
  - destruct Hok as [Hclick _]. congruence.
Qed.

End KeyEvents.

(** ** The marks of a click *)

Lemma tune_click_unfold index elements :
  tune_click index elements =
    (tunes <- gets _tunesButtons ;;
     clicked <- prop name (tunes !! index) ;;
     _toggleTune (VStr clicked) ;;;
     forEach mark_tune elements).
Proof. reflexivity. Qed.

Lemma elem_of_toggle_token t force l t' :
  t' ∈ toggle_token t force l <-> (t' = t /\ force = true) \/ (t' <> t /\ t' ∈ l).
Proof.
  unfold toggle_token, add_token. destruct force.
  - case_bool_decide as Hin.
    + destruct (decide (t' = t)) as [->|Hne]; [tauto|]. tauto.
    + rewrite elem_of_app, list_elem_of_singleton.
      destruct (decide (t' = t)) as [->|Hne]; tauto.
  - rewrite list_elem_of_filter. split.
    + intros [H1 H2]. right. auto.
    + intros [[_ H]|[H1 H2]]; [discriminate|auto].
Qed.

Lemma gentle_mark_tune el i : gentle (mark_tune el i).
Proof. unfold mark_tune. gentle_tac. Qed.

Lemma quiet_mark_tune el i : quiet (mark_tune el i).
Proof. unfold mark_tune. quiet_tac. Qed.

Lemma mark_tune_spec s view el i t :
  wf s -> _element s = Some view -> (el < length (document s))%nat ->
  _tunesButtons s !! i = Some t ->
  token_error (active_token s) = None ->
  exists s',
    mark_tune el i s = (s', Normal tt) /\
    document s' =
      alter (fun e => with_classList
               (toggle_token
                  (property_string (lookup_class (css_alignment (_CSS s)) (VStr (name t))))
                  (strict_eq (VStr (name t)) (alignment (_data s)))
                  (classList e)) e) view
        (alter (fun e => with_classList
                  (toggle_token
                     (ToString (css_settingsButtonActive (_CSS s)))
                     (strict_eq (VStr (name t)) (alignment (_data s)))
                     (classList e)) e) el (document s)).
Proof.
  intros Hwf Hn Hel Ht Hactive.
  assert (Hclass : token_error (property_string
            (lookup_class (css_alignment (_CSS s)) (VStr (name t)))) = None).
  { pose proof (wf_classes s Hwf) as H. rewrite Forall_forall in H.
    apply H, list_elem_of_lookup. eauto. }
  unfold active_token in Hactive.
  destruct (get_data_wf s Hwf) as (s1 & Hg1 & Ha1 & _ & Hc1 & Hd1 & _).
  assert (Hwf1 : wf s1).
  { pose proof (gentle_get_data s) as H. rewrite Hg1 in H. exact (wf_extends _ _ H Hwf). }
  assert (Hn1 : _element s1 = Some view) by (unfold core in Hc1; congruence).
  set (gb := fun e => with_classList
                  (toggle_token
                     (ToString (css_settingsButtonActive (_CSS s)))
                     (strict_eq (VStr (name t)) (alignment (_data s)))
                     (classList e)) e).
  set (gv := fun e => with_classList
               (toggle_token
                  (property_string (lookup_class (css_alignment (_CSS s)) (VStr (name t))))
                  (strict_eq (VStr (name t)) (alignment (_data s)))
                  (classList e)) e).
  set (s2 := with_document (alter gb el (document s1)) s1).
  assert (Hu2 : classList_toggle (Some el) (ToString (css_settingsButtonActive (_CSS s)))
                  (strict_eq (VStr (name t)) (alignment (_data s1))) s1
                = (s2, Normal tt)).
  { rewrite Ha1. apply classList_toggle_valid; [rewrite Hd1; exact Hel|exact Hactive]. }
  assert (Hwf2 : wf s2).
  { pose proof (gentle_classList_toggle (Some el)
                  (ToString (css_settingsButtonActive (_CSS s)))
                  (strict_eq (VStr (name t)) (alignment (_data s1))) s1) as H.
    rewrite Hu2 in H. exact (wf_extends _ _ H Hwf1). }
  assert (Hn2 : _element s2 = Some view) by exact Hn1.
  destruct (wf_view s2 Hwf2 view Hn2) as (ev & Hev & _).
  destruct (get_data_wf s2 Hwf2) as (s3 & Hg3 & Ha3 & _ & Hc3 & Hd3 & _).
  assert (Ha3' : alignment (_data s3) = alignment (_data s)).
  { rewrite Ha3. exact Ha1. }
  set (s4 := with_document (alter gv view (document s3)) s3).
  assert (Hu4 : classList_toggle (Some view)
                  (property_string (lookup_class (css_alignment (_CSS s)) (VStr (name t))))
                  (strict_eq (VStr (name t)) (alignment (_data s3))) s3
                = (s4, Normal tt)).
  { rewrite Ha3'. apply classList_toggle_valid; [|exact Hclass]. rewrite Hd3.
    exact (lookup_lt_Some _ _ _ Hev). }
  exists s4. split.
  - unfold mark_tune.
    erewrite bind_normal by reflexivity.
    erewrite bind_normal by (rewrite Ht; reflexivity).
    erewrite bind_normal by reflexivity.
    erewrite bind_normal by exact Hg1.
    erewrite bind_normal by exact Hu2.
    erewrite bind_normal by reflexivity.
    erewrite bind_normal by (unfold deref; rewrite Hn2, Hev; reflexivity).
    erewrite bind_normal by exact Hg3.
    rewrite Hn2. exact Hu4.
  - unfold s4. cbn [document with_document]. rewrite Hd3. unfold s2.
    cbn [document with_document]. rewrite Hd1. reflexivity.
Qed.

Lemma hoare_forEach_indexed {A} (I : nat -> State -> Prop) (f : A -> nat -> JS unit) E
    (whole : list A) :
  (forall x i, whole !! i = Some x -> hoare (I i) (f x i) (fun _ => I (S i)) E) ->
  hoare (I 0%nat) (forEach f whole) (fun _ => I (length whole)) E.
Proof.
  intros Hf.
  assert (H : forall l i, (i + length l = length whole)%nat -> drop i whole = l ->
            hoare (I i) (forEach_from i f l) (fun _ => I (length whole)) E).
  { induction l as [|x r IH]; intros i Hlen Hd; simpl.
    - apply hoare_ret. simpl in Hlen. intros s Hs.
      replace (length whole) with i by lia. exact Hs.
    - eapply hoare_bind.
      + apply Hf. rewrite <- (Nat.add_0_r i), <- lookup_drop, Hd. reflexivity.
      + intros ?. apply IH; [simpl in Hlen; lia|].
        rewrite <- Nat.add_1_r, <- drop_drop, Hd. reflexivity. }
  apply (H whole 0%nat); reflexivity.
Qed.

Lemma strict_eq_true nm v : strict_eq (VStr nm) v = true <-> v = VStr nm.
Proof.
  destruct v as [| |s]; simpl; try (split; [discriminate|congruence]).
  rewrite bool_decide_eq_true. split; congruence.
Qed.

Lemma alignment_class nm :
  nm ∈ Static.ALIGNMENTS ->
  property_string
    (lookup_class ((fun a => (a, lit "ce-paragraph--" ++ a)) <$> Static.ALIGNMENTS)
                  (VStr nm))
    = lit "ce-paragraph--" ++ nm.
Proof.
  intros H. rewrite lookup_class_alignment.
  unfold is_alignment. rewrite bool_decide_eq_true_2 by exact H. reflexivity.
Qed.

Lemma forEach_mark_tune s view elements :
  wf s -> _element s = Some view ->
  name <$> _tunesButtons s = Static.ALIGNMENTS ->
  css_alignment (_CSS s) = (fun a => (a, lit "ce-paragraph--" ++ a)) <$> Static.ALIGNMENTS ->
  length elements = length Static.ALIGNMENTS ->
  Forall (fun b => (b < length (document s))%nat) elements ->
  NoDup elements -> view ∉ elements ->
  token_error (active_token s) = None ->
  exists s' ev,
    forEach mark_tune elements s = (s', Normal tt) /\
    core s' = core s /\ wf s' /\
    document s' !! view = Some ev /\
    (forall nm, nm ∈ Static.ALIGNMENTS ->
       lit "ce-paragraph--" ++ nm ∈ classList ev <-> alignment (_data s) = VStr nm) /\
    (forall k b nm, elements !! k = Some b -> Static.ALIGNMENTS !! k = Some nm ->
       exists eb, document s' !! b = Some eb /\
         (ToString (css_settingsButtonActive (_CSS s)) ∈ classList eb
          <-> alignment (_data s) = VStr nm)).
Proof.
  intros Hwf Hn Hnames Hcss Hlen Hvalid Hnodup Hview Hactive.
  set (a2 := alignment (_data s)).
  set (active := ToString (css_settingsButtonActive (_CSS s))).
  set (I := fun (j : nat) (s' : State) =>
    core s' = core s /\ wf s' /\ length (document s') = length (document s) /\
    (exists ev, document s' !! view = Some ev /\
       forall k nm, (k < j)%nat -> Static.ALIGNMENTS !! k = Some nm ->
         lit "ce-paragraph--" ++ nm ∈ classList ev <-> a2 = VStr nm) /\
    (forall k b nm, (k < j)%nat -> elements !! k = Some b ->
       Static.ALIGNMENTS !! k = Some nm ->
       exists eb, document s' !! b = Some eb /\ (active ∈ classList eb <-> a2 = VStr nm))).
  assert (Hloop : hoare (I 0%nat) (forEach mark_tune elements)
                        (fun _ => I (length elements)) (fun _ => False)).
  { apply hoare_forEach_indexed. intros el j Hel s1 (Hc1 & Hwf1 & Hl1 & (ev & Hev & HV) & HB).
    assert (Hn1 : _element s1 = Some view) by (unfold core in Hc1; congruence).
    assert (Hk1 : constants s1 = constants s) by (unfold core in Hc1; congruence).
    assert (Ha1 : alignment (_data s1) = a2)
      by (unfold a2; unfold core in Hc1; congruence).
    assert (Hj : (j < length Static.ALIGNMENTS)%nat).
    { rewrite <- Hlen. exact (lookup_lt_Some _ _ _ Hel). }
    destruct (lookup_lt_is_Some_2 Static.ALIGNMENTS j Hj) as [nmj Hnmj].
    assert (Htj : exists t, _tunesButtons s1 !! j = Some t /\ name t = nmj).
    { replace (_tunesButtons s1) with (_tunesButtons s)
        by (unfold constants in Hk1; congruence).
      rewrite <- Hnames, list_lookup_fmap in Hnmj.
      destruct (_tunesButtons s !! j) as [t|]; [|discriminate].
      injection Hnmj as <-. eauto. }
    destruct Htj as (t & Ht & Hname).
    assert (Helv : (el < length (document s1))%nat).
    { rewrite Hl1. rewrite Forall_forall in Hvalid. apply Hvalid.
      apply list_elem_of_lookup. eauto. }
    assert (Hne : el <> view).
    { intros ->. apply Hview, list_elem_of_lookup. eauto. }
    assert (Hactive1 : token_error (active_token s1) = None).
    { unfold active_token. replace (_CSS s1) with (_CSS s)
        by (unfold constants in Hk1; congruence). exact Hactive. }
    destruct (mark_tune_spec s1 view el j t Hwf1 Hn1 Helv Ht Hactive1) as (s' & Hm & Hdoc).
    pose proof (quiet_mark_tune el j s1) as Hq.
    pose proof (gentle_mark_tune el j s1) as Hg.
    rewrite Hm in Hq, Hg |- *. simpl in Hq, Hg.
    replace (_CSS s1) with (_CSS s) in Hdoc by (unfold constants in Hk1; congruence).
    rewrite Hcss, Hname, Ha1 in Hdoc.
    rewrite alignment_class in Hdoc
      by (apply list_elem_of_lookup; eauto).
    fold active in Hdoc.
    destruct (lookup_lt_is_Some_2 _ _ Helv) as [eb0 Heb0].
    split; [congruence|]. split; [exact (wf_extends _ _ Hg Hwf1)|].
    split; [rewrite Hdoc, !length_alter; exact Hl1|]. split.
    - (* the view *)
      eexists. split.
      { rewrite Hdoc, list_lookup_alter_eq, list_lookup_alter_ne by exact Hne.
        rewrite Hev. reflexivity. }
      intros k nm Hk Hnm. cbn [classList with_classList].
      rewrite elem_of_toggle_token.
      destruct (decide (k = j)) as [->|Hkj].
      + assert (nm = nmj)
          by (pose proof (eq_trans (eq_sym Hnm) Hnmj) as Heq; congruence).
        subst nm.
        rewrite strict_eq_true. split; [|tauto].
        intros [[_ H]|[H _]]; [exact H|congruence].
      + assert (Hdiff : lit "ce-paragraph--" ++ nm <> lit "ce-paragraph--" ++ nmj).
        { intros H. apply app_inv_head in H. rewrite H in Hnm.
          apply Hkj. eapply NoDup_lookup; [|exact Hnm|exact Hnmj].
          apply (bool_decide_unpack (NoDup Static.ALIGNMENTS)). reflexivity. }
        rewrite <- (HV k nm) by (try lia; assumption). tauto.
    - (* the buttons *)
      intros k b nm Hk Hb Hnm.
      destruct (decide (k = j)) as [->|Hkj].
      + assert (b = el) by congruence. subst b.
        assert (nm = nmj)
          by (pose proof (eq_trans (eq_sym Hnm) Hnmj) as Heq; congruence).
        subst nm.
        eexists. split.
        { rewrite Hdoc, list_lookup_alter_ne by congruence.
          rewrite list_lookup_alter_eq, Heb0. reflexivity. }
        cbn [classList with_classList]. rewrite elem_of_toggle_token, strict_eq_true.
        split; [|tauto]. intros [[_ H]|[H _]]; [exact H|congruence].
      + assert (Hbel : b <> el).
        { intros ->. apply Hkj. eapply NoDup_lookup; eauto. }
        assert (Hbv : b <> view).
        { intros ->. apply Hview, list_elem_of_lookup. eauto. }
        destruct (HB k b nm) as (eb & Heb & Hiff); [lia|assumption|assumption|].
        exists eb. split; [|exact Hiff].
        rewrite Hdoc, !list_lookup_alter_ne by congruence. exact Heb. }
  assert (H0 : I 0%nat s).
  { split; [reflexivity|]. split; [exact Hwf|]. split; [reflexivity|]. split.
    - destruct (wf_view s Hwf view Hn) as (ev & Hev & _). exists ev.
      split; [exact Hev|]. intros; lia.
    - intros; lia. }
  specialize (Hloop s H0).
  destruct (forEach mark_tune elements s) as [s' [[]|ex]]; [|contradiction].
  destruct Hloop as (Hc & Hwf' & _ & (ev & Hev & HV) & HB).
  exists s', ev. split; [reflexivity|]. split; [exact Hc|]. split; [exact Hwf'|].
  split; [exact Hev|]. split.
  - intros nm Hnm. apply list_elem_of_lookup in Hnm. destruct Hnm as [k Hk].
    apply (HV k nm); [|exact Hk]. rewrite Hlen. exact (lookup_lt_Some _ _ _ Hk).
  - intros k b nm Hb Hnm. apply (HB k b nm); [|exact Hb|exact Hnm].
    exact (lookup_lt_Some _ _ _ Hb).
Qed.

(** ** The settings wrapper *)

Lemma renderSettings_unfold serialize :
  renderSettings serialize =
  (wrapper <- createElement (lit "div") ;;
   tunes <- gets _tunesButtons ;;
   elements <- mapM (settings_button serialize wrapper) tunes ;;
   forEach (fun element index =>
     addEventListener (Some element) click (TuneClick index elements)) elements ;;;
   ret wrapper).
Proof. reflexivity. Qed.

Lemma gentle_settings_button serialize wrapper tune :
  gentle (settings_button serialize wrapper tune).
Proof. unfold settings_button. gentle_tac. Qed.

Section Settings.

Variable serialize : jsstring -> jsstring.
Variable textContent_of : jsstring -> jsstring.

Local Abbreviation run := (run serialize textContent_of).

Local Abbreviation button_of active current tune :=
  (mkElement (lit "DIV")
     (toggle_token (ToString active) (strict_eq (VStr (name tune)) current)
        [lit "cdx-settings-button"])
     None None [Parsed (serialize (icon tune))] []).

(** The callback up to the toggle of the active class: the button is in
    the document, with its class and its icon. *)
Lemma settings_button_start wrapper tune s :
  wf s ->
  let b := length (document s) in
  exists s4,
    settings_button serialize wrapper tune s =
      (classList_toggle (Some b) (active_token s)
         (strict_eq (VStr (name tune))
            (js_or (alignment (_data s)) (defaultAlignment (config s)))) ;;;
       appendChild (Some wrapper) b ;;;
       ret b) s4 /\
    core s4 = core s /\ animationFrames s4 = animationFrames s /\ wf s4 /\
    document s4 =
      document s ++ [mkElement (lit "DIV") [lit "cdx-settings-button"] None None
                       [Parsed (serialize (icon tune))] []].
Proof.
  intros Hwf b.
  set (m := button <- createElement (lit "div") ;;
            classList_add (Some button) [lit "cdx-settings-button"] ;;;
            set_innerHTML serialize (Some button) (VStr (icon tune)) ;;;
            ret button).
  assert (Hm : gentle m) by (unfold m; gentle_tac).
  set (e3 := mkElement (lit "DIV") [lit "cdx-settings-button"] None None
               [Parsed (serialize (icon tune))] []).
  assert (H3 : m s = (with_document (document s ++ [e3]) s, Normal b)).
  { unfold m. unfold createElement. run_bind.
    erewrite bind_normal by (apply classList_add_last; reflexivity).
    unfold set_innerHTML. run_bind. reflexivity. }
  set (s3 := with_document (document s ++ [e3]) s) in *.
  assert (Hwf3 : wf s3).
  { pose proof (Hm s) as Hext. rewrite H3 in Hext. exact (wf_extends _ _ Hext Hwf). }
  destruct (get_data_wf s3 Hwf3) as (s4 & Hget & Ha & _ & Hcore & Hdoc & Hfr).
  assert (Hc4 : core s4 = core s) by exact Hcore.
  exists s4. split; [|split; [exact Hc4|split; [exact Hfr|split; [|exact Hdoc]]]].
  - unfold settings_button, createElement. run_bind.
    erewrite bind_normal by (apply classList_add_last; reflexivity).
    unfold set_innerHTML. run_bind. run_bind.
    change (bind get_data ?k ?x) with (bind get_data k s3).
    rewrite (bind_normal _ _ _ _ _ Hget). run_bind.
    unfold active_token. unfold core, constants in Hc4.
    replace (config s4) with (config s) by congruence.
    replace (alignment (_data s4)) with (alignment (_data s)) by congruence.
    reflexivity.
  - pose proof (gentle_get_data s3) as Hext. rewrite Hget in Hext.
    exact (wf_extends _ _ Hext Hwf3).
Qed.

Lemma settings_button_spec wrapper tune s :
  wf s -> (wrapper < length (document s))%nat ->
  token_error (active_token s) = None ->
  exists s',
    settings_button serialize wrapper tune s = (s', Normal (length (document s))) /\
    core s' = core s /\ animationFrames s' = animationFrames s /\ wf s' /\
    document s' =
      alter (fun e => with_children (children e ++ [Appended (length (document s))]) e)
            wrapper (document s)
      ++ [button_of (css_settingsButtonActive (_CSS s))
                    (js_or (alignment (_data s)) (defaultAlignment (config s))) tune].
Proof.
  intros Hwf Hw Hactive.
  destruct (settings_button_start wrapper tune s Hwf)
    as (s4 & Hsb & Hc4 & Hfr & Hwf4 & Hdoc).
  set (b := length (document s)) in *.
  assert (Hlen4 : length (document s4) = S b).
  { rewrite Hdoc, length_app. simpl. fold b. lia. }
  pose proof (gentle_settings_button serialize wrapper tune s) as Hext.
  rewrite Hsb in Hext |- *.
  rewrite (bind_normal _ _ _ _ _
             (classList_toggle_valid s4 b _ _ ltac:(lia) Hactive)) in Hext |- *.
  match type of Hext with context [bind (appendChild (Some wrapper) b) _ ?x] =>
    assert (Hu : exists s5, appendChild (Some wrapper) b x = (s5, Normal tt) /\
              s5 = with_document
                     (alter (fun e => with_children (children e ++ [Appended b]) e)
                            wrapper (document x)) x)
      by (eexists; split; [apply update_valid; simpl; rewrite length_alter; lia
                          |reflexivity])
  end.
  destruct Hu as (s5 & Hu & Hs5).
  rewrite (bind_normal _ _ _ _ _ Hu) in Hext |- *. subst s5.
  unfold ret in Hext |- *. eexists. split; [reflexivity|].
  split; [exact Hc4|]. split; [exact Hfr|].
  split; [exact (wf_extends _ _ Hext Hwf)|].
  simpl. rewrite Hdoc.
  rewrite alter_app_r_alt by (fold b; lia). fold b. rewrite Nat.sub_diag. simpl.
  rewrite alter_app_l by exact Hw. reflexivity.
Qed.

Lemma settings_button_throws wrapper tune s err :
  wf s -> token_error (active_token s) = Some err ->
  (settings_button serialize wrapper tune s).2 = Throw err.
Proof.
  intros Hwf Hactive.
  destruct (settings_button_start wrapper tune s Hwf)
    as (s4 & Hsb & Hc4 & Hfr & Hwf4 & Hdoc).
  rewrite Hsb.
  erewrite bind_throws; [reflexivity|].
  apply classList_toggle_invalid; [|exact Hactive].
  rewrite Hdoc, length_app. simpl. lia.
Qed.

Lemma mapM_settings_button tunes : forall s wrapper,
  wf s -> (wrapper < length (document s))%nat ->
  token_error (active_token s) = None ->
  exists s',
    mapM (settings_button serialize wrapper) tunes s
      = (s', Normal (seq (length (document s)) (length tunes))) /\
    core s' = core s /\ animationFrames s' = animationFrames s /\ wf s' /\
    document s' =
      alter (fun e => with_children
                        (children e ++
                         (Appended <$> seq (length (document s)) (length tunes))) e)
            wrapper (document s)
      ++ ((fun tune => button_of (css_settingsButtonActive (_CSS s))
                         (js_or (alignment (_data s)) (defaultAlignment (config s)))
                         tune) <$> tunes).
Proof.
  induction tunes as [|t r IH]; intros s wrapper Hwf Hw Hactive.
  - exists s. simpl. split; [reflexivity|]. split; [reflexivity|].
    split; [reflexivity|]. split; [exact Hwf|].
    rewrite app_nil_r. symmetry. apply list_alter_id.
    intros [? ? ? ? ? ?]. unfold with_children. simpl. rewrite app_nil_r. reflexivity.
  - destruct (settings_button_spec wrapper t s Hwf Hw Hactive)
      as (s1 & H1 & Hc1 & Hf1 & Hwf1 & Hd1).
    assert (Hl1 : length (document s1) = S (length (document s))).
    { rewrite Hd1, length_app, length_alter. simpl. lia. }
    assert (Hk : _CSS s1 = _CSS s /\ config s1 = config s /\
                 alignment (_data s1) = alignment (_data s)).
    { unfold core, constants in Hc1. repeat split; congruence. }
    destruct Hk as (Hk1 & Hk2 & Hk3).
    assert (Hactive1 : token_error (active_token s1) = None)
      by (unfold active_token; rewrite Hk1; exact Hactive).
    destruct (IH s1 wrapper Hwf1 ltac:(lia) Hactive1)
      as (s' & H' & Hc' & Hf' & Hwf' & Hd').
    exists s'. split.
    { simpl. unfold bind at 1. rewrite H1. unfold bind at 1. rewrite H', Hl1.
      reflexivity. }
    split; [congruence|]. split; [congruence|]. split; [exact Hwf'|].
    rewrite Hd', Hk1, Hk2, Hk3, Hl1, Hd1.
    rewrite alter_app_l by (rewrite length_alter; exact Hw).
    rewrite list_alter_alter_eq. simpl. rewrite <- app_assoc. simpl.
    f_equal. apply list_alter_ext; [|reflexivity].
    intros e _. unfold with_children, compose. simpl.
    rewrite <- app_assoc. reflexivity.
Qed.

Lemma forEach_addEventListener elements : forall l i0 s,
  NoDup l -> Forall (fun b => (b < length (document s))%nat) l ->
  exists d,
    forEach_from i0 (fun element index =>
      addEventListener (Some element) click (TuneClick index elements)) l s
      = (with_document d s, Normal tt) /\
    length d = length (document s) /\
    (forall n, n ∉ l -> d !! n = document s !! n) /\
    (forall j b, l !! j = Some b ->
       d !! b = (fun e => with_listeners
                   (add_listener click (TuneClick (i0 + j) elements) (listeners e)) e)
                <$> document s !! b).
Proof.
  induction l as [|x r IH]; intros i0 s Hnd Hall.
  - exists (document s). simpl. split.
    { unfold ret. destruct s; reflexivity. }
    split; [reflexivity|]. split; [reflexivity|]. intros j b Hj. inversion Hj.
  - apply NoDup_cons in Hnd as [Hx Hnd]. apply Forall_cons in Hall as [Hxv Hall].
    set (g := fun e => with_listeners
                   (add_listener click (TuneClick i0 elements) (listeners e)) e).
    set (s1 := with_document (alter g x (document s)) s).
    destruct (IH (S i0) s1 Hnd) as (d & Hrun & Hlen & Hout & Hin).
    { simpl. rewrite length_alter. exact Hall. }
    exists d. split.
    { assert (Hstep : addEventListener (Some x) click (TuneClick i0 elements) s
                      = (s1, Normal tt))
        by (unfold addEventListener; apply update_valid; exact Hxv).
      simpl. unfold bind at 1. rewrite Hstep, Hrun. reflexivity. }
    split; [rewrite Hlen; simpl; apply length_alter|]. split.
    + intros n Hn. apply not_elem_of_cons in Hn as [Hne Hn].
      rewrite (Hout n Hn). simpl. apply list_lookup_alter_ne. congruence.
    + intros [|j] b Hj; simpl in Hj.
      * injection Hj as <-. rewrite (Hout x Hx). simpl.
        rewrite Nat.add_0_r. apply list_lookup_alter_eq.
      * rewrite (Hin j b Hj). simpl.
        assert (x <> b) by (intros ->; apply Hx, list_elem_of_lookup; eauto).
        rewrite list_lookup_alter_ne by assumption.
        rewrite Nat.add_succ_r. reflexivity.
Qed.

Lemma renderSettings_spec s :
  wf s ->
  token_error (active_token s) = None ->
  let L := length (document s) in
  let elements := seq (S L) (length (_tunesButtons s)) in
  exists s',
    renderSettings serialize s = (s', Normal L) /\
    core s' = core s /\ animationFrames s' = animationFrames s /\
    length (document s') = (S L + length (_tunesButtons s))%nat /\
    (forall n, (n < L)%nat -> document s' !! n = document s !! n) /\
    document s' !! L
      = Some (mkElement (lit "DIV") [] None None (Appended <$> elements) []) /\
    (forall k tune, _tunesButtons s !! k = Some tune ->
       document s' !! (S L + k)%nat =
       Some (with_listeners [(click, TuneClick k elements)]
               (button_of (css_settingsButtonActive (_CSS s))
                  (js_or (alignment (_data s)) (defaultAlignment (config s))) tune))).
Proof.
  intros Hwf Hactive L elements.
  set (s1 := with_document (document s ++ [new_element (lit "DIV")]) s).
  assert (Hwf1 : wf s1) by exact (wf_extends _ _ (gentle_createElement (lit "div") s) Hwf).
  assert (Hl1 : length (document s1) = S L).
  { unfold s1. simpl. rewrite length_app. simpl. fold L. lia. }
  destruct (mapM_settings_button (_tunesButtons s) s1 L Hwf1 ltac:(lia) Hactive)
    as (s2 & Hmap & Hc2 & Hf2 & Hwf2 & Hd2).
  rewrite Hl1 in Hmap, Hd2. fold elements in Hmap, Hd2.
  assert (Hl2 : length (document s2) = (S L + length (_tunesButtons s))%nat).
  { rewrite Hd2, length_app, length_alter, length_fmap. unfold s1. simpl.
    rewrite length_app. simpl. fold L. lia. }
  destruct (forEach_addEventListener elements elements 0%nat s2)
    as (d & Hreg & Hld & Hout & Hin).
  { apply NoDup_seq. }
  { apply Forall_forall. intros b Hb. apply elem_of_seq in Hb. lia. }
  exists (with_document d s2). split.
  { rewrite renderSettings_unfold. unfold bind at 1. unfold createElement.
    change (with_document _ s) with s1. fold L.
    unfold bind at 1. unfold gets at 1.
    change (_tunesButtons s1) with (_tunesButtons s).
    unfold bind at 1. rewrite Hmap. unfold bind at 1. unfold forEach. rewrite Hreg.
    reflexivity. }
  split; [exact Hc2|]. split; [exact Hf2|]. split; [simpl; rewrite Hld; exact Hl2|].
  assert (HL : L ∉ elements) by (intros H; apply elem_of_seq in H; lia).
  split; [|split].
  - intros n Hn. simpl. rewrite Hout by (intros H; apply elem_of_seq in H; lia).
    rewrite Hd2. rewrite lookup_app_l by (rewrite length_alter, Hl1; lia).
    rewrite list_lookup_alter_ne by lia. unfold s1. simpl.
    apply lookup_app_l. exact Hn.
  - simpl. rewrite (Hout L HL), Hd2.
    rewrite lookup_app_l by (rewrite length_alter, Hl1; lia).
    rewrite list_lookup_alter_eq. unfold s1. simpl.
    rewrite lookup_app_r by (fold L; lia). fold L. rewrite Nat.sub_diag. reflexivity.
  - intros k tune Hk. change (document (with_document d s2)) with d.
    assert (Hseq : elements !! k = Some (S L + k)%nat).
    { apply lookup_seq. split; [reflexivity|]. exact (lookup_lt_Some _ _ _ Hk). }
    rewrite (Hin k _ Hseq), Hd2.
    rewrite lookup_app_r by (rewrite length_alter, Hl1; lia).
    rewrite length_alter, Hl1.
    replace (S L + k - S L)%nat with k by lia.
    rewrite list_lookup_fmap, Hk. reflexivity.
Qed.

(** When the class of the active button is no token, [renderSettings]
    throws at the first button. *)
Lemma renderSettings_throws s err :
  wf s -> _tunesButtons s <> [] ->
  token_error (active_token s) = Some err ->
  exists s', renderSettings serialize s = (s', Throw err) /\ extends s s'.
Proof.
  intros Hwf Hne Hactive.
  set (s1 := with_document (document s ++ [new_element (lit "DIV")]) s).
  pose proof (gentle_createElement (lit "div") s) as Hx1.
  assert (Hwf1 : wf s1) by exact (wf_extends _ _ Hx1 Hwf).
  rewrite renderSettings_unfold. unfold bind at 1. unfold createElement.
  change (with_document _ s) with s1.
  unfold bind at 1. unfold gets at 1.
  change (_tunesButtons s1) with (_tunesButtons s).
  destruct (_tunesButtons s) as [|t r]; [congruence|].
  pose proof (settings_button_throws (length (document s)) t s1 err Hwf1 Hactive) as Hb.
  pose proof (gentle_settings_button serialize (length (document s)) t s1) as Hx2.
  unfold bind at 1. cbn [mapM]. unfold bind at 1.
  destruct (settings_button serialize (length (document s)) t s1) as [s2 [x|err']];
    simpl in Hb, Hx2; [discriminate|].
  injection Hb as ->. exists s2. split; [reflexivity|].
  exact (extends_trans _ _ _ Hx1 Hx2).
Qed.

Lemma reachable_tunes tune_icon d c api0 ro s0 ops :
  constructor tune_icon (Some d) (Some c) api0 ro = Normal s0 ->
  _tunesButtons (run ops s0) = (fun a => mkTune a (tune_icon a)) <$> Static.ALIGNMENTS /\
  css_settingsButtonActive (_CSS (run ops s0)) = styles_settingsButtonActive api0 /\
  config (run ops s0) = c.
Proof.
  intros Hc. pose proof (constants_run serialize textContent_of ops s0) as Hk.
  unfold constants in Hk. injection Hk as _ _ H3 H4 _ H6 _. rewrite H3, H4, H6.
  injection Hc as <-. repeat split.
Qed.

(** X13. What [renderSettings] does, in any state the instance can reach.
    When the host's active class is no token it throws the error of that
    class, at the first button.  Otherwise it returns a new [DIV], the
    wrapper, whose children are four new [DIV]s appended in the order of
    [ALIGNMENTS]; the button of a tune holds what the browser made of the
    tune's icon, has the class [cdx-settings-button] toggled with the host's
    active class, which is on exactly when the tune is the alignment (or,
    when the alignment is falsy, the configured default), and one listener,
    a click listener that knows its index and the four buttons; the
    elements that existed are untouched, and so are the constants, the
    alignment, the view and the pending frames. *)
Theorem renderSettings_builds_buttons tune_icon d c api0 ro s0 ops :
  constructor tune_icon (Some d) (Some c) api0 ro = Normal s0 ->
  let s := run ops s0 in
  let L := length (document s) in
  let elements := seq (S L) 4 in
  match token_error (ToString (styles_settingsButtonActive api0)) with
  | Some err => (renderSettings serialize s).2 = Throw err
  | None =>
      exists s',
        renderSettings serialize s = (s', Normal L) /\
        core s' = core s /\ animationFrames s' = animationFrames s /\
        length (document s') = (L + 5)%nat /\
        (forall n, (n < L)%nat -> document s' !! n = document s !! n) /\
        document s' !! L
          = Some (mkElement (lit "DIV") [] None None (Appended <$> elements) []) /\
        (forall k nm, Static.ALIGNMENTS !! k = Some nm ->
           document s' !! (S L + k)%nat =
           Some (mkElement (lit "DIV")
                   (toggle_token (ToString (styles_settingsButtonActive api0))
                      (strict_eq (VStr nm)
                         (js_or (alignment (_data s)) (defaultAlignment c)))
                      [lit "cdx-settings-button"])
                   None None [Parsed (serialize (tune_icon nm))]
                   [(click, TuneClick k elements)]))
  end.
Proof.
  intros Hc s L elements.
  assert (Hwf : wf s) by (apply wf_run, (wf_constructor _ _ _ _ _ _ Hc)).
  destruct (reachable_tunes _ _ _ _ _ _ ops Hc) as (Ht & Hact & Hcfg). fold s in Ht, Hact, Hcfg.
  assert (Hat : active_token s = ToString (styles_settingsButtonActive api0))
    by (unfold active_token; rewrite Hact; reflexivity).
  destruct (token_error (ToString (styles_settingsButtonActive api0))) as [err|] eqn:Htok.
  - destruct (renderSettings_throws s err Hwf) as (s' & -> & _);
      [rewrite Ht; discriminate|rewrite Hat; exact Htok|reflexivity].
  - rewrite <- Hat in Htok.
    destruct (renderSettings_spec s Hwf Htok)
      as (s' & Hr & Hcore & Hfr & Hlen & Hold & Hw & Hb).
    rewrite Ht, Hact, Hcfg in *. fold L in Hr, Hlen, Hold, Hw, Hb.
    exists s'. split; [exact Hr|]. split; [exact Hcore|]. split; [exact Hfr|].
    split; [rewrite Hlen; simpl; lia|]. split; [exact Hold|]. split; [exact Hw|].
    intros k nm Hk. rewrite (Hb k (mkTune nm (tune_icon nm))); [reflexivity|].
    rewrite list_lookup_fmap, Hk. reflexivity.
Qed.

End Settings.

(** ** The listeners of the tune buttons *)

Section Wiring.

Variable serialize : jsstring -> jsstring.
Variable textContent_of : jsstring -> jsstring.

Local Abbreviation step := (step serialize textContent_of).
Local Abbreviation run := (run serialize textContent_of).

(** Every click listener sits on the button it names and closes over one
    button per tune, all different and none of them the view. *)
Local Abbreviation wired s :=
  (forall m e ty index elements,
     document s !! m = Some e -> (ty, TuneClick index elements) ∈ listeners e ->
     elements !! index = Some m /\
     length elements = length (_tunesButtons s) /\
     NoDup elements /\
     forall view, _element s = Some view -> view ∉ elements).

Lemma wired_extends s s' : extends s s' -> wired s -> wired s'.
Proof.
  intros [c el _ len old new] H m e' ty index elements Hm Hin.
  destruct (decide (m < length (document s))%nat) as [Hlt|Hge].
  - destruct (lookup_lt_is_Some_2 _ _ Hlt) as [e He].
    destruct (old m e He) as (e'' & He'' & _ & Hls).
    assert (e'' = e') by congruence. subst e''. rewrite Hls in Hin.
    destruct (H m e ty index elements He Hin) as (H1 & H2 & H3 & H4).
    unfold constants in c.
    replace (_tunesButtons s') with (_tunesButtons s) by congruence.
    rewrite el. auto.
  - rewrite (new m e' Hm) in Hin by lia. inversion Hin.
Qed.

Lemma wired_render s : wf s -> wired s -> wired (render s).1.
Proof.
  intros Hwf H.
  destruct (render_cases s) as [[n He]|[[He Htok]|[He [err Htok]]]].
  - rewrite (render_again s n He). simpl. exact H.
  - destruct (render_first s He Htok) as (div & -> & _ & Hls & _). simpl.
    intros m e ty index elements Hm Hin.
    destruct (decide (m < length (document s))%nat) as [Hlt|Hge].
    + rewrite lookup_app_l in Hm by exact Hlt.
      destruct (H m e ty index elements Hm Hin) as (H1 & H2 & H3 & _).
      repeat split; auto. intros view [= <-] Hview.
      pose proof (wf_listeners s Hwf m e _ Hm Hin) as Hok.
      unfold listener_ok in Hok. simpl in Hok. destruct Hok as (_ & _ & _ & Hall & _).
      rewrite Forall_forall in Hall. specialize (Hall _ Hview). lia.
    + rewrite lookup_app_r in Hm by lia.
      destruct (m - length (document s))%nat; simpl in Hm; [|discriminate].
      injection Hm as <-. rewrite Hls in Hin.
      destruct (readOnly s); [inversion Hin|].
      apply list_elem_of_singleton in Hin. discriminate.
  - rewrite (render_throws s err He Htok).
    exact (wired_extends _ _ (gentle_render_throws s err Htok) H).
Qed.

Lemma wired_renderSettings s :
  wf s -> _tunesButtons s <> [] -> wired s -> wired (renderSettings serialize s).1.
Proof.
  intros Hwf Htunes H.
  destruct (token_error (active_token s)) as [err|] eqn:Htok.
  { destruct (renderSettings_throws serialize s err Hwf Htunes Htok) as (s' & -> & Hext).
    exact (wired_extends _ _ Hext H). }
  destruct (renderSettings_spec serialize s Hwf Htok)
    as (s' & -> & Hcore & _ & Hlen & Hold & Hw & Hb). simpl.
  assert (Hk : _tunesButtons s' = _tunesButtons s /\ _element s' = _element s).
  { unfold core, constants in Hcore. split; congruence. }
  destruct Hk as [Ht Hel]. rewrite Ht, Hel.
  intros m e ty index elements Hm Hin.
  set (L := length (document s)) in *.
  destruct (decide (m < L)%nat) as [Hlt|Hge].
  { rewrite (Hold m Hlt) in Hm. eauto. }
  destruct (decide (m = L)) as [->|Hne].
  { rewrite Hw in Hm. injection Hm as <-. inversion Hin. }
  assert (Hmk : m = (S L + (m - S L))%nat) by lia.
  pose proof (lookup_lt_Some _ _ _ Hm) as Hmlt. rewrite Hlen in Hmlt.
  destruct (lookup_lt_is_Some_2 (_tunesButtons s) (m - S L)) as [tune Htune]; [lia|].
  rewrite Hmk, (Hb _ tune Htune) in Hm. injection Hm as <-. simpl in Hin.
  apply list_elem_of_singleton in Hin. injection Hin as -> -> ->.
  split; [|split; [|split]].
  - rewrite Hmk at 2. apply lookup_seq. split; [reflexivity|lia].
  - apply length_seq.
  - apply NoDup_seq.
  - intros view Hview Hv. apply elem_of_seq in Hv.
    destruct (wf_view s Hwf view Hview) as (ev & Hev & _).
    apply lookup_lt_Some in Hev. fold L in Hev. lia.
Qed.

Lemma wired_step o s :
  wf s -> _tunesButtons s <> [] -> wired s -> wired (step o s).1.
Proof.
  intros Hwf Hne H.
  destruct (step_cases serialize textContent_of o) as [->|[->|Hg]].
  - rewrite step_Render. apply wired_render; assumption.
  - rewrite step_RenderSettings. apply wired_renderSettings; assumption.
  - exact (wired_extends _ _ (Hg s) H).
Qed.

Lemma wired_run ops : forall s,
  wf s -> _tunesButtons s <> [] -> wired s -> wired (run ops s).
Proof.
  induction ops as [|o r IH]; intros s Hwf Hne H; [exact H|].
  rewrite run_cons. apply IH; [apply wf_step, Hwf| |apply wired_step; assumption].
  pose proof (constants_step serialize textContent_of o s) as Hk.
  unfold constants in Hk. replace (_tunesButtons (step o s).1) with (_tunesButtons s)
    by congruence. exact Hne.
Qed.

(** X14. The click listeners of any state the instance can reach: each one
    is registered for [click], sits on the button whose index it knows, and
    closes over four buttons of the document, all different and none of
    them the view; and where there is one, the host's active class is a
    token. *)
Theorem click_listeners_wired tune_icon d c api0 ro s0 ops m e ty index elements :
  constructor tune_icon (Some d) (Some c) api0 ro = Normal s0 ->
  let s := run ops s0 in
  document s !! m = Some e ->
  (ty, TuneClick index elements) ∈ listeners e ->
  ty = click /\
  elements !! index = Some m /\
  length elements = length Static.ALIGNMENTS /\
  NoDup elements /\
  Forall (fun b => (b < length (document s))%nat) elements /\
  (forall view, _element s = Some view -> view ∉ elements) /\
  token_error (ToString (styles_settingsButtonActive api0)) = None.
Proof.
  intros Hc s Hm Hin.
  assert (Hwf0 : wf s0) by exact (wf_constructor _ _ _ _ _ _ Hc).
  assert (Hwf : wf s) by apply wf_run, Hwf0.
  assert (H0 : wired s0).
  { intros m' e' ? ? ? Hm'. injection Hc as <-. discriminate. }
  assert (Hne : _tunesButtons s0 <> []) by (injection Hc as <-; discriminate).
  destruct (wired_run ops s0 Hwf0 Hne H0 m e ty index elements Hm Hin)
    as (H1 & H2 & H3 & H4).
  pose proof (wf_listeners s Hwf m e _ Hm Hin) as Hok.
  unfold listener_ok in Hok. simpl in Hok. destruct Hok as (Hty & _ & _ & Hall & Htok).
  destruct (reachable_tunes serialize textContent_of _ _ _ _ _ _ ops Hc) as (Ht & Hact & _).
  fold s in Hact. unfold active_token in Htok. rewrite Hact in Htok.
  rewrite Ht, length_fmap in H2. auto 10.
Qed.

End Wiring.

Lemma tune_click_spec s view i t elements :
  wf s -> _element s = Some view ->
  _tunesButtons s !! i = Some t ->
  name <$> _tunesButtons s = Static.ALIGNMENTS ->
  css_alignment (_CSS s) = (fun a => (a, lit "ce-paragraph--" ++ a)) <$> Static.ALIGNMENTS ->
  length elements = length Static.ALIGNMENTS ->
  Forall (fun b => (b < length (document s))%nat) elements ->
  NoDup elements -> view ∉ elements ->
  token_error (active_token s) = None ->
  exists s' ev,
    tune_click i elements s = (s', Normal tt) /\
    alignment (_data s') =
      (if strict_eq (alignment (_data s)) (VStr (name t))
       then defaultAlignment (config s) else VStr (name t)) /\
    document s' !! view = Some ev /\
    (forall nm, nm ∈ Static.ALIGNMENTS ->
       lit "ce-paragraph--" ++ nm ∈ classList ev <-> alignment (_data s') = VStr nm) /\
    (forall k b nm, elements !! k = Some b -> Static.ALIGNMENTS !! k = Some nm ->
       exists eb, document s' !! b = Some eb /\
         (ToString (css_settingsButtonActive (_CSS s)) ∈ classList eb
          <-> alignment (_data s') = VStr nm)).
Proof.
  intros Hwf Hn Ht Hnames Hcss Hlen Hvalid Hnodup Hview Hactive.
  destruct (toggleTune_spec s (VStr (name t)) Hwf) as (s2 & Htog & Hal & _).
  pose proof (gentle_toggleTune (VStr (name t)) s) as Hext.
  rewrite Htog in Hext. simpl in Hext.
  pose proof (ext_constants _ _ Hext) as Hk2. unfold constants in Hk2.
  assert (Hconst : _tunesButtons s2 = _tunesButtons s /\ _CSS s2 = _CSS s)
    by (split; congruence).
  destruct Hconst as (Htunes2 & Hcss2).
  destruct (forEach_mark_tune s2 view elements) as (s' & ev & Hloop & Hcore & _ & Hev & HV & HB).
  - exact (wf_extends _ _ Hext Hwf).
  - rewrite (ext_element _ _ Hext). exact Hn.
  - rewrite Htunes2. exact Hnames.
  - rewrite Hcss2. exact Hcss.
  - exact Hlen.
  - exact (steady_Forall_valid elements _ _ Hext Hvalid).
  - exact Hnodup.
  - exact Hview.
  - unfold active_token. rewrite Hcss2. exact Hactive.
  - assert (Ha : alignment (_data s') = alignment (_data s2))
      by (unfold core in Hcore; congruence).
    exists s', ev. split.
    { rewrite tune_click_unfold. unfold bind at 1, gets. unfold bind at 1.
      rewrite Ht. simpl. unfold bind at 1. rewrite Htog. exact Hloop. }
    rewrite Ha. split; [exact Hal|]. split; [exact Hev|].
    rewrite <- Hcss2. split; [exact HV|exact HB].
Qed.

Lemma run_all_single (m : JS unit) s s' :
  m s = (s', Normal tt) -> run_all [m] s = (s', Normal tt).
Proof. intros H. simpl. rewrite H. reflexivity. Qed.

Section Marks.

Variable serialize : jsstring -> jsstring.
Variable textContent_of : jsstring -> jsstring.

Local Abbreviation step := (step serialize textContent_of).
Local Abbreviation run := (run serialize textContent_of).

Lemma reachable_classes tune_icon d c api0 ro s0 ops :
  constructor tune_icon (Some d) (Some c) api0 ro = Normal s0 ->
  name <$> _tunesButtons (run ops s0) = Static.ALIGNMENTS /\
  css_alignment (_CSS (run ops s0))
    = (fun a => (a, lit "ce-paragraph--" ++ a)) <$> Static.ALIGNMENTS.
Proof.
  intros Hc. pose proof (constants_run serialize textContent_of ops s0) as Hk.
  unfold constants in Hk. injection Hk as _ _ _ H4 _ H6 _. rewrite H4, H6.
  injection Hc as <-. split; reflexivity.
Qed.

(** X15. The marks after a click: on a rendered instance in any state it
    can reach, when the host's active class is a token, as it is wherever
    [renderSettings] has registered a listener, the click listener of a
    tune, closing over one button per tune, all distinct and none of them
    the view, returns, and afterwards the view carries the class
    [ce-paragraph--n] of a tune [n] exactly when the alignment is [n], and
    the button of a tune carries the host's active class exactly when the
    alignment is that tune. *)
Theorem tune_click_marks tune_icon d c api0 ro s0 ops view i a elements :
  constructor tune_icon (Some d) (Some c) api0 ro = Normal s0 ->
  let s := run ops s0 in
  _element s = Some view ->
  Static.ALIGNMENTS !! i = Some a ->
  length elements = length Static.ALIGNMENTS ->
  Forall (fun b => (b < length (document s))%nat) elements ->
  NoDup elements ->
  view ∉ elements ->
  token_error (ToString (styles_settingsButtonActive api0)) = None ->
  exists s' ev,
    tune_click i elements s = (s', Normal tt) /\
    document s' !! view = Some ev /\
    (forall nm, nm ∈ Static.ALIGNMENTS ->
       lit "ce-paragraph--" ++ nm ∈ classList ev <-> alignment (_data s') = VStr nm) /\
    (forall k b nm, elements !! k = Some b -> Static.ALIGNMENTS !! k = Some nm ->
       exists eb, document s' !! b = Some eb /\
         (ToString (styles_settingsButtonActive api0) ∈ classList eb
          <-> alignment (_data s') = VStr nm)).
Proof.
  intros Hc s Hn Hi Hlen Hvalid Hnodup Hview Htok.
  assert (Hwf : wf s) by (apply wf_run, (wf_constructor _ _ _ _ _ _ Hc)).
  pose proof (constants_run serialize textContent_of ops s0) as Hk. fold s in Hk.
  destruct (reachable_tune _ _ _ _ _ _ s i a Hc Hk Hi) as (t & Ht & <-).
  destruct (reachable_classes _ _ _ _ _ _ ops Hc) as (Hnames & Hcss).
  destruct (reachable_tunes serialize textContent_of _ _ _ _ _ _ ops Hc) as (_ & Hact & _).
  assert (Hactive : token_error (active_token s) = None).
  { unfold active_token. fold s in Hact. rewrite Hact. exact Htok. }
  destruct (tune_click_spec s view i t elements Hwf Hn Ht Hnames Hcss Hlen Hvalid
              Hnodup Hview Hactive) as (s' & ev & Hrun & _ & Hev & HV & HB).
  exists s', ev. split; [exact Hrun|]. split; [exact Hev|]. split; [exact HV|].
  fold s in Hact. rewrite <- Hact. exact HB.
Qed.

End Marks.

Section SettingsClick.

Variable serialize : jsstring -> jsstring.
Variable textContent_of : jsstring -> jsstring.

Local Abbreviation step := (step serialize textContent_of).
Local Abbreviation run := (run serialize textContent_of).

(** X16. A click on a button of the settings: on a rendered instance in
    any state it can reach, after a [renderSettings] that returned, a click
    event on the button of the tune number [k] returns; it makes that tune
    the alignment,
    or the configured default when the tune was the alignment already; and
    afterwards the view carries the class of a tune exactly when that tune
    is the alignment, and each of the four buttons carries the host's active
    class exactly when its tune is the alignment. *)
Theorem click_on_settings_button tune_icon d c api0 ro s0 ops view k a code :
  constructor tune_icon (Some d) (Some c) api0 ro = Normal s0 ->
  let s := run ops s0 in
  _element s = Some view ->
  Static.ALIGNMENTS !! k = Some a ->
  let L := length (document s) in
  let s1 := (renderSettings serialize s).1 in
  (renderSettings serialize s).2 = Normal L ->
  exists s2 ev,
    dispatchEvent serialize textContent_of (S L + k) click code s1 = (s2, Normal tt) /\
    alignment (_data s2) =
      (if bool_decide (alignment (_data s) = VStr a)
       then defaultAlignment c else VStr a) /\
    document s2 !! view = Some ev /\
    (forall nm, nm ∈ Static.ALIGNMENTS ->
       lit "ce-paragraph--" ++ nm ∈ classList ev <-> alignment (_data s2) = VStr nm) /\
    (forall j nm, Static.ALIGNMENTS !! j = Some nm ->
       exists eb, document s2 !! (S L + j)%nat = Some eb /\
         (ToString (styles_settingsButtonActive api0) ∈ classList eb
          <-> alignment (_data s2) = VStr nm)).
Proof.
  intros Hc s Hn Hk L s1 Hret.
  assert (Hwf : wf s) by (apply wf_run, (wf_constructor _ _ _ _ _ _ Hc)).
  assert (Hwf1 : wf s1).
  { unfold s1. rewrite <- step_RenderSettings with (textContent_of := textContent_of).
    apply wf_step, Hwf. }
  destruct (reachable_tunes serialize textContent_of _ _ _ _ _ _ ops Hc)
    as (Htunes & Hact & Hcfg).
  destruct (reachable_classes serialize textContent_of _ _ _ _ _ _ ops Hc)
    as (Hnames & Hcss).
  fold s in Htunes, Hact, Hcfg, Hnames, Hcss.
  assert (Hactive : token_error (active_token s) = None).
  { destruct (token_error (active_token s)) as [err|] eqn:Htok; [|reflexivity].
    destruct (renderSettings_throws serialize s err Hwf) as (s' & Hthrow & _);
      [rewrite Htunes; discriminate|exact Htok|].
    rewrite Hthrow in Hret. discriminate. }
  destruct (renderSettings_spec serialize s Hwf Hactive)
    as (s' & Hr & Hcore & _ & Hlen & _ & _ & Hb).
  assert (Hs1 : s1 = s') by (unfold s1; rewrite Hr; reflexivity).
  rewrite <- Hs1 in Hcore, Hlen, Hb. clear Hs1 Hr s'.
  fold L in Hlen, Hb. rewrite Htunes in Hlen, Hb. rewrite length_fmap in Hlen, Hb.
  change (length Static.ALIGNMENTS) with 4%nat in Hlen, Hb.
  set (elements := seq (S L) 4) in *.
  assert (Hk1 : constants s1 = constants s /\ alignment (_data s1) = alignment (_data s) /\
                _element s1 = _element s).
  { unfold core in Hcore. repeat split; congruence. }
  destruct Hk1 as (Hconst & Hal1 & Hel1). unfold constants in Hconst.
  assert (Hk2 : _tunesButtons s1 = _tunesButtons s /\ _CSS s1 = _CSS s /\
                config s1 = config s) by (repeat split; congruence).
  destruct Hk2 as (Ht1 & Hcss1 & Hcfg1).
  set (t := mkTune a (tune_icon a)).
  assert (Ht : _tunesButtons s1 !! k = Some t).
  { rewrite Ht1, Htunes, list_lookup_fmap, Hk. reflexivity. }
  destruct (wf_view s Hwf view Hn) as (e0 & He0 & _).
  apply lookup_lt_Some in He0. fold L in He0.
  destruct (tune_click_spec s1 view k t elements) as (s2 & ev & Hrun & Hal & Hev & HV & HB);
    auto.
  - congruence.
  - rewrite Ht1. exact Hnames.
  - rewrite Hcss1. exact Hcss.
  - apply Forall_forall. intros b Hb'. apply elem_of_seq in Hb'. rewrite Hlen. lia.
  - apply NoDup_seq.
  - intros Hv. apply elem_of_seq in Hv. lia.
  - unfold active_token. rewrite Hcss1. exact Hactive.
  - exists s2, ev. split.
    { unfold dispatchEvent, bind at 1, deref.
      rewrite (Hb k t) by (rewrite list_lookup_fmap, Hk; reflexivity).
      simpl. apply run_all_single. exact Hrun. }
    split.
    { rewrite Hal, Hal1, Hcfg1, Hcfg. simpl. rewrite strict_eq_str. reflexivity. }
    split; [exact Hev|]. split; [exact HV|].
    intros j nm Hj. rewrite Hcss1, Hact in HB. apply (HB j (S L + j)%nat nm); [|exact Hj].
    apply lookup_seq. split; [reflexivity|].
    apply lookup_lt_Some in Hj. exact Hj.
Qed.

End SettingsClick.

End Browser.

(** * Runs on sample inputs *)

(** C2, as stated, fails: a paste whose inline style is [text-align: start]
    leaves the alignment [start], which is none of the four values. *)
Lemma alignment_invariant_counterexample :
  exists s0,
    constructor Sample.icons (Some Sample.centered_A) (Some Sample.left_config)
                Sample.api false = Normal s0 /\
    alignment (_data (run Sample.outer Sample.verbatim Sample.verbatim
                          [Render; AnimationFrame; OnPaste Sample.paste_start] s0))
      = VStr (lit "start") /\
    is_alignment (VStr (lit "start")) = false.
Proof.
  eexists. split; [reflexivity|]. split; reflexivity.
Qed.

Lemma alignment_invariant_witness :
  exists s0,
    constructor Sample.icons (Some Sample.centered_A) (Some Sample.left_config)
                Sample.api false = Normal s0 /\
    is_alignment
      (alignment (_data (run Sample.outer Sample.verbatim Sample.verbatim
         [Render; AnimationFrame; OnPaste Sample.paste_right; RenderSettings;
          Event 3%nat click []; Merge (Some Sample.text_B)] s0))) = true.
Proof.
  eexists. split; [reflexivity|].
  apply (alignment_invariant Sample.outer Sample.verbatim Sample.verbatim Sample.icons
           Sample.centered_A Sample.left_config Sample.api false);
    reflexivity.
Defined.


Lemma validate_rejects_blank_witness :
  exists s0,
    constructor Sample.icons (Some Sample.centered_A) (Some Sample.no_config)
                Sample.api false = Normal s0 /\
    let s := run Sample.outer Sample.verbatim Sample.verbatim [Render; AnimationFrame] s0 in
    exists b,
      validate (Some (mkData (VStr (lit "   ")) (VStr (lit "center")))) s
        = (s, Normal b) /\
      (b = false <-> trim (lit "   ") = empty_string /\
                     default false (preserveBlank Sample.no_config) = false) /\
      (trim (lit "   ") = empty_string <-> forallb is_trimmed (lit "   ") = true) /\
      (forall u, u ∈ lit "   " -> is_trimmed u = false -> b = true).
Proof.
  eexists. split; [reflexivity|].
  apply (validate_rejects_blank Sample.outer Sample.verbatim Sample.verbatim Sample.icons
           Sample.centered_A Sample.no_config Sample.api false).
  reflexivity.
Defined.

Lemma merge_concatenates_witness :
  exists s0,
    constructor Sample.icons (Some Sample.centered_A) (Some Sample.no_config)
                Sample.api false = Normal s0 /\
    let s := run Sample.outer Sample.verbatim Sample.verbatim [Render; AnimationFrame] s0 in
    exists s',
      merge Sample.outer (Some Sample.text_B) s = (s', Normal tt) /\
      _data s' = mkData (js_add (current_text Sample.outer s) (text Sample.text_B))
                        (alignment (_data s)) /\
      (forall t1 t2,
         current_text Sample.outer s = VStr t1 -> text Sample.text_B = VStr t2 ->
         _data s' = mkData (VStr (t1 ++ t2)) (alignment (_data s))) /\
      (_element s = None -> current_text Sample.outer s = text (_data s)) /\
      (forall view, _element s = Some view ->
         exists e, document s !! view = Some e /\
                   current_text Sample.outer s
                     = VStr (innerHTML Sample.outer (document s) e)).
Proof.
  eexists. split; [reflexivity|].
  apply (merge_concatenates Sample.outer Sample.verbatim Sample.verbatim Sample.icons
           Sample.centered_A Sample.no_config Sample.api false).
  reflexivity.
Defined.

(** C5, as stated, fails: a block that holds [{text: A, alignment: center}]
    and was rendered, but whose frame has not run yet, has an empty view;
    the getter reads the view, and the merge of [{text: B}] leaves
    [{text: B, alignment: center}]. *)
Lemma merge_concatenates_counterexample :
  exists s0,
    constructor Sample.icons (Some Sample.centered_A) (Some Sample.no_config)
                Sample.api false = Normal s0 /\
    _data (run Sample.outer Sample.verbatim Sample.verbatim [Render] s0)
      = mkData (VStr (lit "A")) (VStr (lit "center")) /\
    (merge Sample.outer (Some Sample.text_B)
       (run Sample.outer Sample.verbatim Sample.verbatim [Render] s0)).2 = Normal tt /\
    _data (merge Sample.outer (Some Sample.text_B)
             (run Sample.outer Sample.verbatim Sample.verbatim [Render] s0)).1
      = mkData (VStr (lit "B")) (VStr (lit "center")).
Proof.
  eexists. split; [reflexivity|]. repeat split; vm_compute; reflexivity.
Qed.



(** C9, as stated, fails: [validate] of saved data without a text throws. *)
Lemma validate_missing_text_counterexample :
  exists s0,
    constructor Sample.icons (Some empty_object) (Some Sample.no_config)
                Sample.api false = Normal s0 /\
    (validate (Some empty_object) s0).2 = Throw TypeError.
Proof. eexists. split; reflexivity. Qed.

Lemma render_memoized_witness :
  exists s0,
    constructor Sample.icons (Some Sample.centered_A) (Some Sample.no_config)
                Sample.api false = Normal s0 /\
    let s := run Sample.outer Sample.verbatim Sample.verbatim [RenderSettings] s0 in
    (Forall (fun o => o <> Render) [RenderSettings] -> _element s = None) /\
    ((exists s1 v, render s = (s1, Normal v)) <-> can_render s = true) /\
    (can_render s = false ->
       exists err,
         (render s).2 = Throw err /\ _element (render s).1 = None /\
         document (render s).1 = document s ++ [new_element (lit "DIV")]) /\
    forall s1 v,
      render s = (s1, Normal v) ->
      exists view,
        v = Some view /\
        (_element s = None ->
           view = length (document s) /\
           exists div, document s1 = document s ++ [div]) /\
        (_element s <> None ->
           _element s = Some view /\ document s1 = document s) /\
        let s' := run Sample.outer Sample.verbatim Sample.verbatim
                      [AnimationFrame; OnPaste Sample.paste_right; Render] s1 in
        (render s').2 = Normal (Some view) /\
        document (render s').1 = document s'.
Proof.
  eexists. split; [reflexivity|].
  apply (render_memoized Sample.outer Sample.verbatim Sample.verbatim Sample.icons
           Sample.centered_A Sample.no_config Sample.api false).
  reflexivity.
Defined.

(** C8, as stated, fails: with data whose alignment is [toString] the
    alignment table answers with a method of [Object.prototype], whose
    source text is no class token; [drawView] throws after it has created
    the element, no view is kept, and the next [render] creates another
    element and throws again. *)
Lemma render_memoized_counterexample :
  exists s0,
    constructor Sample.icons (Some Sample.toString_A) (Some Sample.no_config)
                Sample.api false = Normal s0 /\
    (render s0).2 = Throw InvalidCharacterError /\
    _element (render s0).1 = None /\
    length (document (render s0).1) = 1%nat /\
    (render (render s0).1).2 = Throw InvalidCharacterError /\
    _element (render (render s0).1).1 = None /\
    length (document (render (render s0).1).1) = 2%nat.
Proof.
  eexists. split; [reflexivity|]. repeat split; vm_compute; reflexivity.
Qed.

Lemma view_editable_unless_readOnly_witness :
  exists s0,
    constructor Sample.icons (Some Sample.centered_A) (Some Sample.no_config)
                Sample.api true = Normal s0 /\
    ((exists s v,
        render (run Sample.outer Sample.verbatim Sample.verbatim [RenderSettings] s0)
          = (s, Normal v))
     <-> can_render (run Sample.outer Sample.verbatim Sample.verbatim
                       [RenderSettings] s0) = true) /\
    forall s v,
      render (run Sample.outer Sample.verbatim Sample.verbatim [RenderSettings] s0)
        = (s, Normal v) ->
      exists view e,
        v = Some view /\
        document s !! view = Some e /\
        contentEditable e = Some (negb true) /\
        (true = false -> (keyup, OnKeyUp) ∈ listeners e) /\
        (true = true ->
           (forall m e' l,
              document s !! m = Some e' -> l ∈ listeners e' -> l.1 = click) /\
           forall code,
             dispatchEvent Sample.outer Sample.verbatim Sample.verbatim view keyup code s
               = (s, Normal tt)).
Proof.
  eexists. split; [reflexivity|].
  apply (view_editable_unless_readOnly Sample.outer Sample.verbatim Sample.verbatim Sample.icons
           Sample.centered_A Sample.no_config Sample.api true).
  reflexivity.
Defined.

Lemma normal_operation_never_throws_witness :
  exists s0,
    constructor Sample.icons (Some empty_object) (Some Sample.no_config)
                Sample.api false = Normal s0 /\
    normal_history Sample.outer Sample.verbatim Sample.verbatim
      [Render; AnimationFrame; RenderSettings; Event 3%nat click [];
       Merge (Some empty_object); AnimationFrame; Save (Some 0%nat);
       Validate (Some Sample.text_B); OnPaste Sample.paste_right;
       Event 0%nat keyup (lit "Backspace"); UserEdit (lit "x")] s0 = true /\
    raises Sample.outer Sample.verbatim Sample.verbatim
      [Render; AnimationFrame; RenderSettings; Event 3%nat click [];
       Merge (Some empty_object); AnimationFrame; Save (Some 0%nat);
       Validate (Some Sample.text_B); OnPaste Sample.paste_right;
       Event 0%nat keyup (lit "Backspace"); UserEdit (lit "x")] s0 = false.
Proof.
  destruct (normal_operation_never_throws Sample.outer Sample.verbatim Sample.verbatim Sample.icons
              empty_object Sample.no_config Sample.api false) as (s0 & Hc & Hsafe).
  exists s0. split; [exact Hc|].
  assert (Hn : normal_history Sample.outer Sample.verbatim Sample.verbatim
      [Render; AnimationFrame; RenderSettings; Event 3%nat click [];
       Merge (Some empty_object); AnimationFrame; Save (Some 0%nat);
       Validate (Some Sample.text_B); OnPaste Sample.paste_right;
       Event 0%nat keyup (lit "Backspace"); UserEdit (lit "x")] s0 = true).
  { injection Hc as <-. vm_compute. reflexivity. }
  split; [exact Hn|exact (Hsafe _ Hn)].
Defined.

Lemma usable_after_any_history_witness :
  exists s0,
    constructor Sample.icons (Some Sample.centered_A) (Some Sample.no_config)
                Sample.api false = Normal s0 /\
    (step Sample.outer Sample.verbatim Sample.verbatim (Save (Some 0%nat))
       (run Sample.outer Sample.verbatim Sample.verbatim
          [Merge None; Render; AnimationFrame] s0)).2 = Normal tt.
Proof.
  eexists. split; [reflexivity|].
  apply (usable_after_any_history Sample.outer Sample.verbatim Sample.verbatim Sample.icons
           Sample.centered_A Sample.no_config Sample.api false);
    reflexivity.
Defined.

Lemma construction_constants_kept_witness :
  exists s0,
    constructor Sample.icons (Some Sample.centered_A) (Some Sample.left_config)
                Sample.api true = Normal s0 /\
    let s := run Sample.outer Sample.verbatim Sample.verbatim
                 [Render; OnPaste Sample.paste_right; AnimationFrame;
                  RenderSettings] s0 in
    config s = Sample.left_config /\ readOnly s = true /\ api s = Sample.api /\
    _preserveBlank s = default false (preserveBlank Sample.left_config) /\
    _placeholder s = (if truthy (placeholder Sample.left_config)
                      then placeholder Sample.left_config else VStr empty_string) /\
    name <$> _tunesButtons s = Static.ALIGNMENTS /\
    css_alignment (_CSS s)
      = (fun a => (a, lit "ce-paragraph--" ++ a)) <$> Static.ALIGNMENTS.
Proof.
  eexists. split; [reflexivity|].
  apply (construction_constants_kept Sample.outer Sample.verbatim Sample.verbatim Sample.icons
           Sample.centered_A Sample.left_config Sample.api true).
  reflexivity.
Defined.

Lemma alignment_kept_witness :
  exists s0,
    constructor Sample.icons (Some Sample.centered_A) (Some Sample.left_config)
                Sample.api false = Normal s0 /\
    alignment (_data (step Sample.outer Sample.verbatim Sample.verbatim (Merge (Some Sample.text_B))
                        (run Sample.outer Sample.verbatim Sample.verbatim
                           [Render; AnimationFrame] s0)).1)
      = alignment (_data (run Sample.outer Sample.verbatim Sample.verbatim
                            [Render; AnimationFrame] s0)).
Proof.
  eexists. split; [reflexivity|].
  apply (alignment_kept Sample.outer Sample.verbatim Sample.verbatim Sample.icons
           Sample.centered_A Sample.left_config Sample.api false);
    reflexivity.
Defined.

Lemma save_reads_view_witness :
  exists s0 e,
    constructor Sample.icons (Some Sample.centered_A) (Some Sample.left_config)
                Sample.api false = Normal s0 /\
    let s := run Sample.outer Sample.verbatim Sample.verbatim
                 [Render; AnimationFrame; UserEdit (lit "A<b>b</b>")] s0 in
    document s !! 0%nat = Some e /\
    exists s',
      save Sample.outer (Some 0%nat) s
        = (s', Normal (mkData (VStr (innerHTML Sample.outer (document s) e)) (alignment (_data s)))) /\
      _data s' = mkData (VStr (innerHTML Sample.outer (document s) e)) (alignment (_data s)) /\
      document s' = document s /\ _element s' = Some 0%nat /\
      animationFrames s' = animationFrames s.
Proof.
  eexists. eexists. split; [reflexivity|]. split; [vm_compute; reflexivity|].
  apply (save_reads_view Sample.outer Sample.verbatim Sample.verbatim Sample.icons
           Sample.centered_A Sample.left_config Sample.api false);
    vm_compute; reflexivity.
Defined.

Lemma paste_shown_after_frame_witness :
  exists s0,
    constructor Sample.icons (Some Sample.centered_A) (Some Sample.left_config)
                Sample.api false = Normal s0 /\
    let s := run Sample.outer Sample.verbatim Sample.verbatim [Render; AnimationFrame] s0 in
    let s1 := (onPaste Sample.paste_right s).1 in
    exists s2,
      animationFrame Sample.verbatim s1 = (s2, Normal tt) /\
      current_text Sample.outer s2 = VStr (Sample.verbatim (paste_innerHTML Sample.paste_right)) /\
      _data s2 = _data s1 /\
      text (_data s1) = VStr (paste_innerHTML Sample.paste_right).
Proof.
  eexists. split; [reflexivity|].
  apply (paste_shown_after_frame Sample.outer Sample.verbatim Sample.verbatim Sample.icons
           Sample.centered_A Sample.left_config Sample.api false _ _ 0%nat);
    vm_compute; reflexivity.
Defined.

Lemma merge_shown_after_frame_witness :
  exists s0 e,
    constructor Sample.icons (Some Sample.centered_A) (Some Sample.left_config)
                Sample.api false = Normal s0 /\
    let s := run Sample.outer Sample.verbatim Sample.verbatim [Render; AnimationFrame] s0 in
    document s !! 0%nat = Some e /\
    exists s1 s2,
      merge Sample.outer (Some Sample.text_B) s = (s1, Normal tt) /\
      animationFrame Sample.verbatim s1 = (s2, Normal tt) /\
      current_text Sample.outer s2 = VStr (Sample.verbatim (innerHTML Sample.outer (document s) e ++ lit "B")) /\
      alignment (_data s2) = alignment (_data s).
Proof.
  eexists. eexists. split; [reflexivity|]. split; [vm_compute; reflexivity|].
  apply (merge_shown_after_frame Sample.outer Sample.verbatim Sample.verbatim Sample.icons
           Sample.centered_A Sample.left_config Sample.api false _ _ 0%nat);
    vm_compute; reflexivity.
Defined.

Lemma save_before_frame_reverts_paste_witness :
  exists s0 e,
    constructor Sample.icons (Some Sample.centered_A) (Some Sample.left_config)
                Sample.api false = Normal s0 /\
    let s := run Sample.outer Sample.verbatim Sample.verbatim [Render; AnimationFrame] s0 in
    document s !! 0%nat = Some e /\
    let s1 := (onPaste Sample.paste_right s).1 in
    exists s2 s3,
      save Sample.outer (Some 0%nat) s1
        = (s2, Normal (mkData (VStr (innerHTML Sample.outer (document s) e)) (alignment (_data s1)))) /\
      animationFrame Sample.verbatim s2 = (s3, Normal tt) /\
      current_text Sample.outer s3 = VStr (Sample.verbatim (innerHTML Sample.outer (document s) e)) /\
      _data s3 = mkData (VStr (innerHTML Sample.outer (document s) e)) (alignment (_data s1)).
Proof.
  eexists. eexists. split; [reflexivity|]. split; [vm_compute; reflexivity|].
  apply (save_before_frame_reverts_paste Sample.outer Sample.verbatim Sample.verbatim Sample.icons
           Sample.centered_A Sample.left_config Sample.api false);
    vm_compute; reflexivity.
Defined.

Lemma merge_missing_data_witness :
  exists s0,
    constructor Sample.icons (Some Sample.centered_A) (Some Sample.left_config)
                Sample.api false = Normal s0 /\
    let s := run Sample.outer Sample.verbatim Sample.verbatim [Render; AnimationFrame] s0 in
    (forall incoming, text incoming = VUndefined ->
       text (_data (merge Sample.outer (Some incoming) s).1) = VStr (lit "A" ++ lit "undefined")) /\
    (merge Sample.outer None s).2 = Throw TypeError /\
    _data (merge Sample.outer None s).1 = mkData (VStr (lit "A")) (alignment (_data s)) /\
    animationFrames (merge Sample.outer None s).1 = animationFrames s.
Proof.
  eexists. split; [reflexivity|].
  apply (merge_missing_data Sample.outer Sample.verbatim Sample.verbatim Sample.icons
           Sample.centered_A Sample.left_config Sample.api false);
    vm_compute; reflexivity.
Defined.

Lemma tune_click_before_render_witness :
  exists s0,
    constructor Sample.icons (Some Sample.centered_A) (Some Sample.left_config)
                Sample.api false = Normal s0 /\
    let s := run Sample.outer Sample.verbatim Sample.verbatim [RenderSettings] s0 in
    (exists err, (tune_click Sample.outer 2 [1; 2; 3; 4]%nat s).2 = Throw err) /\
    (token_error (ToString (styles_settingsButtonActive Sample.api)) = None ->
       (tune_click Sample.outer 2 [1; 2; 3; 4]%nat s).2 = Throw TypeError) /\
    (forall el err,
       head [1; 2; 3; 4]%nat = Some el -> (el < length (document s))%nat ->
       token_error (ToString (styles_settingsButtonActive Sample.api)) = Some err ->
       (tune_click Sample.outer 2 [1; 2; 3; 4]%nat s).2 = Throw err) /\
    alignment (_data (tune_click Sample.outer 2 [1; 2; 3; 4]%nat s).1)
      = (if bool_decide (alignment (_data s) = VStr (lit "right"))
         then defaultAlignment Sample.left_config else VStr (lit "right")).
Proof.
  eexists. split; [reflexivity|].
  apply (tune_click_before_render Sample.outer Sample.verbatim Sample.verbatim Sample.icons
           Sample.centered_A Sample.left_config Sample.api false);
    [vm_compute; reflexivity|reflexivity|reflexivity|discriminate].
Defined.

Lemma first_render_builds_view_witness :
  exists s0,
    constructor Sample.icons (Some Sample.centered_A) (Some Sample.left_config)
                Sample.api false = Normal s0 /\
    let s := run Sample.outer Sample.verbatim Sample.verbatim
                 [OnPaste Sample.paste_start] s0 in
    _element s = None /\
    let third :=
      if is_alignment (alignment (_data s))
      then lit "ce-paragraph--" ++ ToString (alignment (_data s))
      else property_string (inherited (ToString (alignment (_data s)))) in
    let tokens := [lit "ce-paragraph"; ToString (styles_block Sample.api); third] in
    match tokens_error tokens with
    | Some err =>
        render s =
          (with_document (document s ++ [new_element (lit "DIV")]) s, Throw err)
    | None =>
        exists e,
          render s =
            (with_animationFrames (S (animationFrames s))
               (with_element (Some (length (document s)))
                  (with_document (document s ++ [e]) s)),
             Normal (Some (length (document s)))) /\
          tagName e = lit "DIV" /\ children e = [] /\
          (forall doc, innerHTML Sample.outer doc e = empty_string) /\
          dataset_placeholder e =
            Some (ToString (i18n_t Sample.api
                              (if truthy (placeholder Sample.left_config)
                               then placeholder Sample.left_config
                               else VStr empty_string))) /\
          classList e = foldl (fun l t => add_token t l) [] tokens
    end /\
    (is_alignment (alignment (_data s)) = false ->
     inherited (ToString (alignment (_data s))) = PValue VUndefined ->
     third = lit "undefined") /\
    (forall k,
       alignment (_data s) = VStr k ->
       k ∈ lit "__proto__" :: Object_prototype_methods.*1 ->
       token_error (ToString (styles_block Sample.api)) = None ->
       (render s).2 = Throw InvalidCharacterError).
Proof.
  eexists. split; [reflexivity|]. split; [reflexivity|].
  apply (first_render_builds_view Sample.outer Sample.verbatim Sample.verbatim
           Sample.icons Sample.centered_A Sample.left_config Sample.api false);
    reflexivity.
Defined.

Lemma keyup_clears_empty_view_witness :
  exists s0 e,
    constructor Sample.icons (Some Sample.centered_A) (Some Sample.left_config)
                Sample.api false = Normal s0 /\
    let s := run Sample.outer Sample.verbatim (fun _ => empty_string)
                 [Render; AnimationFrame; UserEdit (lit "<br>")] s0 in
    document s !! 0%nat = Some e /\
    dispatchEvent Sample.outer Sample.verbatim (fun _ => empty_string) 0%nat keyup
                  (lit "Delete") s =
      (if (bool_decide (lit "Delete" = lit "Backspace")
           || bool_decide (lit "Delete" = lit "Delete"))
          && bool_decide ((fun _ : jsstring => empty_string) (innerHTML Sample.outer (document s) e) = empty_string)
       then with_document
              (alter (with_innerHTML (Sample.verbatim empty_string)) 0%nat (document s)) s
       else s,
       Normal tt).
Proof.
  eexists. eexists. split; [reflexivity|]. split; [vm_compute; reflexivity|].
  eapply (keyup_clears_empty_view Sample.outer Sample.verbatim (fun _ => empty_string) Sample.icons
           Sample.centered_A Sample.left_config Sample.api);
    vm_compute; reflexivity.
Defined.

Lemma keyup_ignored_witness :
  exists s0 e,
    constructor Sample.icons (Some Sample.centered_A) (Some Sample.left_config)
                Sample.api true = Normal s0 /\
    let s := run Sample.outer Sample.verbatim Sample.verbatim [Render; AnimationFrame] s0 in
    document s !! 0%nat = Some e /\
    dispatchEvent Sample.outer Sample.verbatim Sample.verbatim 0%nat keyup (lit "Delete") s
      = (s, Normal tt).
Proof.
  eexists. eexists. split; [reflexivity|]. split; [vm_compute; reflexivity|].
  eapply (keyup_ignored Sample.outer Sample.verbatim Sample.verbatim Sample.icons
            Sample.centered_A Sample.left_config Sample.api true).
  - reflexivity.
  - vm_compute; reflexivity.
  - left. reflexivity.
Defined.

Lemma renderSettings_builds_buttons_witness :
  exists s0,
    constructor Sample.icons (Some Sample.centered_A) (Some Sample.left_config)
                Sample.api false = Normal s0 /\
    let s := run Sample.outer Sample.verbatim Sample.verbatim [Render; AnimationFrame] s0 in
    let L := length (document s) in
    let elements := seq (S L) 4 in
    match token_error (ToString (styles_settingsButtonActive Sample.api)) with
    | Some err => (renderSettings Sample.outer Sample.verbatim s).2 = Throw err
    | None =>
        exists s',
          renderSettings Sample.outer Sample.verbatim s = (s', Normal L) /\
          core s' = core s /\ animationFrames s' = animationFrames s /\
          length (document s') = (L + 5)%nat /\
          (forall n, (n < L)%nat -> document s' !! n = document s !! n) /\
          document s' !! L
            = Some (mkElement (lit "DIV") [] None None (Appended <$> elements) []) /\
          (forall k nm, Static.ALIGNMENTS !! k = Some nm ->
             document s' !! (S L + k)%nat =
             Some (mkElement (lit "DIV")
                     (toggle_token (ToString (styles_settingsButtonActive Sample.api))
                        (strict_eq (VStr nm)
                           (js_or (alignment (_data s))
                                  (defaultAlignment Sample.left_config)))
                        [lit "cdx-settings-button"])
                     None None [Parsed (Sample.verbatim (Sample.icons nm))]
                     [(click, TuneClick k elements)]))
    end.
Proof.
  eexists. split; [reflexivity|].
  apply (renderSettings_builds_buttons Sample.outer Sample.verbatim Sample.verbatim Sample.icons
           Sample.centered_A Sample.left_config Sample.api false).
  reflexivity.
Defined.

Lemma click_listeners_wired_witness :
  exists s0,
    constructor Sample.icons (Some Sample.centered_A) (Some Sample.left_config)
                Sample.api false = Normal s0 /\
    let s := run Sample.outer Sample.verbatim Sample.verbatim
                 [RenderSettings; Render; AnimationFrame] s0 in
    click = click /\
    [1; 2; 3; 4]%nat !! 1%nat = Some 2%nat /\
    length [1; 2; 3; 4]%nat = length Static.ALIGNMENTS /\
    NoDup [1; 2; 3; 4]%nat /\
    Forall (fun b => (b < length (document s))%nat) [1; 2; 3; 4]%nat /\
    (forall view, _element s = Some view -> view ∉ [1; 2; 3; 4]%nat) /\
    token_error (ToString (styles_settingsButtonActive Sample.api)) = None.
Proof.
  eexists. split; [reflexivity|].
  eapply (click_listeners_wired Sample.outer Sample.verbatim Sample.verbatim Sample.icons
            Sample.centered_A Sample.left_config Sample.api false).
  - reflexivity.
  - vm_compute; reflexivity.
  - vm_compute. constructor.
Defined.

Lemma tune_click_marks_witness :
  exists s0,
    constructor Sample.icons (Some Sample.centered_A) (Some Sample.left_config)
                Sample.api false = Normal s0 /\
    let s := run Sample.outer Sample.verbatim Sample.verbatim
                 [Render; AnimationFrame; RenderSettings] s0 in
    exists s' ev,
      tune_click Sample.outer 2 [2; 3; 4; 5]%nat s = (s', Normal tt) /\
      document s' !! 0%nat = Some ev /\
      (forall nm, nm ∈ Static.ALIGNMENTS ->
         lit "ce-paragraph--" ++ nm ∈ classList ev <-> alignment (_data s') = VStr nm) /\
      (forall k b nm, [2; 3; 4; 5]%nat !! k = Some b -> Static.ALIGNMENTS !! k = Some nm ->
         exists eb, document s' !! b = Some eb /\
           (ToString (styles_settingsButtonActive Sample.api) ∈ classList eb
            <-> alignment (_data s') = VStr nm)).
Proof.
  eexists. split; [reflexivity|].
  apply (tune_click_marks Sample.outer Sample.verbatim Sample.verbatim Sample.icons
           Sample.centered_A Sample.left_config Sample.api false _ _ 0%nat 2%nat
           (lit "right")).
  - reflexivity.
  - vm_compute; reflexivity.
  - reflexivity.
  - reflexivity.
  - repeat (constructor; [vm_compute; lia|]). constructor.
  - apply (bool_decide_unpack (NoDup [2; 3; 4; 5]%nat)). reflexivity.
  - apply (bool_decide_unpack (0%nat ∉ [2; 3; 4; 5]%nat)). reflexivity.
  - reflexivity.
Defined.

Lemma click_on_settings_button_witness :
  exists s0,
    constructor Sample.icons (Some Sample.centered_A) (Some Sample.left_config)
                Sample.api false = Normal s0 /\
    let s := run Sample.outer Sample.verbatim Sample.verbatim [Render; AnimationFrame] s0 in
    let L := length (document s) in
    let s1 := (renderSettings Sample.outer Sample.verbatim s).1 in
    exists s2 ev,
      dispatchEvent Sample.outer Sample.verbatim Sample.verbatim (S L + 1) click [] s1
        = (s2, Normal tt) /\
      alignment (_data s2) =
        (if bool_decide (alignment (_data s) = VStr (lit "center"))
         then defaultAlignment Sample.left_config else VStr (lit "center")) /\
      document s2 !! 0%nat = Some ev /\
      (forall nm, nm ∈ Static.ALIGNMENTS ->
         lit "ce-paragraph--" ++ nm ∈ classList ev <-> alignment (_data s2) = VStr nm) /\
      (forall j nm, Static.ALIGNMENTS !! j = Some nm ->
         exists eb, document s2 !! (S L + j)%nat = Some eb /\
           (ToString (styles_settingsButtonActive Sample.api) ∈ classList eb
            <-> alignment (_data s2) = VStr nm)).
Proof.
  eexists. split; [reflexivity|].
  apply (click_on_settings_button Sample.outer Sample.verbatim Sample.verbatim Sample.icons
           Sample.centered_A Sample.left_config Sample.api false);
    vm_compute; reflexivity.
Defined.
